(** * inject-define-options: a shallow embedding of [src/inject.ts]

    The tool reads a route table (a TypeScript module parsed by ts-morph),
    extracts [(name, relativePath)] pairs from it and patches every Vue
    component file it finds so that its first script block carries
    [defineOptions({ name: "<name>" });].

    Layout of the development:
    - [JsString]: JavaScript strings as sequences of UTF-16 code units and
      the [String.prototype] methods the source calls;
    - [Regex]: a backtracking matcher for the fragment of regular-expression
      syntax of the two literals in the source, with [exec] and [replace];
    - [Ast]: the ts-morph nodes the extractor walks;
    - the extractor and the patcher of [injectDefineOptions];
    - the properties. *)

From Stdlib Require Import NArith Ascii String Bool Lia.
From stdpp Require Import base option list gmap.

Local Open Scope N_scope.
Local Open Scope nat_scope.
Local Open Scope list_scope.

(** ** JavaScript strings *)

(** A JavaScript string is a finite sequence of UTF-16 code units; offsets
    ([indexOf], [slice], the positions ts-morph reports) count code units. *)
Abbreviation jsstring := (list N).

(** Code units of an ASCII literal. *)
Definition js (s : string) : jsstring :=
  map N_of_ascii (list_ascii_of_string s).

Definition dquote : N := 34%N.
Definition newline : N := 10%N.

Module JsString.

(** [s.startsWith(p)] *)
Fixpoint startsWith (p s : jsstring) : bool :=
  match p, s with
  | [], _ => true
  | a :: p', b :: s' => N.eqb a b && startsWith p' s'
  | _ :: _, [] => false
  end.

(** [s.endsWith(p)] *)
Definition endsWith (p s : jsstring) : bool :=
  startsWith (rev p) (rev s).

(** [s.indexOf(p)], [None] standing for [-1]. *)
Fixpoint indexOf (p s : jsstring) : option nat :=
  if startsWith p s then Some 0
  else match s with
       | [] => None
       | _ :: s' => S <$> indexOf p s'
       end.

(** [s.includes(p)] *)
Definition includes (p s : jsstring) : bool :=
  match indexOf p s with Some _ => true | None => false end.

(** [s.slice(0, n)] and [s.slice(n)] for a non-negative [n]; both clamp [n]
    to the length of [s]. *)
Definition slice_to (n : nat) (s : jsstring) : jsstring := take n s.
Definition slice_from (n : nat) (s : jsstring) : jsstring := drop n s.

(** ECMAScript [WhiteSpace] and [LineTerminator] code units: the set that
    [trim] strips and that [\s] matches. *)
Definition isWhiteSpace (c : N) : bool :=
  (N.eqb c 9 || N.eqb c 10 || N.eqb c 11 || N.eqb c 12 || N.eqb c 13
   || N.eqb c 32 || N.eqb c 160 || N.eqb c 5760
   || (N.leb 8192 c && N.leb c 8202)
   || N.eqb c 8232 || N.eqb c 8233 || N.eqb c 8239 || N.eqb c 8287
   || N.eqb c 12288 || N.eqb c 65279)%N.

Fixpoint trimStart (s : jsstring) : jsstring :=
  match s with
  | c :: s' => if isWhiteSpace c then trimStart s' else s
  | [] => []
  end.

Definition trimEnd (s : jsstring) : jsstring := rev (trimStart (rev s)).

(** [s.trim()] *)
Definition trim (s : jsstring) : jsstring := trimEnd (trimStart s).

(** [s.split(sep)] for a separator of one code unit. *)
Fixpoint split (sep : N) (s : jsstring) : list jsstring :=
  match s with
  | [] => [[]]
  | c :: s' =>
      if N.eqb c sep then [] :: split sep s'
      else match split sep s' with
           | seg :: segs => (c :: seg) :: segs
           | [] => [[c]]
           end
  end.

(** [arr.includes(x)] on an array of strings. *)
Definition arrayIncludes (x : jsstring) (arr : list jsstring) : bool :=
  existsb (fun y => bool_decide (y = x)) arr.

(** [GetSubstitution] of ECMAScript for a match without capture groups:
    in the replacement text [$$] stands for a dollar sign, [$&] for the
    matched text, [$`] for the text before the match and [$'] for the text
    after it. Every other code unit, a dollar sign followed by anything
    else included ([$1] and [$<] refer to groups that do not exist), is
    copied. *)
Fixpoint getSubstitution (matched before after template : jsstring) : jsstring :=
  match template with
  | [] => []
  | c :: t =>
      let copy := c :: getSubstitution matched before after t in
      if N.eqb c 36 then
        match t with
        | d :: t' =>
            if N.eqb d 36 then 36%N :: getSubstitution matched before after t'
            else if N.eqb d 38 then matched ++ getSubstitution matched before after t'
            else if N.eqb d 96 then before ++ getSubstitution matched before after t'
            else if N.eqb d 39 then after ++ getSubstitution matched before after t'
            else copy
        | [] => copy
        end
      else copy
  end.

(** [s.replace(pattern, replacement)] with a string pattern: the first
    occurrence is replaced by the expanded replacement text. *)
Definition replace (pattern replacement s : jsstring) : jsstring :=
  match indexOf pattern s with
  | None => s
  | Some i =>
      let before := take i s in
      let after := drop (i + length pattern) s in
      before ++ getSubstitution pattern before after replacement ++ after
  end.

End JsString.

(** ** Regular expressions *)

Module Regex.

(** The syntax the two regex literals of the source use: literal text,
    a character class, concatenation, a greedy or lazy star over a class,
    a greedy option and a capture group. *)
Inductive regex : Type :=
| Str (l : jsstring)
| Cls (p : N -> bool)
| Cat (r1 r2 : regex)
| Star (p : N -> bool)
| StarLazy (p : N -> bool)
| Opt (r : regex)
| Grp (r : regex).

Section Matcher.
Context {A : Type}.

(** [p*]: as many code units as possible first, then fewer. *)
Fixpoint star_greedy (p : N -> bool) (s : jsstring)
    (k : jsstring -> option A) : option A :=
  match s with
  | c :: s' =>
      if p c then
        match star_greedy p s' k with
        | Some r => Some r
        | None => k s
        end
      else k s
  | [] => k s
  end.

(** [p*?]: as few code units as possible first, then more. *)
Fixpoint star_lazy (p : N -> bool) (s : jsstring)
    (k : jsstring -> option A) : option A :=
  match k s with
  | Some r => Some r
  | None =>
      match s with
      | c :: s' => if p c then star_lazy p s' k else None
      | [] => None
      end
  end.

(** Backtracking matcher in continuation-passing style: [rmatch r s caps k]
    matches [r] at the head of [s] and hands the rest of the input and the
    captures so far to [k]; when [k] fails the next alternative of [r] is
    tried, in the priority order of ECMAScript. *)
Fixpoint rmatch (r : regex) (s : jsstring) (caps : list jsstring)
    (k : jsstring -> list jsstring -> option A) : option A :=
  match r with
  | Str l =>
      if JsString.startsWith l s then k (drop (length l) s) caps else None
  | Cls p =>
      match s with
      | c :: s' => if p c then k s' caps else None
      | [] => None
      end
  | Cat r1 r2 => rmatch r1 s caps (fun s' caps' => rmatch r2 s' caps' k)
  | Star p => star_greedy p s (fun s' => k s' caps)
  | StarLazy p => star_lazy p s (fun s' => k s' caps)
  | Opt r' =>
      match rmatch r' s caps k with
      | Some x => Some x
      | None => k s caps
      end
  | Grp r' =>
      rmatch r' s caps
        (fun s' caps' => k s' (caps' ++ [take (length s - length s') s]))
  end.
End Matcher.

(** The result of [RegExp.prototype.exec]: [index], [match[0]] and the
    capture groups [match[1]], [match[2]], ... *)
Record MatchResult : Type := {
  index : nat;
  matched : jsstring;
  groups : list jsstring
}.

Definition match_here (r : regex) (s : jsstring) : option (jsstring * list jsstring) :=
  rmatch r s [] (fun rest caps => Some (rest, caps)).

(** Leftmost match: every start offset from [i] on, in order. *)
Fixpoint exec_from (r : regex) (i : nat) (s : jsstring) : option MatchResult :=
  match match_here r s with
  | Some (rest, caps) =>
      Some {| index := i; matched := take (length s - length rest) s; groups := caps |}
  | None =>
      match s with
      | [] => None
      | _ :: s' => exec_from r (S i) s'
      end
  end.

(** [s.match(r)] for a regex without the global flag. *)
Definition exec (r : regex) (s : jsstring) : option MatchResult := exec_from r 0 s.

(** [s.replace(r, replacement)] for a regex without the global flag and
    without capture groups. *)
Definition replace (r : regex) (replacement s : jsstring) : jsstring :=
  match exec r s with
  | None => s
  | Some m =>
      let before := take (index m) s in
      let after := drop (index m + length (matched m)) s in
      before ++ JsString.getSubstitution (matched m) before after replacement ++ after
  end.

Definition anyChar (c : N) : bool := true.
Definition notChar (x : N) (c : N) : bool := negb (N.eqb c x).

End Regex.

Import JsString Regex.

(** The regex literal [scriptRegex] of the patcher: the text [<script], a
    first group of code units other than [>] (greedy), the text [>], a
    second group of arbitrary code units (lazy), the text [</script>]. *)
Definition scriptRegex : regex :=
  Cat (Str (js "<script"))
   (Cat (Grp (Star (notChar 62)))
    (Cat (Str (js ">"))
     (Cat (Grp (StarLazy anyChar))
          (Str (js "</script>"))))).

(** The regex literal of the replacement: [defineOptions], white space,
    [(], white space, [{], code units other than [}], [}], white space,
    [)], white space (all stars greedy) and an optional [;]. *)
Definition defineRegex : regex :=
  Cat (Str (js "defineOptions"))
   (Cat (Star isWhiteSpace)
    (Cat (Str (js "("))
     (Cat (Star isWhiteSpace)
      (Cat (Str (js "{"))
       (Cat (Star (notChar 125))
        (Cat (Str (js "}"))
         (Cat (Star isWhiteSpace)
          (Cat (Str (js ")"))
           (Cat (Star isWhiteSpace)
                (Opt (Str (js ";")))))))))))).

(** ** The syntax tree of the route file *)

(** The node kinds [injectDefineOptions] tests for; every other kind of
    TypeScript is [Other] with its numeric code. *)
Module SyntaxKind.
Inductive t : Type :=
| ExportAssignment
| ArrayLiteralExpression
| AsExpression
| Identifier
| VariableDeclaration
| ObjectLiteralExpression
| PropertyAssignment
| StringLiteral
| ArrowFunction
| CallExpression
| ImportKeyword
| Other (code : nat).

#[global] Instance eq_dec : EqDecision t.
Proof. solve_decision. Defined.
End SyntaxKind.

Module Ast.

(** A ts-morph node, with the children the compiler's [forEachChild]
    visits, in its order. An export assignment is [export default e], or
    [export = e] when [isExportEquals] holds: TypeScript gives both the
    kind [ExportAssignment]. [Member] is an object-literal member other than a
    property assignment that still has a name (shorthand property, method,
    accessor); [Other] is any other node and keeps its source text. *)
#[warnings="-register-all"]
Inductive Node : Type :=
| ExportAssignment (isExportEquals : bool) (expression : Node)
| ArrayLiteralExpression (elements : list Node)
| AsExpression (expression : Node) (type : Node)
| Identifier (text : jsstring)
| VariableDeclaration (name : Node) (type : option Node) (initializer : option Node)
| ObjectLiteralExpression (properties : list Node)
| PropertyAssignment (name : Node) (initializer : Node)
| Member (kind : nat) (name : Node) (text : jsstring) (rest : list Node)
| StringLiteral (literalText : jsstring)
| ArrowFunction (parameters : list Node) (body : Node)
| CallExpression (expression : Node) (typeArguments : list Node) (arguments : list Node)
| ImportKeyword
| Other (kind : nat) (text : jsstring) (children : list Node).

(** [node.getKind()] *)
Definition getKind (n : Node) : SyntaxKind.t :=
  match n with
  | ExportAssignment _ _ => SyntaxKind.ExportAssignment
  | ArrayLiteralExpression _ => SyntaxKind.ArrayLiteralExpression
  | AsExpression _ _ => SyntaxKind.AsExpression
  | Identifier _ => SyntaxKind.Identifier
  | VariableDeclaration _ _ _ => SyntaxKind.VariableDeclaration
  | ObjectLiteralExpression _ => SyntaxKind.ObjectLiteralExpression
  | PropertyAssignment _ _ => SyntaxKind.PropertyAssignment
  | Member k _ _ _ => SyntaxKind.Other k
  | StringLiteral _ => SyntaxKind.StringLiteral
  | ArrowFunction _ _ => SyntaxKind.ArrowFunction
  | CallExpression _ _ _ => SyntaxKind.CallExpression
  | ImportKeyword => SyntaxKind.ImportKeyword
  | Other k _ _ => SyntaxKind.Other k
  end.

Definition isKind (k : SyntaxKind.t) (n : Node) : bool :=
  bool_decide (getKind n = k).

(** [node.getText()]: the source text of the node without its leading
    trivia. The tree keeps no trivia, so a compound node is spelled from
    its parts; tokens and [Other] nodes have their own text. *)
Fixpoint getText (n : Node) : jsstring :=
  let fix texts (sep : jsstring) (l : list Node) : jsstring :=
    match l with
    | [] => []
    | x :: l' =>
        match l' with
        | [] => getText x
        | _ :: _ => getText x ++ sep ++ texts sep l'
        end
    end in
  match n with
  | ExportAssignment equals e =>
      (if equals then js "export = " else js "export default ") ++ getText e ++ js ";"
  | ArrayLiteralExpression es => js "[" ++ texts (js ", ") es ++ js "]"
  | AsExpression e t => getText e ++ js " as " ++ getText t
  | Identifier t => t
  | VariableDeclaration x ty init =>
      getText x
      ++ match ty with Some t => js ": " ++ getText t | None => [] end
      ++ match init with Some i => js " = " ++ getText i | None => [] end
  | ObjectLiteralExpression ps => js "{" ++ texts (js ", ") ps ++ js "}"
  | PropertyAssignment x i => getText x ++ js ": " ++ getText i
  | Member _ _ t _ => t
  | StringLiteral t => dquote :: t ++ [dquote]
  | ArrowFunction ps b => js "(" ++ texts (js ", ") ps ++ js ") => " ++ getText b
  | CallExpression f targs args =>
      getText f
      ++ match targs with [] => [] | _ :: _ => js "<" ++ texts (js ", ") targs ++ js ">" end
      ++ js "(" ++ texts (js ", ") args ++ js ")"
  | ImportKeyword => js "import"
  | Other _ t _ => t
  end.

(** All descendants of a node in document order (a node before its own
    children), the order of [getDescendants]. *)
Fixpoint getDescendants (n : Node) : list Node :=
  let fix under (l : list Node) : list Node :=
    match l with
    | [] => []
    | c :: l' => c :: getDescendants c ++ under l'
    end in
  let under_opt (o : option Node) : list Node :=
    match o with
    | Some c => c :: getDescendants c
    | None => []
    end in
  match n with
  | ExportAssignment _ e => e :: getDescendants e
  | ArrayLiteralExpression es => under es
  | AsExpression e t => (e :: getDescendants e) ++ (t :: getDescendants t)
  | Identifier _ => []
  | VariableDeclaration x ty init =>
      (x :: getDescendants x) ++ under_opt ty ++ under_opt init
  | ObjectLiteralExpression ps => under ps
  | PropertyAssignment x i => (x :: getDescendants x) ++ (i :: getDescendants i)
  | Member _ x _ rest => (x :: getDescendants x) ++ under rest
  | StringLiteral _ => []
  | ArrowFunction ps b => under ps ++ (b :: getDescendants b)
  | CallExpression f targs args =>
      (f :: getDescendants f) ++ under targs ++ under args
  | ImportKeyword => []
  | Other _ _ cs => under cs
  end.

(** [node.getDescendantsOfKind(kind)] *)
Definition getDescendantsOfKind (k : SyntaxKind.t) (n : Node) : list Node :=
  List.filter (isKind k) (getDescendants n).

(** [node.getFirstDescendantByKind(kind)] *)
Definition getFirstDescendantByKind (k : SyntaxKind.t) (n : Node) : option Node :=
  head (getDescendantsOfKind k n).

(** [member.getName()]: the text of the name node, for the members of an
    object literal that have one. *)
Definition getName (member : Node) : option jsstring :=
  match member with
  | PropertyAssignment x _ => Some (getText x)
  | Member _ x _ _ => Some (getText x)
  | _ => None
  end.

(** [obj.getProperty(name)]: the first member of that name. *)
Definition getProperty (name : jsstring) (properties : list Node) : option Node :=
  List.find (fun member =>
               match getName member with
               | Some x => bool_decide (x = name)
               | None => false
               end) properties.

(** A parsed source file: its tree, and the language service's answer to
    [identifier.getDefinitions()] for an identifier of the file, each
    definition with its [getDeclarationNode()]. *)
Record SourceFile : Type := {
  root : Node;
  getDefinitions : jsstring -> list (option Node)
}.

End Ast.

Import Ast.

(** ** The route extractor *)

(** [type RouteItem = { name: string; relativePath: string }] *)
Record RouteItem : Type := {
  name : jsstring;
  relativePath : jsstring
}.

#[global] Instance RouteItem_eq_dec : EqDecision RouteItem.
Proof. solve_decision. Defined.

Definition viewsPrefix : jsstring := js "@/views/".

(** An array literal, or a type assertion around one. *)
Definition arrayOrAsserted (e : Node) : option (list Node) :=
  match e with
  | ArrayLiteralExpression es => Some es
  | AsExpression (ArrayLiteralExpression es) _ => Some es
  | _ => None
  end.

(** The three cases that give [routeArray] from the expression of the
    export assignment. *)
Definition resolveRouteArray (sf : SourceFile) (exportExpr : Node) : option (list Node) :=
  match exportExpr with
  | ArrayLiteralExpression es => Some es
  | AsExpression innerExpr _ =>
      match innerExpr with
      | ArrayLiteralExpression es => Some es
      | _ => None
      end
  | Identifier x =>
      match head (getDefinitions sf x) with
      | Some (Some (VariableDeclaration _ _ (Some init))) => arrayOrAsserted init
      | _ => None
      end
  | _ => None
  end.

(** The dynamic import call of an arrow function: the first call
    expression below it whose callee has the text [import]. *)
Definition findImportCall (arrowFn : Node) : option Node :=
  List.find (fun call =>
               match call with
               | CallExpression callee _ _ => bool_decide (getText callee = js "import")
               | _ => false
               end)
            (getDescendantsOfKind SyntaxKind.CallExpression arrowFn).

(** The literal text of the first argument of a call when that argument
    is a string literal. *)
Definition importPathOf (importCall : Node) : option jsstring :=
  match importCall with
  | CallExpression _ _ (StringLiteral p :: _) => Some p
  | _ => None
  end.

(** The body of the loop over [routeObjects]: [Some] for the element
    pushed to [matchedRoutes], [None] for [continue]. *)
Definition matchRoute (route : Node) : option RouteItem :=
  match route with
  | ObjectLiteralExpression props =>
      match getProperty (js "name") props, getProperty (js "component") props with
      | Some nameProp, Some compProp =>
          match getFirstDescendantByKind SyntaxKind.StringLiteral nameProp,
                getFirstDescendantByKind SyntaxKind.ArrowFunction compProp with
          | Some (StringLiteral nameText), Some arrowFn =>
              match nameText with
              | [] => None
              | _ :: _ =>
                  match findImportCall arrowFn with
                  | Some importCall =>
                      match importPathOf importCall with
                      | Some importPath =>
                          if startsWith viewsPrefix importPath then
                            Some {| name := nameText;
                                    relativePath := JsString.replace viewsPrefix [] importPath |}
                          else None
                      | None => None
                      end
                  | None => None
                  end
              end
          | _, _ => None
          end
      | _, _ => None
      end
  | _ => None
  end.

(** [matchedRoutes]: the object literals of the array, each run through
    the loop body, in the order of the array. *)
Definition extractRoutes (elements : list Node) : list RouteItem :=
  omap matchRoute (List.filter (isKind SyntaxKind.ObjectLiteralExpression) elements).

(** ** The component patcher *)

(** What the run takes from its host besides the file system:
    [path.join] of Node.js, and the TypeScript parser behind
    [vueProject.createSourceFile("temp.ts", text).getImportDeclarations()],
    of which only [getEnd()] of each top-level import declaration is used
    (the offset just after its last token), in source order. *)
Record Host : Type := {
  path_join : jsstring -> jsstring -> jsstring;
  importDeclarationEnds : jsstring -> list nat
}.

(** The messages of the run, by format string. *)
Inductive Message : Type :=
| NoExportDefault
| NotAnArrayExpression
| NoMatchedRoute
| IgnoredComponent (relativePath : jsstring)
| FileNotFound (vueFilePath : jsstring)
| Processed (vueFilePath : jsstring)
| ScriptSetupAdded (vueFilePath : jsstring).

(** What the run does to the console and to the file system, by call. *)
Inductive Event : Type :=
| ConsoleError (m : Message)
| ConsoleWarn (m : Message)
| ConsoleLog (m : Message)
| ExistsSync (path : jsstring)
| ReadFileSync (path : jsstring)
| WriteFileSync (path : jsstring) (data : jsstring).

(** The run over the text of the component files: each file that can be
    read and written, with the string [fs.readFileSync(path, "utf-8")]
    gives for it, and the events so far, oldest first. This is the run as
    the patcher sees it; the bytes behind the strings and the calls of
    [fs] that throw are those of the module [Disk] below. *)
Record World : Type := {
  files : gmap jsstring jsstring;
  trace : list Event
}.

Definition emit (e : Event) (w : World) : World :=
  {| files := files w; trace := trace w ++ [e] |}.

(** [fs.writeFileSync(path, data, "utf-8")], seen from the next
    [readFileSync] of the path. *)
Definition writeFileSync (path data : jsstring) (w : World) : World :=
  {| files := <[path := data]> (files w);
     trace := trace w ++ [WriteFileSync path data] |}.

Definition marker : jsstring := js "defineOptions".

(** [defineLine]: the statement to inject. *)
Definition defineLine (name : jsstring) : jsstring :=
  js "defineOptions({ name: " ++ [dquote] ++ name ++ [dquote] ++ js " });".

(** [scriptContent] after the replacement or the insertion. *)
Definition mutateScript (h : Host) (name scriptContent : jsstring) : jsstring :=
  let defineLine := defineLine name in
  if includes marker scriptContent then
    Regex.replace defineRegex defineLine scriptContent
  else
    let insertPos :=
      match last (importDeclarationEnds h scriptContent) with
      | Some e => S e
      | None => 0
      end in
    match insertPos with
    | S _ =>
        slice_to insertPos scriptContent
        ++ [newline] ++ defineLine ++ [newline]
        ++ slice_from insertPos scriptContent
    | 0 => defineLine ++ [newline] ++ scriptContent
    end.

(** [newScript] *)
Definition newScript (attrs scriptContent : jsstring) : jsstring :=
  js "<script" ++ attrs ++ js ">" ++ [newline]
  ++ trim scriptContent ++ [newline] ++ js "</script>".

(** The block put in front of a file that has no script block. *)
Definition scriptSetup (name : jsstring) : jsstring :=
  js "<script setup>" ++ [newline] ++ defineLine name ++ [newline]
  ++ js "</script>" ++ [newline].

(** [newContent] for the text [content] of a component file; the boolean
    tells whether a script block was found. *)
Definition patchContent (h : Host) (name content : jsstring) : bool * jsstring :=
  match exec scriptRegex content with
  | Some m =>
      let attrs := nth 0 (groups m) [] in
      let scriptContent := nth 1 (groups m) [] in
      let oldBlock := matched m in
      let scriptContent' := mutateScript h name scriptContent in
      (true, JsString.replace oldBlock (newScript attrs scriptContent') content)
  | None => (false, scriptSetup name ++ content)
  end.

(** [excludeDirs.some(dir => relativePath.split("/").includes(dir))] *)
Definition isExcluded (excludeDirs : list jsstring) (relativePath : jsstring) : bool :=
  existsb (fun dir => arrayIncludes dir (split 47 relativePath)) excludeDirs.

Definition vueFilePath (h : Host) (viewsDir relativePath : jsstring) : jsstring :=
  path_join h viewsDir
    (if endsWith (js ".vue") relativePath then relativePath
     else relativePath ++ js ".vue").

(** The callback of [matchedRoutes.forEach]. *)
Definition processRoute (h : Host) (viewsDir : jsstring) (excludeDirs : list jsstring)
    (w : World) (route : RouteItem) : World :=
  if isExcluded excludeDirs (relativePath route) then
    emit (ConsoleLog (IgnoredComponent (relativePath route))) w
  else
    let path := vueFilePath h viewsDir (relativePath route) in
    let w := emit (ExistsSync path) w in
    match files w !! path with
    | None => emit (ConsoleWarn (FileNotFound path)) w
    | Some content =>
        let w := emit (ReadFileSync path) w in
        match patchContent h (name route) content with
        | (true, newContent) =>
            emit (ConsoleLog (Processed path)) (writeFileSync path newContent w)
        | (false, newContent) =>
            emit (ConsoleLog (ScriptSetupAdded path)) (writeFileSync path newContent w)
        end
    end.

(** ** The whole run *)

Record Config : Type := {
  viewsDir : jsstring;
  excludeDirs : list jsstring
}.

(** The matched routes of a route file, or the error the run stops with. *)
Definition matchedRoutes (sf : SourceFile) : Message + list RouteItem :=
  match getFirstDescendantByKind SyntaxKind.ExportAssignment (root sf) with
  | Some (ExportAssignment _ exportExpr) =>
      match resolveRouteArray sf exportExpr with
      | Some elements => inr (extractRoutes elements)
      | None => inl NotAnArrayExpression
      end
  | _ => inl NoExportDefault
  end.

(** [injectDefineOptions(config)], the route file of [config] given as
    parsed by [project.addSourceFileAtPath]. *)
Definition injectDefineOptions (h : Host) (config : Config) (sf : SourceFile)
    (w : World) : World :=
  match matchedRoutes sf with
  | inl err => emit (ConsoleError err) w
  | inr [] => emit (ConsoleWarn NoMatchedRoute) w
  | inr routes =>
      foldl (processRoute h (viewsDir config) (excludeDirs config)) w routes
  end.

(** ** UTF-8 *)

(** The component files are read with [fs.readFileSync(path, "utf-8")]
    and written with [fs.writeFileSync(path, text, "utf-8")]: the disk
    holds bytes, the program sees UTF-16 code units (below 65536). *)
Module Utf8.

(** U+FFFD, which stands for what cannot be converted. *)
Definition replacement : N := 65533.

Definition inRange (lo hi b : N) : bool := N.leb lo b && N.leb b hi.

Definition isHighSurrogate : N -> bool := inRange 55296 56319.
Definition isLowSurrogate : N -> bool := inRange 56320 57343.
Definition isContinuation : N -> bool := inRange 128 191.

(** The bytes of a code point. *)
Definition bytesOf (cp : N) : list N :=
  if N.ltb cp 128 then [cp]
  else if N.ltb cp 2048 then [192 + cp / 64; 128 + cp mod 64]%N
  else if N.ltb cp 65536 then
    [224 + cp / 4096; 128 + (cp / 64) mod 64; 128 + cp mod 64]%N
  else
    [240 + cp / 262144; 128 + (cp / 4096) mod 64; 128 + (cp / 64) mod 64;
     128 + cp mod 64]%N.

(** The code units of a code point. *)
Definition unitsOf (cp : N) : jsstring :=
  if N.ltb cp 65536 then [cp]
  else [55296 + (cp - 65536) / 1024; 56320 + (cp - 65536) mod 1024]%N.

(** The bytes written for a string: a surrogate pair is one code point of
    four bytes, a surrogate without its partner is written as U+FFFD. *)
Fixpoint encode (s : jsstring) : list N :=
  match s with
  | [] => []
  | c :: s' =>
      if isHighSurrogate c then
        match s' with
        | d :: s'' =>
            if isLowSurrogate d then
              bytesOf (65536 + (c - 55296) * 1024 + (d - 56320))%N ++ encode s''
            else bytesOf replacement ++ encode s'
        | [] => bytesOf replacement
        end
      else if isLowSurrogate c then bytesOf replacement ++ encode s'
      else bytesOf c ++ encode s'
  end.

(** The string read from bytes: the decoder of the Encoding Standard
    without removal of a byte order mark. A byte that cannot start a
    sequence, and a sequence cut short by a byte that cannot continue it
    or by the end of the file, give one U+FFFD; the byte that cut the
    sequence short is read again. *)
Fixpoint decode (bs : list N) : jsstring :=
  match bs with
  | [] => []
  | b0 :: r0 =>
      if N.ltb b0 128 then b0 :: decode r0
      else if inRange 194 223 b0 then
        match r0 with
        | b1 :: r1 =>
            if isContinuation b1 then
              ((b0 - 192) * 64 + (b1 - 128))%N :: decode r1
            else replacement :: decode r0
        | [] => [replacement]
        end
      else if inRange 224 239 b0 then
        let lower := if N.eqb b0 224 then 160%N else 128%N in
        let upper := if N.eqb b0 237 then 159%N else 191%N in
        match r0 with
        | b1 :: r1 =>
            if inRange lower upper b1 then
              match r1 with
              | b2 :: r2 =>
                  if isContinuation b2 then
                    ((b0 - 224) * 4096 + (b1 - 128) * 64 + (b2 - 128))%N
                    :: decode r2
                  else replacement :: decode r1
              | [] => [replacement]
              end
            else replacement :: decode r0
        | [] => [replacement]
        end
      else if inRange 240 244 b0 then
        let lower := if N.eqb b0 240 then 144%N else 128%N in
        let upper := if N.eqb b0 244 then 143%N else 191%N in
        match r0 with
        | b1 :: r1 =>
            if inRange lower upper b1 then
              match r1 with
              | b2 :: r2 =>
                  if isContinuation b2 then
                    match r2 with
                    | b3 :: r3 =>
                        if isContinuation b3 then
                          unitsOf ((b0 - 240) * 262144 + (b1 - 128) * 4096
                                   + (b2 - 128) * 64 + (b3 - 128))%N
                          ++ decode r3
                        else replacement :: decode r2
                    | [] => [replacement]
                    end
                  else replacement :: decode r1
              | [] => [replacement]
              end
            else replacement :: decode r0
        | [] => [replacement]
        end
      else replacement :: decode r0
  end.

(** The well-formed byte sequences of the Unicode Standard (table 3-7). *)
Fixpoint valid (bs : list N) : bool :=
  match bs with
  | [] => true
  | b0 :: r0 =>
      if N.ltb b0 128 then valid r0
      else if inRange 194 223 b0 then
        match r0 with
        | b1 :: r1 => isContinuation b1 && valid r1
        | [] => false
        end
      else if inRange 224 239 b0 then
        match r0 with
        | b1 :: b2 :: r2 =>
            inRange (if N.eqb b0 224 then 160 else 128)
                    (if N.eqb b0 237 then 159 else 191) b1
            && isContinuation b2 && valid r2
        | _ => false
        end
      else if inRange 240 244 b0 then
        match r0 with
        | b1 :: b2 :: b3 :: r3 =>
            inRange (if N.eqb b0 240 then 144 else 128)
                    (if N.eqb b0 244 then 143 else 191) b1
            && isContinuation b2 && isContinuation b3 && valid r3
        | _ => false
        end
      else false
  end.

(** The strings without a surrogate that is not part of a pair. *)
Fixpoint paired (s : jsstring) : bool :=
  match s with
  | [] => true
  | c :: s' =>
      if isHighSurrogate c then
        match s' with
        | d :: s'' => isLowSurrogate d && paired s''
        | [] => false
        end
      else negb (isLowSurrogate c) && N.ltb c 65536 && paired s'
  end.

End Utf8.

(** ** The run on the disk *)

(** The run of [processRoute] and [injectDefineOptions] above goes over the
    text of the component files; the run of this module goes over the disk
    itself: the files hold bytes, an entry may be a directory or a file
    the process may not read or write, and a call of [fs] that fails
    throws, which ends the run, since nothing catches it. *)
Module Disk.

(** What a path of the file system leads to: a regular file with its
    bytes and whether the process may read and write it, or a directory. *)
Inductive Entry : Type :=
| File (bytes : list N) (readable writable : bool)
| Directory.

(** The error codes of the calls that throw. *)
Inductive Errno : Type := ENOENT | EISDIR | EACCES.

(** How a call ends. *)
Inductive Completion : Type :=
| Returned
| Thrown (code : Errno) (path : jsstring).

(** The disk, and the events so far, oldest first. *)
Record Machine : Type := {
  entries : gmap jsstring Entry;
  events : list Event
}.

Definition emit (e : Event) (d : Machine) : Machine :=
  {| entries := entries d; events := events d ++ [e] |}.

(** [fs.existsSync(path)], true for a directory as well. *)
Definition existsSync (path : jsstring) (d : Machine) : bool :=
  bool_decide (is_Some (entries d !! path)).

(** [fs.readFileSync(path, "utf-8")]: the text of the file, or the error
    thrown. *)
Definition readFileSync (path : jsstring) (d : Machine) : Errno + jsstring :=
  match entries d !! path with
  | Some (File bytes true _) => inr (Utf8.decode bytes)
  | Some (File _ false _) => inl EACCES
  | Some Directory => inl EISDIR
  | None => inl ENOENT
  end.

(** [fs.writeFileSync(path, data, "utf-8")]: the file is opened for
    writing, which creates it when the path is free, and then holds the
    bytes of [data]. *)
Definition writeFileSync (path data : jsstring) (d : Machine) : Machine * Completion :=
  let d := emit (WriteFileSync path data) d in
  let store readable :=
    ({| entries := <[path := File (Utf8.encode data) readable true]> (entries d);
        events := events d |}, Returned) in
  match entries d !! path with
  | Some (File _ readable true) => store readable
  | Some (File _ _ false) => (d, Thrown EACCES path)
  | Some Directory => (d, Thrown EISDIR path)
  | None => store true
  end.

(** The callback of [matchedRoutes.forEach]. *)
Definition processRoute (h : Host) (viewsDir : jsstring) (excludeDirs : list jsstring)
    (d : Machine) (route : RouteItem) : Machine * Completion :=
  if isExcluded excludeDirs (relativePath route) then
    (emit (ConsoleLog (IgnoredComponent (relativePath route))) d, Returned)
  else
    let path := vueFilePath h viewsDir (relativePath route) in
    let d := emit (ExistsSync path) d in
    if existsSync path d then
      let d := emit (ReadFileSync path) d in
      match readFileSync path d with
      | inl code => (d, Thrown code path)
      | inr content =>
          let patched := patchContent h (name route) content in
          match writeFileSync path patched.2 d with
          | (d, Returned) =>
              (emit (ConsoleLog (if patched.1 then Processed path
                                 else ScriptSetupAdded path)) d, Returned)
          | thrown => thrown
          end
      end
    else (emit (ConsoleWarn (FileNotFound path)) d, Returned).

(** [array.forEach(callback)], which an exception of the callback leaves. *)
Fixpoint forEach {A : Type} (callback : Machine -> A -> Machine * Completion)
    (d : Machine) (array : list A) : Machine * Completion :=
  match array with
  | [] => (d, Returned)
  | x :: array' =>
      match callback d x with
      | (d', Returned) => forEach callback d' array'
      | thrown => thrown
      end
  end.

(** [injectDefineOptions(config)] *)
Definition injectDefineOptions (h : Host) (config : Config) (sf : SourceFile)
    (d : Machine) : Machine * Completion :=
  match matchedRoutes sf with
  | inl err => (emit (ConsoleError err) d, Returned)
  | inr [] => (emit (ConsoleWarn NoMatchedRoute) d, Returned)
  | inr routes =>
      forEach (processRoute h (viewsDir config) (excludeDirs config)) d routes
  end.

(** The disk on which the files of [w] are regular files that can be read
    and written and hold the UTF-8 of their text. *)
Definition ofText (w : World) : Machine :=
  {| entries := (fun text => File (Utf8.encode text) true true) <$> files w;
     events := trace w |}.

End Disk.

(** ** The scenario of the specification *)

Module Scenario.

(** [export default [{name:"UserList", component:()=>import("@/views/user/list.vue")},
    {name:"Bad", meta:{}}]] *)
Definition routeFile : SourceFile :=
  {| root :=
       Other 308 []
         [ExportAssignment false
            (ArrayLiteralExpression
               [ObjectLiteralExpression
                  [PropertyAssignment (Identifier (js "name")) (StringLiteral (js "UserList"));
                   PropertyAssignment (Identifier (js "component"))
                     (ArrowFunction []
                        (CallExpression ImportKeyword []
                           [StringLiteral (js "@/views/user/list.vue")]))];
                ObjectLiteralExpression
                  [PropertyAssignment (Identifier (js "name")) (StringLiteral (js "Bad"));
                   PropertyAssignment (Identifier (js "meta")) (ObjectLiteralExpression [])]])];
     getDefinitions := fun _ => [] |}.

(** The text between the script tags of [user/list.vue]. *)
Definition scriptText : jsstring :=
  [newline] ++ js "import {ref} from 'x';" ++ [newline].

Definition listVue : jsstring :=
  js "<script>" ++ scriptText ++ js "</script>".

Definition config : Config :=
  {| viewsDir := js "/app/src/views"; excludeDirs := [] |}.

(** [path.join] on segments that need no normalisation, and a parser that
    knows the one script of the scenario: its import declaration starts at
    offset 1 and ends, after the semicolon, at offset 23. *)
Definition host : Host :=
  {| path_join := fun dir rel => dir ++ js "/" ++ rel;
     importDeclarationEnds := fun text =>
       if bool_decide (text = scriptText) then [23] else [] |}.

Definition listVuePath : jsstring := js "/app/src/views/user/list.vue".

Definition disk : World :=
  {| files := {[ listVuePath := listVue ]}; trace := [] |}.

End Scenario.

(** ** Vocabulary of the properties *)

(** [p] occurs in [s]. *)
Definition occursIn (p s : jsstring) : Prop := exists a b, s = a ++ p ++ b.

(** The code units a star over the class [p] consumes, and what it leaves. *)
Fixpoint taken (p : N -> bool) (s : jsstring) : jsstring :=
  match s with
  | c :: s' => if p c then c :: taken p s' else []
  | [] => []
  end.

Fixpoint skip (p : N -> bool) (s : jsstring) : jsstring :=
  match s with
  | c :: s' => if p c then skip p s' else s
  | [] => []
  end.

(** [scriptRegex] read deterministically at the head of [s]: the rest of
    the input after the block, the attributes and the script content. *)
Definition script_at (s : jsstring) : option (jsstring * list jsstring) :=
  if startsWith (js "<script") s then
    let s1 := drop 7 s in
    match skip (notChar 62) s1 with
    | c :: s2 =>
        if N.eqb c 62 then
          match indexOf (js "</script>") s2 with
          | Some i => Some (drop (i + 9) s2, [taken (notChar 62) s1; take i s2])
          | None => None
          end
        else None
    | [] => None
    end
  else None.

(** A greedy star over the class [p] followed by the code unit [c], which
    is outside [p]: skip the class, then expect [c]. *)
Definition after (p : N -> bool) (c : N) (k : jsstring -> option jsstring)
    (s : jsstring) : option jsstring :=
  match skip p s with
  | x :: s' => if N.eqb x c then k s' else None
  | [] => None
  end.

(** The part of [defineRegex] that has to be there, up to the closing
    parenthesis, read deterministically at the head of [s]. *)
Definition define_core (s : jsstring) : option jsstring :=
  if startsWith marker s then
    after isWhiteSpace 40
      (after isWhiteSpace 123
         (after (notChar 125) 125
            (after isWhiteSpace 41 Some)))
      (drop 13 s)
  else None.

(** The optional end of [defineRegex]: white space and a semicolon. *)
Definition define_tail (s : jsstring) : jsstring :=
  match skip isWhiteSpace s with
  | c :: s' => if N.eqb c 59 then s' else c :: s'
  | [] => []
  end.

(** The second code unit of the four patterns [getSubstitution] expands. *)
Definition isSubstitutionChar (c : N) : bool :=
  (N.eqb c 36 || N.eqb c 38 || N.eqb c 96 || N.eqb c 39)%N.

(** No dollar sign of [t] starts a substitution pattern. *)
Fixpoint noPattern (t : jsstring) : bool :=
  match t with
  | [] => true
  | c :: t' =>
      (if N.eqb c 36 then
         match t' with
         | d :: _ => negb (isSubstitutionChar d)
         | [] => true
         end
       else true) && noPattern t'
  end.

(** [content] is [pre], then the first script block with attributes
    [attrs] and content [body], then [post]: no opening tag starts in
    [pre], [attrs] has no [>], and no closing tag starts in [body]. *)
Record ScriptSplit (content pre attrs body post : jsstring) : Prop := {
  split_eq :
    content = pre ++ js "<script" ++ attrs ++ [62%N] ++ body ++ js "</script>" ++ post;
  split_first :
    forall j, j < length pre -> startsWith (js "<script") (drop j pre ++ js "<script") = false;
  split_attrs : Forall (fun c => notChar 62 c = true) attrs;
  split_body :
    forall j, j < length body -> startsWith (js "</script>") (drop j body ++ js "</script>") = false
}.

(** The text of a script block. *)
Definition blockOf (attrs body : jsstring) : jsstring :=
  js "<script" ++ attrs ++ [62%N] ++ body ++ js "</script>".

(** A text that, like every match of [defineRegex] and like every
    [defineLine], starts with [d], has its first [}] followed by white
    space and [)]. *)
Definition isTail (T : jsstring) : Prop :=
  exists u w r,
    T = 100%N :: u ++ 125%N :: w ++ 41%N :: r /\
    Forall (fun c => notChar 125 c = true) u /\
    Forall (fun c => isWhiteSpace c = true) w.

(** No match of the obligatory part of [defineRegex] starts in [u], whatever
    such text follows [u]. *)
Definition quiet (u : jsstring) : Prop :=
  forall j T, j < length u -> isTail T -> define_core (drop j u ++ T) = None.

(** A continuation of the matcher that cannot tell two tails apart. *)
Definition tailBlind (k : jsstring -> option jsstring) : Prop :=
  forall x T1 T2, isTail T1 -> isTail T2 ->
    is_Some (k (x ++ T1)) -> is_Some (k (x ++ T2)).

(** A continuation that cannot tell trailing white space apart. *)
Definition spaceBlind (k : jsstring -> option jsstring) : Prop :=
  forall x w1 w2,
    Forall (fun c => isWhiteSpace c = true) w1 ->
    Forall (fun c => isWhiteSpace c = true) w2 ->
    is_Some (k (x ++ w1)) -> is_Some (k (x ++ w2)).

(** [u] and [v] are the two sides of a place of [body]: what is before it
    and what is after it, with the line break an insertion adds. *)
Definition cut (body u v : jsstring) : Prop :=
  exists a m b, body = a ++ m ++ b /\
    (u = a \/ u = a ++ [newline]) /\ (v = b \/ v = newline :: b).

Ltac not_in_literal :=
  let E := fresh in
  intros E;
  repeat (apply elem_of_cons in E as [E|E]; [discriminate|]);
  by apply elem_of_nil in E.

(** A name the patcher can find again: no [}], no [</script>] and no
    substitution pattern. *)
Definition cleanName (n : jsstring) : Prop :=
  Forall (fun c => notChar 125 c = true) n /\
  ~ occursIn (js "</script>") n /\
  noPattern n = true.

(** The first script block of the file, if any, has no substitution
    pattern. *)
Definition cleanFile (content : jsstring) : Prop :=
  forall m, exec scriptRegex content = Some m -> noPattern (matched m) = true.

(** Equations between concatenations, up to associativity. *)
Ltac assoc :=
  repeat (rewrite <- ?app_assoc; cbn [app]); try done.

(** [seg] is a whole segment of [path]: it has no slash, and there is
    nothing or a slash on either side of it. *)
Definition wholeSegment (seg path : jsstring) : Prop :=
  (47%N ∉ seg) /\
  exists before after, path = before ++ seg ++ after /\
    (before = [] \/ last before = Some 47%N) /\
    (after = [] \/ head after = Some 47%N).

(** The first segment, and the segments after a slash. *)
Definition firstSegment (seg path : jsstring) : Prop :=
  (47%N ∉ seg) /\
  exists after, path = seg ++ after /\ (after = [] \/ head after = Some 47%N).

Definition laterSegment (seg path : jsstring) : Prop :=
  (47%N ∉ seg) /\
  exists before after, path = before ++ seg ++ after /\
    last before = Some 47%N /\ (after = [] \/ head after = Some 47%N).

(** The import path the loop body reads from an element of the array,
    before the test on its prefix. *)
Definition importPathOfRoute (route : Node) : option jsstring :=
  match route with
  | ObjectLiteralExpression props =>
      compProp ← getProperty (js "component") props;
      arrowFn ← getFirstDescendantByKind SyntaxKind.ArrowFunction compProp;
      importCall ← findImportCall arrowFn;
      importPathOf importCall
  | _ => None
  end.

(** [d] is the first element of [l] with the property [P]. *)
Definition firstWhere {A : Type} (P : A -> Prop) (l : list A) (d : A) : Prop :=
  exists before after,
    l = before ++ d :: after /\ P d /\ Forall (fun x => ~ P x) before.

(** The first member of an object literal that has the name [x]. *)
Definition memberNamed (x : jsstring) (props : list Node) (member : Node) : Prop :=
  firstWhere (fun m => getName m = Some x) props member.

(** The first node of the kind [k] below [n], in document order. *)
Definition firstOfKind (k : SyntaxKind.t) (n d : Node) : Prop :=
  firstWhere (fun x => getKind x = k) (getDescendants n) d.

(** A call whose callee reads [import]. *)
Definition isImportCall (n : Node) : Prop :=
  exists callee targs args,
    n = CallExpression callee targs args /\ getText callee = js "import".

(** The first call of [import] below [fn], in document order, has the
    string literal [path] as its first argument. *)
Definition imports (fn : Node) (path : jsstring) : Prop :=
  exists callee targs rest,
    firstWhere isImportCall (getDescendants fn)
      (CallExpression callee targs (StringLiteral path :: rest)).

(** The element [route] of the array stands for the route [r], by steps 3
    to 8 of the extractor in the specification: it is an object literal;
    below its first member named [name] the first string literal is the
    name, which is not empty; below its first member named [component]
    there is an arrow function, and the first one imports
    [@/views/<relativePath>]. *)
Definition describes (route : Node) (r : RouteItem) : Prop :=
  exists props nameProp compProp arrowFn,
    route = ObjectLiteralExpression props /\
    memberNamed (js "name") props nameProp /\
    memberNamed (js "component") props compProp /\
    firstOfKind SyntaxKind.StringLiteral nameProp (StringLiteral (name r)) /\
    name r <> [] /\
    firstOfKind SyntaxKind.ArrowFunction compProp arrowFn /\
    imports arrowFn (viewsPrefix ++ relativePath r).

(** A descriptor as the specification words it: an object literal with a
    [name] string literal and a [component] arrow function that
    dynamically imports [@/views/<path>], whatever its parameters and its
    body are around the first call of [import]. *)
Definition wellFormed (route : Node) (nm path : jsstring) : Prop :=
  exists props params body,
    route = ObjectLiteralExpression props /\
    memberNamed (js "name") props
      (PropertyAssignment (Identifier (js "name")) (StringLiteral nm)) /\
    memberNamed (js "component") props
      (PropertyAssignment (Identifier (js "component")) (ArrowFunction params body)) /\
    imports (ArrowFunction params body) (viewsPrefix ++ path).

(** The text of a call of [defineOptions] as the replacement regex reads
    it: the name, a parenthesis around braces around anything without
    [}], with white space between them. *)
Definition isCall (call : jsstring) : Prop :=
  exists ws1 ws2 args ws3,
    call = marker ++ ws1 ++ js "(" ++ ws2 ++ js "{" ++ args ++ js "}"
           ++ ws3 ++ js ")" /\
    Forall (fun c => isWhiteSpace c = true) ws1 /\
    Forall (fun c => isWhiteSpace c = true) ws2 /\
    Forall (fun c => notChar 125 c = true) args /\
    Forall (fun c => isWhiteSpace c = true) ws3.


(** The texts of [w] are read back as they are written: they have no
    surrogate without its partner. *)
Definition textual (w : World) : Prop :=
  forall path text, files w !! path = Some text ->
                    Utf8.decode (Utf8.encode text) = text.

(** Comparisons of bytes and code units as propositions, and arithmetic
    with the divisions of the encoder. *)
Ltac unbool :=
  unfold Utf8.isHighSurrogate, Utf8.isLowSurrogate, Utf8.isContinuation,
    Utf8.inRange in *;
  repeat match goal with
  | H : (_ && _)%bool = true |- _ => apply andb_true_iff in H as [? ?]
  | H : (_ && _)%bool = false |- _ => apply andb_false_iff in H
  | H : N.leb _ _ = true |- _ => apply N.leb_le in H
  | H : N.leb _ _ = false |- _ => apply N.leb_gt in H
  | H : N.ltb _ _ = true |- _ => apply N.ltb_lt in H
  | H : N.ltb _ _ = false |- _ => apply N.ltb_ge in H
  | H : N.eqb _ _ = true |- _ => apply N.eqb_eq in H
  | H : N.eqb _ _ = false |- _ => apply N.eqb_neq in H
  end.

Ltac divlia := zify; Z.to_euclidean_division_equations; lia.

(** The three ways the specification resolves the exported expression to
    an array literal. *)
Definition isArrayShape (e : Node) (es : list Node) : Prop :=
  e = ArrayLiteralExpression es \/
  exists t, e = AsExpression (ArrayLiteralExpression es) t.

Definition resolvable (sf : SourceFile) (e : Node) (es : list Node) : Prop :=
  isArrayShape e es \/
  exists x nm ty init rest,
    e = Identifier x /\
    getDefinitions sf x = Some (VariableDeclaration nm ty (Some init)) :: rest /\
    isArrayShape init es.

(** The route is not excluded and its component file is [path]. *)
Definition targets (h : Host) (viewsDir : jsstring) (excludeDirs : list jsstring)
    (path : jsstring) (r : RouteItem) : bool :=
  negb (isExcluded excludeDirs (relativePath r))
  && bool_decide (vueFilePath h viewsDir (relativePath r) = path).

(** A console event. *)
Definition isConsole (e : Event) : bool :=
  match e with
  | ConsoleError _ | ConsoleWarn _ | ConsoleLog _ => true
  | _ => false
  end.

(** A code unit that is neither [}] nor one of [$], [&], [`], ['], the
    code units of the substitution patterns. *)
Definition isPlain (c : N) : bool :=
  negb (isSubstitutionChar c) && notChar 125 c.

(** ** Inputs of the examples *)

Module Examples.

(** [() => import("<path>")] *)
Definition lazyImport (path : jsstring) : Node :=
  ArrowFunction [] (CallExpression ImportKeyword [] [StringLiteral path]).

(** [{ name: "<nm>", component: () => import("<path>") }] *)
Definition descriptor (nm path : jsstring) : Node :=
  ObjectLiteralExpression
    [PropertyAssignment (Identifier (js "name")) (StringLiteral nm);
     PropertyAssignment (Identifier (js "component")) (lazyImport path)].

(** A module whose only statement is [export default <e>]. *)
Definition exporting (e : Node) : SourceFile :=
  {| root := Other 308 [] [ExportAssignment false e];
     getDefinitions := fun _ => [] |}.

(** [export default [{name:"Home", component:()=>import("@/views/")},
    {name:"Twice", component:()=>import("@/views/@/views/a")}]] *)
Definition prefixOnlyRouteFile : SourceFile :=
  exporting
    (ArrayLiteralExpression
       [descriptor (js "Home") (js "@/views/");
        descriptor (js "Twice") (js "@/views/@/views/a")]).

(** The descriptor of [@/views/a] whose [name] is the empty string. *)
Definition namelessDescriptor : Node := descriptor [] (js "@/views/a").

(** [export default 42] *)
Definition numberRouteFile : SourceFile := exporting (Other 9 (js "42") []).

(** A host whose parser finds no import declaration. *)
Definition plainHost : Host :=
  {| path_join := fun dir rel => dir ++ js "/" ++ rel;
     importDeclarationEnds := fun _ => [] |}.

Definition views : jsstring := js "/app/src/views".

(** A disk with the one file [/app/src/views/<rel>]. *)
Definition diskWith (rel content : jsstring) : World :=
  {| files := {[ views ++ js "/" ++ rel := content ]}; trace := [] |}.

Definition route (nm rel : jsstring) : RouteItem :=
  {| name := nm; relativePath := rel |}.

(** The file of the scenario as the specification expects it after the
    run, and as the run leaves it. *)
Definition listVueBySpec : jsstring :=
  js "<script>" ++ [newline] ++ js "import {ref} from 'x';" ++ [newline]
  ++ defineLine (js "UserList") ++ [newline] ++ js "</script>".

Definition listVuePatched : jsstring :=
  js "<script>" ++ [newline] ++ js "import {ref} from 'x';" ++ [newline]
  ++ [newline] ++ defineLine (js "UserList") ++ [newline] ++ js "</script>".


(** [{ name: "<nm>", component: () => { return import("<path>") } }] *)
Definition blockBodied (nm path : jsstring) : Node :=
  ObjectLiteralExpression
    [PropertyAssignment (Identifier (js "name")) (StringLiteral nm);
     PropertyAssignment (Identifier (js "component"))
       (ArrowFunction []
          (Other 241 (js "{ return import(...) }")
             [Other 253 (js "return import(...)")
                [CallExpression ImportKeyword [] [StringLiteral path]]]))].

(** [{ name: "<nm>", component: () => lazy(import("<path>")) }] *)
Definition wrappedImport (nm path : jsstring) : Node :=
  ObjectLiteralExpression
    [PropertyAssignment (Identifier (js "name")) (StringLiteral nm);
     PropertyAssignment (Identifier (js "component"))
       (ArrowFunction []
          (CallExpression (Identifier (js "lazy")) []
             [CallExpression ImportKeyword [] [StringLiteral path]]))].

(** [{ name() { return "<nm>" }, component: () => import("<path>") }] *)
Definition methodNamed (nm path : jsstring) : Node :=
  ObjectLiteralExpression
    [Member 174 (Identifier (js "name")) (js "name() { return ... }")
       [Other 241 (js "{ return ... }")
          [Other 253 (js "return ...") [StringLiteral nm]]];
     PropertyAssignment (Identifier (js "component")) (lazyImport path)].

(** A module whose only statement is [export = <e>]. *)
Definition exportEquals (e : Node) : SourceFile :=
  {| root := Other 308 [] [ExportAssignment true e];
     getDefinitions := fun _ => [] |}.

End Examples.

(** ** Strings: facts *)

Section StringFacts.
Implicit Types p s t : jsstring.

Lemma startsWith_iff p s : startsWith p s = true <-> exists t, s = p ++ t.
Proof.
  revert s; induction p as [|a p IH]; intros s; simpl.
  - split; eauto.
  - destruct s as [|b s]; simpl.
    + split; [discriminate | intros [t Ht]; discriminate].
    + rewrite andb_true_iff, N.eqb_eq, IH. split.
      * intros [-> [t ->]]. eauto.
      * intros [t Ht]. injection Ht as -> ->. eauto.
Qed.

Lemma startsWith_app p t : startsWith p (p ++ t) = true.
Proof. apply startsWith_iff; eauto. Qed.

Lemma startsWith_drop p s : startsWith p s = true -> s = p ++ drop (length p) s.
Proof.
  intros [t ->]%startsWith_iff. by rewrite drop_app_length.
Qed.

(** A prefix test on [x ++ c :: t] that succeeds either succeeds on [x]
    alone or reads [c]. *)
Lemma startsWith_reads p x c t :
  startsWith p (x ++ c :: t) = true -> startsWith p x = true \/ c ∈ p.
Proof.
  revert x; induction p as [|a p IH]; intros x; simpl; [by left|].
  destruct x as [|b x]; simpl.
  - rewrite andb_true_iff, N.eqb_eq. intros [-> _]. right. left.
  - rewrite !andb_true_iff. intros [Hab H]. destruct (IH _ H) as [H'|H'].
    + left. by rewrite Hab.
    + right. by right.
Qed.

Lemma indexOf_Some p s i :
  indexOf p s = Some i <->
  startsWith p (drop i s) = true /\ forall j, j < i -> startsWith p (drop j s) = false.
Proof.
  revert i; induction s as [|c s IH]; intros i.
  - simpl. destruct (startsWith p []) eqn:E.
    + split.
      * intros [= <-]. split; [done | lia].
      * intros [_ H]. destruct i; [done|]. specialize (H 0 ltac:(lia)).
        simpl in H. congruence.
    + split; [discriminate|]. intros [H _]. rewrite drop_nil in H. congruence.
  - cbn [indexOf]. destruct (startsWith p (c :: s)) eqn:E.
    + split.
      * intros [= <-]. split; [done | lia].
      * intros [_ H]. destruct i; [done|]. specialize (H 0 ltac:(lia)).
        simpl in H. congruence.
    + destruct i as [|i].
      * split.
        -- destruct (indexOf p s); discriminate.
        -- intros [H _]. simpl in H. congruence.
      * transitivity (indexOf p s = Some i).
        { destruct (indexOf p s); simpl; split; congruence. }
        rewrite IH. simpl. split; intros [H1 H2]; (split; [done|]).
        -- intros [|j] Hj; [done|]. apply H2. lia.
        -- intros j Hj. apply (H2 (S j)). lia.
Qed.

Lemma indexOf_None p s :
  indexOf p s = None <-> forall j, startsWith p (drop j s) = false.
Proof.
  induction s as [|c s IH].
  - simpl. destruct (startsWith p []) eqn:E.
    + split; [discriminate|]. intros H. specialize (H 0). simpl in H. congruence.
    + split; [|done]. intros _ j. by rewrite drop_nil.
  - cbn [indexOf]. destruct (startsWith p (c :: s)) eqn:E.
    + split; [discriminate|]. intros H. specialize (H 0). simpl in H. congruence.
    + transitivity (indexOf p s = None).
      { destruct (indexOf p s); simpl; split; congruence. }
      rewrite IH. split.
      * intros H [|j]; [done|]. apply H.
      * intros H j. apply (H (S j)).
Qed.

Lemma indexOf_app_Some a p b :
  (forall j, j < length a -> startsWith p (drop j (a ++ p ++ b)) = false) ->
  indexOf p (a ++ p ++ b) = Some (length a).
Proof.
  intros H. apply indexOf_Some. split; [|done].
  rewrite drop_app_length. apply startsWith_app.
Qed.

Lemma includes_iff p s : includes p s = true <-> occursIn p s.
Proof.
  unfold includes, occursIn. destruct (indexOf p s) as [i|] eqn:E.
  - split; [intros _|done]. apply indexOf_Some in E as [H _].
    apply startsWith_iff in H as [t Ht]. exists (take i s), t.
    by rewrite <- Ht, take_drop.
  - split; [discriminate|]. intros (a & b & ->).
    rewrite indexOf_None in E. specialize (E (length a)).
    rewrite drop_app_length, startsWith_app in E. discriminate.
Qed.

Lemma includes_false p s : includes p s = false <-> ~ occursIn p s.
Proof. rewrite <- includes_iff. by destruct (includes p s). Qed.

Lemma occursIn_at p s j : startsWith p (drop j s) = true -> occursIn p s.
Proof.
  intros [t Ht]%startsWith_iff. exists (take j s), t.
  by rewrite <- Ht, take_drop.
Qed.
End StringFacts.

(** ** Regular expressions: facts *)

Section RegexFacts.
Implicit Types s t : jsstring.

Lemma taken_skip p s : taken p s ++ skip p s = s.
Proof. induction s as [|c s IH]; simpl; [done|]. destruct (p c); simpl; congruence. Qed.

Lemma skip_head p s c t : skip p s = c :: t -> p c = false.
Proof.
  induction s as [|x s IH]; simpl; [done|].
  destruct (p x) eqn:E; [done|]. by intros [= <- _].
Qed.

Lemma taken_length p s : length s - length (skip p s) = length (taken p s).
Proof.
  rewrite <- (taken_skip p s) at 1. rewrite length_app. lia.
Qed.

Lemma take_taken p s : take (length s - length (skip p s)) s = taken p s.
Proof.
  rewrite taken_length. rewrite <- (taken_skip p s) at 2.
  by rewrite take_app_length.
Qed.

(** A greedy star gives nothing back when what follows it cannot start
    with a code unit of its class. *)
Lemma star_greedy_det {A} p s (k : jsstring -> option A) :
  (forall c t, p c = true -> k (c :: t) = None) ->
  star_greedy p s k = k (skip p s).
Proof.
  intros Hk. induction s as [|c s IH]; simpl; [done|].
  destruct (p c) eqn:E; [|done].
  rewrite IH. destruct (k (skip p s)) eqn:E'; [done|]. by apply Hk.
Qed.

(** Nor when what follows it always succeeds. *)
Lemma star_greedy_total {A} p s (k : jsstring -> option A) :
  (forall t, is_Some (k t)) ->
  star_greedy p s k = k (skip p s).
Proof.
  intros Hk. induction s as [|c s IH]; simpl; [done|].
  destruct (p c) eqn:E; [|done].
  rewrite IH. by destruct (Hk (skip p s)) as [x ->].
Qed.

(** A lazy star over every code unit followed by a literal stops at the
    first occurrence of the literal. *)
Lemma star_lazy_literal {A} l s (k : jsstring -> option A) :
  (forall t, startsWith l t = true -> is_Some (k t)) ->
  (forall t, startsWith l t = false -> k t = None) ->
  star_lazy anyChar s k =
    match indexOf l s with
    | Some i => k (drop i s)
    | None => None
    end.
Proof.
  intros Hyes Hno. induction s as [|c s IH].
  - simpl. destruct (startsWith l []) eqn:E.
    + rewrite drop_0. by destruct (Hyes _ E) as [x ->].
    + by rewrite (Hno _ E).
  - cbn [star_lazy indexOf]. destruct (startsWith l (c :: s)) eqn:E.
    + rewrite drop_0. by destruct (Hyes _ E) as [x ->].
    + rewrite (Hno _ E). unfold anyChar at 1. rewrite IH.
      by destruct (indexOf l s).
Qed.

Lemma rmatch_str {A} l r s caps (k : jsstring -> list jsstring -> option A) :
  rmatch (Cat (Str l) r) s caps k =
    if startsWith l s then rmatch r (drop (length l) s) caps k else None.
Proof. reflexivity. Qed.

Lemma expect_char {A} c s (k : jsstring -> option A) :
  (if startsWith [c] s then k (drop 1 s) else None) =
    match s with
    | x :: s' => if N.eqb x c then k s' else None
    | [] => None
    end.
Proof.
  destruct s as [|x s']; simpl; [done|].
  rewrite andb_true_r, N.eqb_sym. done.
Qed.

(** A greedy star followed by a code unit outside its class. *)
Lemma rmatch_star_char {A} p c r s caps (k : jsstring -> list jsstring -> option A) :
  p c = false ->
  rmatch (Cat (Star p) (Cat (Str [c]) r)) s caps k =
    match skip p s with
    | x :: s' => if N.eqb x c then rmatch r s' caps k else None
    | [] => None
    end.
Proof.
  intros Hc. cbn [rmatch]. rewrite star_greedy_det.
  - apply (expect_char c (skip p s) (fun s' => rmatch r s' caps k)).
  - intros x t Hx. simpl. destruct (N.eqb_spec c x) as [->|]; [congruence|done].
Qed.

Lemma rmatch_grp_star_char {A} p c r s caps (k : jsstring -> list jsstring -> option A) :
  p c = false ->
  rmatch (Cat (Grp (Star p)) (Cat (Str [c]) r)) s caps k =
    match skip p s with
    | x :: s' => if N.eqb x c then rmatch r s' (caps ++ [taken p s]) k else None
    | [] => None
    end.
Proof.
  intros Hc. cbn [rmatch]. rewrite star_greedy_det.
  - rewrite take_taken.
    apply (expect_char c (skip p s) (fun s' => rmatch r s' (caps ++ [taken p s]) k)).
  - intros x t Hx. simpl. destruct (N.eqb_spec c x) as [->|]; [congruence|done].
Qed.

(** A lazy group over every code unit that ends the regex with a literal. *)
Lemma rmatch_grp_lazy_str l s caps :
  rmatch (Cat (Grp (StarLazy anyChar)) (Str l)) s caps
    (fun rest caps' => Some (rest, caps')) =
    match indexOf l s with
    | Some i => Some (drop (i + length l) s, caps ++ [take i s])
    | None => None
    end.
Proof.
  cbn [rmatch]. rewrite (star_lazy_literal l).
  - destruct (indexOf l s) as [i|] eqn:Ei; [|done].
    apply indexOf_Some in Ei as [Hi _]. rewrite Hi.
    rewrite drop_drop, length_drop.
    assert (i <= length s \/ l = []) as [Hle| ->].
    { destruct (decide (i <= length s)); [by left|right].
      rewrite drop_ge in Hi by lia. by destruct l. }
    + by replace (length s - (length s - i)) with i by lia.
    + destruct (decide (i <= length s)).
      * by replace (length s - (length s - i)) with i by lia.
      * by rewrite !take_ge by lia.
  - intros t Ht. rewrite Ht. eauto.
  - intros t Ht. by rewrite Ht.
Qed.

(** A greedy star and an optional code unit that end the regex. *)
Lemma rmatch_star_opt p c s caps :
  rmatch (Cat (Star p) (Opt (Str [c]))) s caps
    (fun rest caps' => Some (rest, caps')) =
    Some (match skip p s with
          | x :: s' => if N.eqb x c then s' else x :: s'
          | [] => []
          end, caps).
Proof.
  cbn [rmatch]. rewrite star_greedy_total.
  - pose proof (expect_char c (skip p s) (fun s' => Some (s', caps))) as H.
    simpl in H. simpl. rewrite H.
    destruct (skip p s) as [|x s']; [done|]. by destruct (N.eqb x c).
  - intros t. destruct (startsWith [c] t); eauto.
Qed.

Lemma match_script_at s : match_here scriptRegex s = script_at s.
Proof.
  unfold match_here, scriptRegex, script_at.
  rewrite rmatch_str. destruct (startsWith (js "<script") s); [|done].
  change (length (js "<script")) with 7.
  change (js ">") with [62%N].
  rewrite rmatch_grp_star_char by (unfold notChar; by rewrite N.eqb_refl).
  destruct (skip (notChar 62) (drop 7 s)) as [|c s2]; [done|].
  destruct (N.eqb c 62); [|done].
  rewrite rmatch_grp_lazy_str. done.
Qed.

Lemma match_define_at s :
  match_here defineRegex s = (fun rest => (define_tail rest, [])) <$> define_core s.
Proof.
  unfold match_here, defineRegex, define_core, after.
  rewrite rmatch_str. fold marker. destruct (startsWith marker s); [|done].
  change (length marker) with 13.
  change (js "(") with [40%N]. change (js "{") with [123%N].
  change (js "}") with [125%N]. change (js ")") with [41%N].
  change (js ";") with [59%N].
  rewrite rmatch_star_char by done.
  destruct (skip isWhiteSpace (drop 13 s)) as [|c1 s1]; [done|].
  destruct (N.eqb c1 40); [|done].
  rewrite rmatch_star_char by done.
  destruct (skip isWhiteSpace s1) as [|c2 s2]; [done|].
  destruct (N.eqb c2 123); [|done].
  rewrite rmatch_star_char by (unfold notChar; by rewrite N.eqb_refl).
  destruct (skip (notChar 125) s2) as [|c3 s3]; [done|].
  destruct (N.eqb c3 125); [|done].
  rewrite rmatch_star_char by done.
  destruct (skip isWhiteSpace s3) as [|c4 s4]; [done|].
  destruct (N.eqb c4 41); [|done].
  rewrite rmatch_star_opt. done.
Qed.

Lemma exec_from_Some r i s m :
  exec_from r i s = Some m <->
  exists j rest caps,
    j <= length s /\
    match_here r (drop j s) = Some (rest, caps) /\
    (forall j', j' < j -> match_here r (drop j' s) = None) /\
    m = {| index := i + j;
           matched := take (length (drop j s) - length rest) (drop j s);
           groups := caps |}.
Proof.
  revert i; induction s as [|c s IH]; intros i.
  - simpl. destruct (match_here r []) as [[rest caps]|] eqn:E.
    + split.
      * intros [= <-]. exists 0, rest, caps. rewrite Nat.add_0_r.
        repeat split; [done|done|lia].
      * intros (j & rest' & caps' & Hj & Hm & _ & ->).
        rewrite drop_nil in Hm. simpl in Hj.
        assert (j = 0) as -> by lia. rewrite Nat.add_0_r. simpl.
        congruence.
    + split; [discriminate|]. intros (j & rest' & caps' & _ & Hm & _).
      rewrite drop_nil in Hm. congruence.
  - cbn [exec_from]. destruct (match_here r (c :: s)) as [[rest caps]|] eqn:E.
    + split.
      * intros [= <-]. exists 0, rest, caps. rewrite Nat.add_0_r.
        repeat split; [simpl; lia|done|lia].
      * intros (j & rest' & caps' & Hj & Hm & Hmin & ->).
        destruct j as [|j].
        -- simpl in Hm. rewrite Nat.add_0_r. simpl drop. congruence.
        -- specialize (Hmin 0 ltac:(lia)). simpl in Hmin. congruence.
    + rewrite IH. split.
      * intros (j & rest & caps & Hj & Hm & Hmin & ->).
        exists (S j), rest, caps. simpl. repeat split; [lia|done| |f_equal; lia].
        intros [|j'] Hj'; [done|]. apply Hmin. lia.
      * intros (j & rest & caps & Hj & Hm & Hmin & ->).
        destruct j as [|j]; [simpl in Hm; congruence|].
        exists j, rest, caps. simpl in *. repeat split; [lia|done| |f_equal; lia].
        intros j' Hj'. apply (Hmin (S j')). lia.
Qed.

Lemma exec_from_None r i s :
  exec_from r i s = None <-> forall j, match_here r (drop j s) = None.
Proof.
  revert i; induction s as [|c s IH]; intros i.
  - simpl. destruct (match_here r []) as [[rest caps]|] eqn:E.
    + split; [discriminate|]. intros H. specialize (H 0). simpl in H. congruence.
    + split; [|done]. intros _ j. by rewrite drop_nil.
  - cbn [exec_from]. destruct (match_here r (c :: s)) as [[rest caps]|] eqn:E.
    + split; [discriminate|]. intros H. specialize (H 0). simpl in H. congruence.
    + rewrite IH. split.
      * intros H [|j]; [done|]. apply H.
      * intros H j. apply (H (S j)).
Qed.
End RegexFacts.

(** ** The first script block of a file *)

Section ScriptBlock.
Implicit Types content pre attrs body post s t : jsstring.

Lemma startsWith_app_long p u v :
  length p <= length u -> startsWith p (u ++ v) = startsWith p u.
Proof.
  revert u; induction p as [|a p IH]; intros u Hlen; [done|].
  destruct u as [|b u]; simpl in *; [lia|].
  rewrite IH by lia. done.
Qed.

Lemma startsWith_length p s : startsWith p s = true -> length p <= length s.
Proof. intros [t ->]%startsWith_iff. rewrite length_app. lia. Qed.

Lemma skip_all p z c t :
  Forall (fun x => p x = true) z -> p c = false ->
  skip p (z ++ c :: t) = c :: t /\ taken p (z ++ c :: t) = z.
Proof.
  intros Hz Hc. induction Hz as [|x z Hx Hz IH]; simpl.
  - by rewrite Hc.
  - rewrite Hx. destruct IH as [-> ->]. done.
Qed.

Lemma skip_stops p z c t :
  p c = false -> exists x z2, skip p (z ++ c :: t) = x :: z2 ++ t /\ p x = false.
Proof.
  intros Hc. induction z as [|a z IH]; simpl.
  - rewrite Hc. by exists c, [].
  - destruct (p a) eqn:Ea; [done|].
    exists a, (z ++ [c]). by rewrite <- app_assoc.
Qed.

Lemma taken_all p s : Forall (fun x => p x = true) (taken p s).
Proof.
  induction s as [|c s IH]; simpl; [constructor|].
  destruct (p c) eqn:E; by constructor.
Qed.

Lemma occursIn_app_r p a s : occursIn p s -> occursIn p (a ++ s).
Proof. intros (x & y & ->). exists (a ++ x), y. by rewrite <- app_assoc. Qed.

Lemma occursIn_app_l p s b : occursIn p s -> occursIn p (s ++ b).
Proof. intros (x & y & ->). exists x, (y ++ b). by rewrite <- !app_assoc. Qed.

Lemma occursIn_indexOf p s : occursIn p s -> is_Some (indexOf p s).
Proof.
  intros H%includes_iff. unfold includes in H.
  destruct (indexOf p s); [eauto | discriminate].
Qed.

Lemma script_at_block attrs body post :
  Forall (fun c => notChar 62 c = true) attrs ->
  (forall j, j < length body ->
     startsWith (js "</script>") (drop j body ++ js "</script>") = false) ->
  script_at (blockOf attrs body ++ post) = Some (post, [attrs; body]).
Proof.
  intros Ha Hb. unfold script_at, blockOf.
  rewrite <- !app_assoc. rewrite startsWith_app.
  rewrite drop_app_length' by done.
  destruct (skip_all (notChar 62) attrs 62%N (body ++ js "</script>" ++ post) Ha)
    as [E1 E2]; [done|].
  cbn [app]. rewrite E1, E2. rewrite N.eqb_refl.
  assert (indexOf (js "</script>") (body ++ js "</script>" ++ post) = Some (length body)) as ->.
  { apply indexOf_app_Some. intros j Hj.
    rewrite drop_app_le by lia. rewrite app_assoc.
    rewrite startsWith_app_long; [by apply Hb|].
    rewrite length_app. lia. }
  rewrite take_app_length.
  rewrite drop_app_add, drop_app_length' by done. done.
Qed.

Lemma exec_script_intro content pre attrs body post :
  ScriptSplit content pre attrs body post ->
  exec scriptRegex content =
    Some {| index := length pre; matched := blockOf attrs body; groups := [attrs; body] |}.
Proof.
  intros [Heq Hfirst Ha Hb]. unfold exec. apply exec_from_Some.
  exists (length pre), post, [attrs; body].
  assert (content = pre ++ blockOf attrs body ++ post) as Hc.
  { unfold blockOf. by rewrite <- !app_assoc. }
  split; [rewrite Hc, length_app; lia|].
  assert (drop (length pre) content = blockOf attrs body ++ post) as Hd.
  { rewrite Hc. apply drop_app_length. }
  rewrite !Hd.
  rewrite match_script_at, script_at_block by done.
  split; [done|]. split.
  - intros j Hj. rewrite match_script_at. unfold script_at.
    rewrite Heq. rewrite drop_app_le by lia. rewrite app_assoc.
    rewrite startsWith_app_long; [by rewrite Hfirst|].
    rewrite length_app. lia.
  - f_equal. rewrite length_app.
    replace (length (blockOf attrs body) + length post - length post)
      with (length (blockOf attrs body)) by lia.
    by rewrite take_app_length.
Qed.

Lemma exec_script_inv content m :
  exec scriptRegex content = Some m ->
  exists pre attrs body post,
    ScriptSplit content pre attrs body post /\
    m = {| index := length pre; matched := blockOf attrs body; groups := [attrs; body] |}.
Proof.
  unfold exec. intros (j & rest & caps & Hj & Hm & Hmin & ->)%exec_from_Some.
  rewrite match_script_at in Hm. unfold script_at in Hm.
  destruct (startsWith (js "<script") (drop j content)) eqn:Hopen; [|done].
  apply startsWith_drop in Hopen. rewrite drop_drop in Hopen.
  change (length (js "<script")) with 7 in Hopen.
  pose proof (taken_skip (notChar 62) (drop (j + 7) content)) as Hts.
  pose proof (taken_all (notChar 62) (drop (j + 7) content)) as Hta.
  rewrite drop_drop in Hm.
  destruct (skip (notChar 62) (drop (j + 7) content)) as [|c s2] eqn:Hskip; [done|].
  destruct (N.eqb_spec c 62) as [->|]; [|done].
  destruct (indexOf (js "</script>") s2) as [i|] eqn:Hi; [|done].
  injection Hm as <- <-.
  apply indexOf_Some in Hi as [Hi1 Hi2].
  apply startsWith_drop in Hi1. rewrite drop_drop in Hi1.
  change (length (js "</script>")) with 9 in Hi1.
  set (attrs := taken (notChar 62) (drop (j + 7) content)) in *.
  assert (s2 = take i s2 ++ js "</script>" ++ drop (i + 9) s2) as Hs2.
  { rewrite <- Hi1. by rewrite take_drop. }
  assert (i <= length s2) as Hile.
  { destruct (decide (i <= length s2)); [done|].
    rewrite (drop_ge s2 (i + 9)), (take_ge s2 i) in Hs2 by lia.
    apply (f_equal length) in Hs2. rewrite !length_app in Hs2.
    change (length (js "</script>")) with 9 in Hs2. lia. }
  assert (content = take j content ++ js "<script" ++ attrs ++ [62%N]
                    ++ take i s2 ++ js "</script>" ++ drop (i + 9) s2) as Heq.
  { rewrite <- (take_drop j content) at 1. f_equal. rewrite Hopen. f_equal.
    rewrite <- Hts. f_equal. cbn [app]. f_equal. done. }
  assert (length (take j content) = j) as Hlen by (rewrite length_take; lia).
  exists (take j content), attrs, (take i s2), (drop (i + 9) s2).
  split.
  - split; [done| |done|].
    + rewrite Hlen. intros j' Hj'.
      destruct (startsWith (js "<script") (drop j' (take j content) ++ js "<script"))
        eqn:E; [|done]. exfalso.
      specialize (Hmin j' Hj'). rewrite match_script_at in Hmin.
      unfold script_at in Hmin.
      assert (drop j' content = drop j' (take j content) ++ js "<script"
                ++ attrs ++ 62%N :: s2) as Hd.
      { rewrite Heq at 1. rewrite drop_app_le by lia. do 3 f_equal.
        cbn [app]. f_equal. done. }
      assert (length (drop j' (take j content)) >= 1) as Hy.
      { rewrite length_drop. lia. }
      rewrite Hd in Hmin. rewrite app_assoc in Hmin.
      rewrite startsWith_app_long in Hmin by (rewrite length_app; lia).
      rewrite E in Hmin. rewrite app_assoc in Hmin.
      rewrite drop_app_le in Hmin.
      2:{ rewrite !length_app. change (length (js "<script")) with 7. lia. }
      destruct (skip_stops (notChar 62)
                  (drop 7 ((drop j' (take j content) ++ js "<script") ++ attrs))
                  62%N s2 eq_refl) as (x & z2 & Hsk & Hx).
      rewrite Hsk in Hmin.
      unfold notChar in Hx. apply negb_false_iff in Hx. rewrite Hx in Hmin.
      assert (is_Some (indexOf (js "</script>") (z2 ++ s2))) as [i' Hi'].
      { apply occursIn_indexOf, occursIn_app_r. rewrite Hs2.
        by exists (take i s2), (drop (i + 9) s2). }
      rewrite Hi' in Hmin. discriminate.
    + rewrite length_take. intros j' Hj'.
      specialize (Hi2 j' ltac:(lia)).
      rewrite Hs2 in Hi2. rewrite drop_app_le in Hi2 by (rewrite length_take; lia).
      rewrite app_assoc in Hi2.
      rewrite startsWith_app_long in Hi2; [done|].
      rewrite length_app. lia.
  - rewrite Hlen. change (0 + j) with j. f_equal.
    assert (drop j content = blockOf attrs (take i s2) ++ drop (i + 9) s2) as Hd.
    { rewrite Heq at 1. rewrite drop_app_length' by done.
      unfold blockOf. by rewrite <- !app_assoc. }
    rewrite Hd, length_app.
    replace (length (blockOf attrs (take i s2)) + length (drop (i + 9) s2)
             - length (drop (i + 9) s2))
      with (length (blockOf attrs (take i s2))) by lia.
    apply take_app_length.
Qed.

Lemma exec_script_None content :
  ~ occursIn (js "<script") content -> exec scriptRegex content = None.
Proof.
  intros H. unfold exec. apply exec_from_None. intros j.
  rewrite match_script_at. unfold script_at.
  destruct (startsWith (js "<script") (drop j content)) eqn:E; [|done].
  exfalso. apply H. by apply (occursIn_at _ _ j).
Qed.
End ScriptBlock.

(** ** Replacing the block *)

Section Patch.
Implicit Types content pre attrs body post s t : jsstring.

Lemma noPattern_getSubstitution m b a t :
  noPattern t = true -> getSubstitution m b a t = t.
Proof.
  induction t as [|c t IH]; [done|].
  cbn [noPattern getSubstitution]. intros [H1 H2]%andb_true_iff.
  rewrite (IH H2). destruct (N.eqb c 36); [|done].
  destruct t as [|d t']; [done|].
  unfold isSubstitutionChar in H1. apply negb_true_iff in H1.
  rewrite !orb_false_iff in H1. destruct H1 as [[[-> ->] ->] ->]. done.
Qed.

Lemma startsWith_app_inv p q s : startsWith (p ++ q) s = true -> startsWith p s = true.
Proof.
  intros [t ->]%startsWith_iff. rewrite <- app_assoc. apply startsWith_app.
Qed.

(** The text of the matched block first occurs where the regex matched. *)
Lemma indexOf_block content pre attrs body post :
  ScriptSplit content pre attrs body post ->
  indexOf (blockOf attrs body) content = Some (length pre).
Proof.
  intros [Heq Hfirst Ha Hb].
  assert (content = pre ++ blockOf attrs body ++ post) as Hc.
  { unfold blockOf. by rewrite <- !app_assoc. }
  rewrite Hc. apply indexOf_app_Some. intros j Hj.
  destruct (startsWith _ _) eqn:E; [|done].
  unfold blockOf in E at 1. apply startsWith_app_inv in E.
  rewrite drop_app_le in E by lia. unfold blockOf in E.
  rewrite <- app_assoc, app_assoc in E.
  rewrite startsWith_app_long in E by (rewrite length_app; lia).
  by rewrite Hfirst in E.
Qed.

Lemma replace_block content pre attrs body post replacement :
  ScriptSplit content pre attrs body post ->
  JsString.replace (blockOf attrs body) replacement content =
    pre ++ getSubstitution (blockOf attrs body) pre post replacement ++ post.
Proof.
  intros Hs. unfold JsString.replace. rewrite (indexOf_block _ _ _ _ _ Hs).
  destruct Hs as [Heq _ _ _].
  assert (content = pre ++ blockOf attrs body ++ post) as Hc.
  { unfold blockOf. by rewrite <- !app_assoc. }
  rewrite Hc. rewrite take_app_length.
  by rewrite drop_app_add, drop_app_length.
Qed.

Lemma patchContent_script h name content pre attrs body post :
  ScriptSplit content pre attrs body post ->
  patchContent h name content =
    (true, pre ++ getSubstitution (blockOf attrs body) pre post
                    (newScript attrs (mutateScript h name body)) ++ post).
Proof.
  intros Hs. unfold patchContent.
  rewrite (exec_script_intro _ _ _ _ _ Hs). cbn [groups matched nth].
  by rewrite (replace_block _ _ _ _ _ _ Hs).
Qed.

Lemma patchContent_noscript h name content :
  exec scriptRegex content = None ->
  patchContent h name content = (false, scriptSetup name ++ content).
Proof. intros H. unfold patchContent. by rewrite H. Qed.

Lemma newScript_block attrs s :
  newScript attrs s = blockOf attrs ([newline] ++ trim s ++ [newline]).
Proof. unfold newScript, blockOf. by rewrite <- !app_assoc. Qed.

Lemma mutateScript_nomatch h name body :
  includes marker body = true -> exec defineRegex body = None ->
  mutateScript h name body = body.
Proof.
  intros Hi He. unfold mutateScript. rewrite Hi. unfold Regex.replace. by rewrite He.
Qed.
End Patch.

(** ** White space and [trim] *)

Section Trim.
Implicit Types s t u v : jsstring.

Lemma trimStart_skip s : trimStart s = skip isWhiteSpace s.
Proof. induction s as [|c s IH]; simpl; [done|]. by rewrite IH. Qed.

Lemma skip_app_stop p u c t :
  p c = false -> skip p (u ++ c :: t) = skip p u ++ c :: t.
Proof.
  intros Hc. induction u as [|a u IH]; simpl.
  - by rewrite Hc.
  - destruct (p a); [done|done].
Qed.

Lemma skip_idem p s : skip p (skip p s) = skip p s.
Proof.
  induction s as [|c s IH]; simpl; [done|].
  destruct (p c) eqn:E; [done|]. simpl. by rewrite E.
Qed.

Lemma trimStart_app_stop u c t :
  isWhiteSpace c = false -> trimStart (u ++ c :: t) = trimStart u ++ c :: t.
Proof. intros Hc. rewrite !trimStart_skip. by apply skip_app_stop. Qed.

Lemma trimEnd_app_stop t c v :
  isWhiteSpace c = false -> trimEnd (t ++ c :: v) = t ++ c :: trimEnd v.
Proof.
  intros Hc. unfold trimEnd. rewrite !trimStart_skip.
  rewrite rev_app_distr. simpl rev. rewrite <- app_assoc. simpl app.
  rewrite skip_app_stop by done.
  rewrite rev_app_distr. simpl rev. rewrite rev_involutive, <- app_assoc. done.
Qed.

Lemma trimEnd_snoc_space s c :
  isWhiteSpace c = true -> trimEnd (s ++ [c]) = trimEnd s.
Proof.
  intros Hc. unfold trimEnd. rewrite rev_app_distr. simpl. by rewrite Hc.
Qed.

Lemma trimEnd_idem s : trimEnd (trimEnd s) = trimEnd s.
Proof.
  unfold trimEnd. rewrite rev_involutive, !trimStart_skip. by rewrite skip_idem.
Qed.

Lemma trimStart_idem s : trimStart (trimStart s) = trimStart s.
Proof. rewrite !trimStart_skip. apply skip_idem. Qed.

Lemma trimStart_cons_space s c :
  isWhiteSpace c = true -> trimStart (c :: s) = trimStart s.
Proof. intros Hc. simpl. by rewrite Hc. Qed.

(** [trim] around a text that neither starts nor ends with white space. *)
Lemma trim_around u c d e v :
  isWhiteSpace c = false -> isWhiteSpace e = false ->
  trim (u ++ (c :: d ++ [e]) ++ v) = trimStart u ++ (c :: d ++ [e]) ++ trimEnd v.
Proof.
  intros Hc He. unfold trim. cbn [app].
  rewrite trimStart_app_stop by done.
  replace (trimStart u ++ c :: (d ++ [e]) ++ v)
    with ((trimStart u ++ c :: d) ++ e :: v).
  2:{ assoc. }
  rewrite trimEnd_app_stop by done. assoc.
Qed.

(** What [trim] removes is white space. *)
Lemma trim_decompose s :
  exists w1 w2, s = w1 ++ trim s ++ w2 /\
    Forall (fun c => isWhiteSpace c = true) w1 /\
    Forall (fun c => isWhiteSpace c = true) w2.
Proof.
  exists (taken isWhiteSpace s),
         (rev (taken isWhiteSpace (rev (skip isWhiteSpace s)))).
  split; [|split].
  - unfold trim, trimEnd. rewrite !trimStart_skip.
    rewrite <- rev_app_distr, taken_skip, rev_involutive.
    by rewrite taken_skip.
  - apply taken_all.
  - apply Forall_rev, taken_all.
Qed.

Lemma trim_head s c t : trim s = c :: t -> isWhiteSpace c = false.
Proof.
  unfold trim. rewrite trimStart_skip.
  destruct (skip isWhiteSpace s) as [|x s'] eqn:E; [done|].
  pose proof (skip_head _ _ _ _ E) as Hx.
  pose proof (trimEnd_app_stop [] x s' Hx) as H. cbn [app] in H.
  rewrite H. by intros [= <- _].
Qed.

Lemma trim_wrapped s : trim ([newline] ++ trim s ++ [newline]) = trim s.
Proof.
  unfold trim at 1. simpl app. rewrite trimStart_cons_space by done.
  destruct (trim s) as [|c t] eqn:E; [done|].
  pose proof (trim_head _ _ _ E) as Hc.
  cbn [app trimStart]. rewrite Hc.
  rewrite app_comm_cons, trimEnd_snoc_space by done.
  rewrite <- E. unfold trim. apply trimEnd_idem.
Qed.

Lemma skip_suffix p s : exists n, skip p s = drop n s.
Proof.
  induction s as [|c s [n Hn]]; simpl; [by exists 0|].
  destruct (p c); [by exists (S n) | by exists 0].
Qed.

Lemma trimEnd_prefix s : exists n, trimEnd s = take n s.
Proof.
  unfold trimEnd. rewrite trimStart_skip.
  destruct (skip_suffix isWhiteSpace (rev s)) as [n ->].
  exists (length s - n). by rewrite skipn_rev, rev_involutive.
Qed.
End Trim.

(** ** The replacement regex *)

Section DefineRegex.
Implicit Types s t u v x : jsstring.

Lemma after_cons p c k a s :
  after p c k (a :: s) =
    if p a then after p c k s else if N.eqb a c then k s else None.
Proof. unfold after. simpl. by destruct (p a). Qed.

Lemma after_skip_all p c k z t :
  Forall (fun a => p a = true) z -> p c = false ->
  after p c k (z ++ c :: t) = k t.
Proof.
  intros Hz Hc. unfold after.
  destruct (skip_all p z c t Hz Hc) as [-> _]. by rewrite N.eqb_refl.
Qed.

Lemma space_not_brace c : isWhiteSpace c = true -> notChar 125 c = true.
Proof.
  unfold notChar. destruct (N.eqb_spec c 125) as [->|]; [discriminate|done].
Qed.

Lemma marker_no_space : Forall (fun c => isWhiteSpace c = false) marker.
Proof. by repeat constructor. Qed.

Lemma defineLine_marker n :
  defineLine n = marker ++ js "({ name: " ++ [dquote] ++ n ++ [dquote] ++ js " });".
Proof. reflexivity. Qed.

Lemma defineLine_ends n :
  defineLine n =
    100%N :: (js "efineOptions({ name: " ++ [dquote] ++ n ++ [dquote] ++ js " })") ++ [59%N].
Proof. unfold defineLine. cbn. by rewrite <- !app_assoc. Qed.

Lemma isTail_defineLine n Q :
  Forall (fun c => notChar 125 c = true) n -> isTail (defineLine n ++ Q).
Proof.
  intros Hn.
  exists (js "efineOptions({ name: " ++ [dquote] ++ n ++ [dquote; 32%N]), [], (59%N :: Q).
  split; [|split; [|constructor]].
  - unfold defineLine. cbn. rewrite <- !app_assoc. done.
  - apply Forall_app. split; [by repeat constructor|].
    apply Forall_cons. split; [done|].
    apply Forall_app. split; [done|]. by repeat constructor.
Qed.

Lemma define_core_defineLine n Q :
  Forall (fun c => notChar 125 c = true) n ->
  define_core (defineLine n ++ Q) = Some (59%N :: Q).
Proof.
  intros Hn. unfold define_core. rewrite defineLine_marker, <- !app_assoc.
  rewrite startsWith_app. rewrite (drop_app_length' marker) by done.
  assert (js "({ name: " ++ [dquote] ++ n ++ [dquote] ++ js " });" ++ Q
          = 40%N :: 123%N :: (js " name: " ++ [dquote] ++ n ++ [dquote; 32%N])
              ++ 125%N :: 41%N :: 59%N :: Q) as ->.
  { cbn. assoc. }
  rewrite after_cons. change (isWhiteSpace 40) with false. cbv iota.
  change (N.eqb 40 40) with true. cbv iota.
  rewrite after_cons. change (isWhiteSpace 123) with false. cbv iota.
  change (N.eqb 123 123) with true. cbv iota.
  rewrite after_skip_all; [| |done].
  - by rewrite after_cons.
  - apply Forall_app. split; [by repeat constructor|].
    apply Forall_cons. split; [done|].
    apply Forall_app. split; [done|]. by repeat constructor.
Qed.

Lemma define_tail_semicolon Q : define_tail (59%N :: Q) = Q.
Proof. reflexivity. Qed.

(** Every text the obligatory part matches at its head is a tail. *)
Lemma define_core_isTail s r : define_core s = Some r -> isTail s.
Proof.
  unfold define_core, after.
  destruct (startsWith marker s) eqn:Hm; [|done].
  apply startsWith_drop in Hm. change (length marker) with 13 in Hm.
  pose proof (taken_skip isWhiteSpace (drop 13 s)) as E0.
  pose proof (taken_all isWhiteSpace (drop 13 s)) as A0.
  remember (taken isWhiteSpace (drop 13 s)) as w0 eqn:Hw; clear Hw.
  destruct (skip isWhiteSpace (drop 13 s)) as [|c1 s1]; [done|].
  destruct (N.eqb_spec c1 40) as [->|]; [|done].
  pose proof (taken_skip isWhiteSpace s1) as E1.
  pose proof (taken_all isWhiteSpace s1) as A1.
  remember (taken isWhiteSpace s1) as w1 eqn:Hw; clear Hw.
  destruct (skip isWhiteSpace s1) as [|c2 s2]; [done|].
  destruct (N.eqb_spec c2 123) as [->|]; [|done].
  pose proof (taken_skip (notChar 125) s2) as E2.
  pose proof (taken_all (notChar 125) s2) as A2.
  remember (taken (notChar 125) s2) as u2 eqn:Hw; clear Hw.
  destruct (skip (notChar 125) s2) as [|c3 s3]; [done|].
  destruct (N.eqb_spec c3 125) as [->|]; [|done].
  pose proof (taken_skip isWhiteSpace s3) as E3.
  pose proof (taken_all isWhiteSpace s3) as A3.
  remember (taken isWhiteSpace s3) as w3 eqn:Hw; clear Hw.
  destruct (skip isWhiteSpace s3) as [|c4 s4]; [done|].
  destruct (N.eqb_spec c4 41) as [->|]; [|done].
  intros [= <-].
  exists (js "efineOptions" ++ w0 ++ 40%N :: w1 ++ 123%N :: u2), w3, s4.
  split; [|split; [|done]].
  - rewrite Hm, <- E0, <- E1, <- E2, <- E3. unfold marker. cbn. assoc.
  - apply Forall_app. split; [by repeat constructor|].
    apply Forall_app. split; [eapply Forall_impl; [exact A0|apply space_not_brace]|].
    apply Forall_cons. split; [done|].
    apply Forall_app. split; [eapply Forall_impl; [exact A1|apply space_not_brace]|].
    apply Forall_cons. split; [done|]. done.
Qed.

(** The obligatory part leaves a suffix of its input, and so does the
    optional end. *)
Lemma after_suffix p c k s r :
  (forall t r', k t = Some r' -> exists n, r' = drop n t) ->
  after p c k s = Some r -> exists n, r = drop n s.
Proof.
  intros Hk. unfold after. destruct (skip_suffix p s) as [n Hn].
  destruct (skip p s) as [|x s'] eqn:E; [done|].
  destruct (N.eqb x c); [|done]. intros [m ->]%Hk.
  exists (n + 1 + m). rewrite <- !drop_drop, <- Hn. done.
Qed.

Lemma define_core_suffix s r : define_core s = Some r -> exists n, r = drop n s.
Proof.
  unfold define_core. destruct (startsWith marker s); [|done]. intros H.
  assert (exists n, r = drop n (drop 13 s)) as [n ->].
  { revert H. apply after_suffix. intros t r'. apply after_suffix.
    intros t' r''. apply after_suffix. intros t'' r'''. apply after_suffix.
    intros t3 r3 [= ->]. by exists 0. }
  exists (13 + n). by rewrite drop_drop.
Qed.

Lemma define_tail_suffix r : exists n, define_tail r = drop n r.
Proof.
  unfold define_tail. destruct (skip_suffix isWhiteSpace r) as [n Hn].
  destruct (skip isWhiteSpace r) as [|c s'] eqn:E.
  - by exists n.
  - destruct (N.eqb c 59).
    + exists (n + 1). by rewrite <- drop_drop, <- Hn.
    + by exists n.
Qed.
End DefineRegex.

(** ** What a match attempt can see *)

Section Blind.
Implicit Types s t u v x : jsstring.

Lemma startsWith_nth p x c t :
  startsWith p (x ++ c :: t) = true -> length x < length p ->
  p !! length x = Some c.
Proof.
  revert x; induction p as [|a p IH]; intros x; simpl; [lia|].
  destruct x as [|b x]; simpl.
  - rewrite andb_true_iff, N.eqb_eq. by intros [-> _] _.
  - rewrite andb_true_iff. intros [_ H] Hlen. apply IH; [done|lia].
Qed.

Lemma marker_d k : marker !! k = Some 100%N -> k = 0.
Proof.
  intros H. do 13 (destruct k as [|k]; [done || discriminate|]). discriminate.
Qed.

(** A match attempt that starts before a tail has the whole marker
    before the tail. *)
Lemma marker_before_tail x T :
  x <> [] -> isTail T -> startsWith marker (x ++ T) = true ->
  13 <= length x /\ startsWith marker x = true.
Proof.
  intros Hx (u & w & r & -> & _) H.
  assert (13 <= length x) as Hlen.
  { destruct (decide (13 <= length x)); [done|]. exfalso.
    apply startsWith_nth in H; [|change (length marker) with 13; lia].
    apply marker_d in H. by destruct x. }
  split; [done|]. by rewrite startsWith_app_long in H.
Qed.

Lemma tailBlind_Some : tailBlind Some.
Proof. intros x T1 T2 _ _ _. eauto. Qed.

Lemma after_blind_stop p c k :
  p 100%N = false -> c <> 100%N -> tailBlind k -> tailBlind (after p c k).
Proof.
  intros Hp Hc Hk x T1 T2 H1 H2. induction x as [|a x IH].
  - destruct H1 as (u & w & r & -> & _). cbn [app]. rewrite after_cons, Hp.
    destruct (N.eqb_spec 100 c); [congruence|]. by intros [? [=]].
  - cbn [app]. rewrite !after_cons. destruct (p a); [done|].
    destruct (N.eqb a c); [by apply Hk | done].
Qed.

Lemma after_tail_through T :
  isTail T ->
  is_Some (after (notChar 125) 125 (after isWhiteSpace 41 Some) T).
Proof.
  intros (u & w & r & -> & Hu & Hw). rewrite app_comm_cons.
  rewrite (after_skip_all (notChar 125) 125 _ (100%N :: u)); [| |done].
  - rewrite after_skip_all by done. eauto.
  - by constructor.
Qed.

Lemma after_blind_through :
  tailBlind (after (notChar 125) 125 (after isWhiteSpace 41 Some)).
Proof.
  intros x T1 T2 H1 H2. induction x as [|a x IH].
  - intros _. by apply after_tail_through.
  - cbn [app]. rewrite !after_cons. destruct (notChar 125 a); [done|].
    destruct (N.eqb a 125); [|done].
    by apply after_blind_stop; [done|done|apply tailBlind_Some|done|done].
Qed.

Lemma define_core_blind x T1 T2 :
  x <> [] -> isTail T1 -> isTail T2 ->
  is_Some (define_core (x ++ T1)) -> is_Some (define_core (x ++ T2)).
Proof.
  intros Hx H1 H2. unfold define_core.
  destruct (startsWith marker (x ++ T1)) eqn:E; [|by intros [? [=]]].
  destruct (marker_before_tail x T1 Hx H1 E) as [Hlen Hm].
  rewrite (startsWith_app_long marker x T2), Hm by done.
  rewrite !drop_app_le by lia.
  apply after_blind_stop; [done|done| |done|done].
  apply after_blind_stop; [done|done| ].
  apply after_blind_through.
Qed.

Lemma quiet_nil : quiet [].
Proof. intros j T Hj. simpl in Hj. lia. Qed.

Lemma quiet_of_nomatch P T0 :
  isTail T0 ->
  (forall j, j < length P -> define_core (drop j P ++ T0) = None) ->
  quiet P.
Proof.
  intros H0 Hno j T Hj HT.
  destruct (define_core (drop j P ++ T)) as [r|] eqn:E; [|done]. exfalso.
  assert (is_Some (define_core (drop j P ++ T0))) as [r0 Hr0].
  { apply (define_core_blind _ T); [|done|done|by rewrite E].
    intros Hnil. apply (f_equal length) in Hnil.
    rewrite length_drop in Hnil. simpl in Hnil. lia. }
  rewrite Hno in Hr0 by done. discriminate.
Qed.

Lemma quiet_no_marker a : ~ occursIn marker a -> quiet (a ++ [newline]).
Proof.
  intros Ha j T Hj HT. rewrite length_app in Hj. simpl in Hj.
  unfold define_core.
  destruct (startsWith marker (drop j (a ++ [newline]) ++ T)) eqn:E; [|done].
  exfalso. rewrite drop_app_le in E by lia. rewrite <- app_assoc in E.
  apply startsWith_reads in E as [E|E].
  - apply Ha. by apply (occursIn_at _ _ j).
  - by repeat (apply elem_of_cons in E as [E|E]; [discriminate|]);
      apply elem_of_nil in E.
Qed.

(** The same for white space after the attempt. *)
Lemma skip_all_nil p z : Forall (fun a => p a = true) z -> skip p z = [].
Proof. induction 1 as [|a z Ha _ IH]; simpl; [done|]. by rewrite Ha. Qed.

Lemma spaceBlind_Some : spaceBlind Some.
Proof. intros x w1 w2 _ _ _. eauto. Qed.

Lemma after_spaceBlind p c k :
  (forall a, isWhiteSpace a = true -> p a = true) ->
  spaceBlind k -> spaceBlind (after p c k).
Proof.
  intros Hp Hk x w1 w2 H1 H2. induction x as [|a x IH].
  - cbn [app]. unfold after at 1. rewrite skip_all_nil; [by intros [? [=]]|].
    eapply Forall_impl; [exact H1|]. apply Hp.
  - cbn [app]. rewrite !after_cons. destruct (p a); [done|].
    destruct (N.eqb a c); [by apply Hk | done].
Qed.

Lemma startsWith_no_space p x w :
  Forall (fun c => isWhiteSpace c = false) p ->
  Forall (fun c => isWhiteSpace c = true) w ->
  startsWith p (x ++ w) = true -> startsWith p x = true.
Proof.
  intros Hp Hw. revert x. induction Hp as [|a p Ha Hp IH]; intros x; [done|].
  destruct x as [|b x]; cbn [app startsWith].
  - destruct Hw as [|b w Hb Hw]; [done|]. simpl.
    destruct (N.eqb_spec a b) as [->|]; [congruence|done].
  - rewrite !andb_true_iff. intros [H1 H2]. split; [done|]. by apply IH.
Qed.

Lemma define_core_spaceBlind : spaceBlind define_core.
Proof.
  intros x w1 w2 H1 H2. unfold define_core.
  destruct (startsWith marker (x ++ w1)) eqn:E; [|by intros [? [=]]].
  apply startsWith_no_space in E; [|apply marker_no_space|done].
  pose proof (startsWith_length _ _ E) as Hlen.
  change (length marker) with 13 in Hlen.
  rewrite (startsWith_app_long marker x w2), E by done.
  rewrite !drop_app_le by lia.
  apply after_spaceBlind; [done| |done|done].
  apply after_spaceBlind; [done| ].
  apply after_spaceBlind; [apply space_not_brace| ].
  apply after_spaceBlind; [done|apply spaceBlind_Some].
Qed.
End Blind.

(** ** Occurrences and substitution patterns under concatenation *)

Section Occurrences.
Implicit Types p s t a b u v : jsstring.

Lemma occursIn_pos p s : occursIn p s <-> exists j, startsWith p (drop j s) = true.
Proof.
  split.
  - intros (a & b & ->). exists (length a). rewrite drop_app_length.
    apply startsWith_app.
  - intros [j Hj]. by apply (occursIn_at _ _ j).
Qed.

(** An occurrence cannot span a code unit that the pattern lacks. *)
Lemma occursIn_sep p a c b :
  c ∉ p -> occursIn p (a ++ c :: b) -> occursIn p a \/ occursIn p b.
Proof.
  intros Hc [j Hj]%occursIn_pos.
  destruct (decide (j <= length a)).
  - rewrite drop_app_le in Hj by done.
    apply startsWith_reads in Hj as [Hj|Hj]; [|done].
    left. by apply (occursIn_at _ _ j).
  - right. rewrite drop_app_ge in Hj by lia.
    replace (j - length a) with (S (j - length a - 1)) in Hj by lia.
    simpl in Hj. by apply (occursIn_at _ _ (j - length a - 1)).
Qed.

Lemma occursIn_take p n s : occursIn p (take n s) -> occursIn p s.
Proof. intros H. rewrite <- (take_drop n s). by apply occursIn_app_l. Qed.

Lemma occursIn_drop p n s : occursIn p (drop n s) -> occursIn p s.
Proof. intros H. rewrite <- (take_drop n s). by apply occursIn_app_r. Qed.

Lemma occursIn_trimStart p s : occursIn p (trimStart s) -> occursIn p s.
Proof.
  rewrite trimStart_skip. destruct (skip_suffix isWhiteSpace s) as [n ->].
  apply occursIn_drop.
Qed.

Lemma occursIn_trimEnd p s : occursIn p (trimEnd s) -> occursIn p s.
Proof. destruct (trimEnd_prefix s) as [n ->]. apply occursIn_take. Qed.

Lemma occursIn_trim p s : occursIn p (trim s) -> occursIn p s.
Proof. intros H. by apply occursIn_trimStart, occursIn_trimEnd. Qed.

Lemma occursIn_nil_inv p : occursIn p [] -> p = [].
Proof.
  intros (a & b & H). symmetry in H.
  apply app_eq_nil in H as [_ H]. by apply app_eq_nil in H as [H _].
Qed.

(** Patterns of [getSubstitution]. *)
Lemma noPattern_app_inv a b :
  noPattern (a ++ b) = true -> noPattern a = true /\ noPattern b = true.
Proof.
  induction a as [|c a IH]; [done|].
  cbn [app noPattern]. rewrite !andb_true_iff. intros [H1 H2].
  destruct (IH H2) as [Ha Hb]. repeat split; [|done|done].
  destruct (N.eqb c 36); [|done]. by destruct a.
Qed.

Lemma noPattern_app a b :
  noPattern a = true -> noPattern b = true ->
  last a <> Some 36%N \/ (forall d b', b = d :: b' -> isSubstitutionChar d = false) ->
  noPattern (a ++ b) = true.
Proof.
  intros Ha Hb Hjoin. induction a as [|c a IH]; [done|].
  cbn [app noPattern] in *. apply andb_true_iff in Ha as [H1 H2].
  apply andb_true_iff. split.
  - destruct (N.eqb_spec c 36) as [->|]; [|done].
    destruct a as [|d a]; [|done]. cbn [app].
    destruct b as [|d b']; [done|].
    destruct Hjoin as [Hj|Hj]; [done|]. by rewrite (Hj d b').
  - apply IH; [done|]. destruct Hjoin as [Hj|Hj]; [|by right].
    left. destruct a as [|d a]; [done|]. done.
Qed.

Lemma noPattern_app_l a b c :
  noPattern a = true -> noPattern (c :: b) = true -> isSubstitutionChar c = false ->
  noPattern (a ++ c :: b) = true.
Proof.
  intros Ha Hb Hc. apply noPattern_app; [done|done|].
  right. by intros d b' [= <- _].
Qed.

Lemma noPattern_app_r a c b :
  noPattern (a ++ [c]) = true -> noPattern b = true -> c <> 36%N ->
  noPattern ((a ++ [c]) ++ b) = true.
Proof.
  intros Ha Hb Hc. apply noPattern_app; [done|done|].
  left. rewrite last_snoc. congruence.
Qed.

Lemma noPattern_take n s : noPattern s = true -> noPattern (take n s) = true.
Proof. rewrite <- (take_drop n s) at 1. by intros [? ?]%noPattern_app_inv. Qed.

Lemma noPattern_drop n s : noPattern s = true -> noPattern (drop n s) = true.
Proof. rewrite <- (take_drop n s) at 1. by intros [? ?]%noPattern_app_inv. Qed.

Lemma noPattern_trimStart s : noPattern s = true -> noPattern (trimStart s) = true.
Proof.
  rewrite trimStart_skip. destruct (skip_suffix isWhiteSpace s) as [n ->].
  apply noPattern_drop.
Qed.

Lemma noPattern_trimEnd s : noPattern s = true -> noPattern (trimEnd s) = true.
Proof. destruct (trimEnd_prefix s) as [n ->]. apply noPattern_take. Qed.

Lemma noPattern_trim s : noPattern s = true -> noPattern (trim s) = true.
Proof. intros H. by apply noPattern_trimEnd, noPattern_trimStart. Qed.

Lemma noPattern_defineLine n : noPattern n = true -> noPattern (defineLine n) = true.
Proof.
  intros Hn. unfold defineLine.
  apply noPattern_app; [done| |by left].
  apply noPattern_app; [done| |by left].
  apply noPattern_app; [done| |by right; intros d b' [= <- _]].
  by apply noPattern_app; [done|done|left].
Qed.

Lemma noPattern_newScript attrs s :
  noPattern attrs = true -> noPattern (trim s) = true ->
  noPattern (newScript attrs s) = true.
Proof.
  intros Ha Hs. unfold newScript.
  apply noPattern_app; [done| |by left].
  apply noPattern_app; [done| |by right; intros d b' [= <- _]].
  apply noPattern_app; [done| |by left].
  apply noPattern_app; [done| |by left].
  apply noPattern_app; [done| |by right; intros d b' [= <- _]].
  by apply noPattern_app; [done|done|left].
Qed.
End Occurrences.

(** ** Matches of the replacement regex *)

Section DefineExec.
Implicit Types s t P M Q body : jsstring.

Lemma exec_define_None body :
  exec defineRegex body = None <-> forall j, define_core (drop j body) = None.
Proof.
  unfold exec. rewrite exec_from_None. split; intros H j; specialize (H j).
  - rewrite match_define_at in H. by destruct (define_core (drop j body)).
  - rewrite match_define_at. by rewrite H.
Qed.

Lemma exec_define_intro P D Q r :
  (forall j, j < length P -> define_core (drop j P ++ D ++ Q) = None) ->
  define_core (D ++ Q) = Some r -> define_tail r = Q ->
  exec defineRegex (P ++ D ++ Q) =
    Some {| index := length P; matched := D; groups := [] |}.
Proof.
  intros Hno Hcore Htail. unfold exec. apply exec_from_Some.
  exists (length P), Q, []. rewrite drop_app_length.
  split; [rewrite length_app; lia|]. split; [|split].
  - rewrite match_define_at, Hcore. simpl. by rewrite Htail.
  - intros j Hj. rewrite match_define_at, drop_app_le by lia.
    by rewrite Hno.
  - f_equal. rewrite length_app.
    replace (length D + length Q - length Q) with (length D) by lia.
    by rewrite take_app_length.
Qed.

Lemma take_drop_suffix s n : take (length s - length (drop n s)) s ++ drop n s = s.
Proof.
  rewrite length_drop. destruct (decide (n <= length s)).
  - replace (length s - (length s - n)) with n by lia. apply take_drop.
  - rewrite drop_ge by lia. rewrite take_ge by lia. apply app_nil_r.
Qed.

Lemma exec_define_inv body m :
  exec defineRegex body = Some m ->
  exists P M Q,
    body = P ++ M ++ Q /\
    m = {| index := length P; matched := M; groups := [] |} /\
    isTail (M ++ Q) /\
    (forall j, j < length P -> define_core (drop j P ++ M ++ Q) = None).
Proof.
  unfold exec. intros (j & rest & caps & Hj & Hm & Hmin & ->)%exec_from_Some.
  rewrite match_define_at in Hm.
  destruct (define_core (drop j body)) as [r|] eqn:Hcore; [|done].
  injection Hm as <- <-.
  destruct (define_core_suffix _ _ Hcore) as [n1 Hn1].
  destruct (define_tail_suffix r) as [n2 Hn2].
  assert (define_tail r = drop (n1 + n2) (drop j body)) as Hq.
  { by rewrite Hn2, Hn1, drop_drop. }
  set (M := take (length (drop j body) - length (define_tail r)) (drop j body)).
  assert (M ++ define_tail r = drop j body) as HMQ.
  { unfold M. rewrite Hq. apply take_drop_suffix. }
  exists (take j body), M, (define_tail r).
  assert (length (take j body) = j) as Hlen by (rewrite length_take; lia).
  split; [by rewrite HMQ, take_drop|]. rewrite Hlen. split; [done|]. split.
  - rewrite HMQ. by apply (define_core_isTail _ r).
  - intros j' Hj'. specialize (Hmin j' Hj'). rewrite match_define_at in Hmin.
    rewrite HMQ.
    assert (drop j' (take j body) ++ drop j body = drop j' body) as ->.
    { rewrite <- (take_drop j body) at 3. rewrite drop_app_le; [done|]. lia. }
    by destruct (define_core (drop j' body)).
Qed.
End DefineExec.

(** ** One patch after another *)

Section Overwrite.
Context (h : Host).
Implicit Types s t u v body attrs pre post content : jsstring.

Lemma cut_noPattern body u v :
  cut body u v -> noPattern body = true ->
  noPattern u = true /\ noPattern v = true.
Proof.
  intros (a & m & b & -> & Hu & Hv) Hb.
  apply noPattern_app_inv in Hb as [Ha Hb].
  apply noPattern_app_inv in Hb as [_ Hb].
  split.
  - destruct Hu as [->| ->]; [done|]. by apply noPattern_app_l.
  - destruct Hv as [->| ->]; [done|]. by apply (noPattern_app_r [] newline b).
Qed.

Lemma cut_occurs p body u v :
  cut body u v -> newline ∉ p -> p <> [] ->
  occursIn p u \/ occursIn p v -> occursIn p body.
Proof.
  intros (a & m & b & -> & Hu & Hv) Hnl Hp [H|H].
  - apply occursIn_app_l.
    destruct Hu as [->| ->]; [done|].
    apply occursIn_sep in H as [H|H]; [done| |done].
    by apply occursIn_nil_inv in H.
  - apply occursIn_app_r, occursIn_app_r.
    destruct Hv as [->| ->]; [done|].
    apply (occursIn_sep p [] newline b) in H as [H|H]; [|done|done].
    by apply occursIn_nil_inv in H.
Qed.

(** The two ways [mutateScript] goes: the marker is there but no call
    matches and nothing changes, or the statement is put at a place of
    the script that does not depend on the name. *)
Lemma mutate_shape body :
  (includes marker body = true /\ exec defineRegex body = None) \/
  (exists u v, cut body u v /\ quiet u /\
     forall n, noPattern n = true ->
       mutateScript h n body = u ++ defineLine n ++ v).
Proof.
  unfold mutateScript. destruct (includes marker body) eqn:Hinc.
  - destruct (exec defineRegex body) as [m|] eqn:Hex; [right|by left].
    destruct (exec_define_inv _ _ Hex) as (P & M & Q & -> & -> & HT & Hno).
    exists P, Q. split; [by exists P, M, Q; auto|]. split.
    + by apply (quiet_of_nomatch P (M ++ Q)).
    + intros n Hn. unfold Regex.replace. rewrite Hex. cbn [index matched].
      rewrite take_app_length, drop_app_add, drop_app_length.
      by rewrite noPattern_getSubstitution by by apply noPattern_defineLine.
  - right. apply includes_false in Hinc.
    destruct (last (importDeclarationEnds h body)) as [e|].
    + exists (take (S e) body ++ [newline]), (newline :: drop (S e) body).
      split; [|split].
      * exists (take (S e) body), [], (drop (S e) body).
        rewrite app_nil_l, take_drop. auto.
      * apply quiet_no_marker. intros H. by apply Hinc, (occursIn_take _ (S e)).
      * intros n _. unfold slice_to, slice_from. assoc.
    + exists [], (newline :: body). split; [|split].
      * exists [], [], body. auto.
      * apply quiet_nil.
      * intros n _. assoc.
Qed.

Lemma trim_defineLine u n v :
  trim (u ++ defineLine n ++ v) = trimStart u ++ defineLine n ++ trimEnd v.
Proof. rewrite defineLine_ends. by apply trim_around. Qed.

Lemma includes_defineLine P n Q : includes marker (P ++ defineLine n ++ Q) = true.
Proof.
  apply includes_iff. rewrite defineLine_marker.
  exists P, (js "({ name: " ++ [dquote] ++ n ++ [dquote] ++ js " });" ++ Q).
  assoc.
Qed.

(** The second patch finds the statement of the first and replaces it. *)
Lemma second_run A B u v :
  quiet u -> Forall (fun c => notChar 125 c = true) A -> noPattern B = true ->
  trim (mutateScript h B ([newline] ++ trim (u ++ defineLine A ++ v) ++ [newline]))
  = trim (u ++ defineLine B ++ v).
Proof.
  intros Hq HA HB. rewrite !trim_defineLine.
  set (P := newline :: trimStart u). set (Q := trimEnd v ++ [newline]).
  assert ([newline] ++ (trimStart u ++ defineLine A ++ trimEnd v) ++ [newline]
          = P ++ defineLine A ++ Q) as -> by (unfold P, Q; assoc).
  unfold mutateScript. rewrite includes_defineLine.
  unfold Regex.replace.
  rewrite (exec_define_intro P (defineLine A) Q (59%N :: Q)).
  - cbn [index matched].
    rewrite take_app_length, drop_app_add, drop_app_length.
    rewrite noPattern_getSubstitution by by apply noPattern_defineLine.
    rewrite trim_defineLine. unfold P, Q.
    rewrite trimStart_cons_space, trimStart_idem by done.
    by rewrite trimEnd_snoc_space, trimEnd_idem by done.
  - intros [|j] Hj; [done|]. unfold P in *. cbn [drop length] in *.
    rewrite trimStart_skip in *.
    destruct (skip_suffix isWhiteSpace u) as [n Hn]. rewrite Hn in *.
    rewrite drop_drop. rewrite length_drop in Hj.
    apply Hq; [lia|]. by apply isTail_defineLine.
  - by apply define_core_defineLine.
  - done.
Qed.

(** When the marker is there and no call matches, the same holds for the
    rewritten script. *)
Lemma marker_trim body :
  includes marker body = true ->
  includes marker ([newline] ++ trim body ++ [newline]) = true.
Proof.
  intros Hinc. destruct (trim_decompose body) as (w1 & w2 & Hb & Hw1 & Hw2).
  apply includes_iff. apply occursIn_app_r, occursIn_app_l.
  apply includes_iff in Hinc. rewrite Hb in Hinc.
  apply occursIn_pos in Hinc as [j Hj].
  destruct (decide (j < length w1)).
  - exfalso. rewrite drop_app_le in Hj by lia.
    destruct (drop j w1) as [|c t] eqn:E.
    { apply (f_equal length) in E. rewrite length_drop in E. simpl in E. lia. }
    assert (isWhiteSpace c = true) as Hc.
    { assert (Forall (fun c => isWhiteSpace c = true) (drop j w1)) as HF
        by by apply Forall_drop.
      rewrite E in HF. by inversion HF. }
    change marker with (100%N :: js "efineOptions") in Hj.
    cbn [app startsWith] in Hj. apply andb_true_iff in Hj as [Hj _].
    apply N.eqb_eq in Hj as <-. done.
  - rewrite drop_app_ge in Hj by lia.
    destruct (decide (j - length w1 <= length (trim body))).
    + rewrite drop_app_le in Hj by done.
      apply startsWith_no_space in Hj; [|apply marker_no_space|done].
      by apply (occursIn_at _ _ (j - length w1)).
    + exfalso. rewrite drop_app_ge in Hj by lia.
      apply (startsWith_no_space marker []) in Hj;
        [done|apply marker_no_space|by apply Forall_drop].
Qed.

Lemma nomatch_trim body :
  exec defineRegex body = None ->
  exec defineRegex ([newline] ++ trim body ++ [newline]) = None.
Proof.
  intros Hex. destruct (trim_decompose body) as (w1 & w2 & Hb & Hw1 & Hw2).
  apply exec_define_None. intros [|j]; [done|].
  cbn [app drop]. rewrite exec_define_None in Hex.
  destruct (decide (j <= length (trim body))).
  - rewrite drop_app_le by done.
    destruct (define_core (drop j (trim body) ++ [newline])) as [r|] eqn:E; [|done].
    exfalso.
    assert (is_Some (define_core (drop j (trim body) ++ w2))) as [r' Hr'].
    { apply (define_core_spaceBlind _ [newline]); [by repeat constructor|done|].
      by rewrite E. }
    specialize (Hex (length w1 + j)). rewrite Hb in Hex.
    rewrite drop_app_add, drop_app_le in Hex by done. congruence.
  - rewrite drop_app_ge by lia.
    by destruct (j - length (trim body)) as [|[|k]].
Qed.

Lemma nomatch_wrapped body n :
  includes marker body = true -> exec defineRegex body = None ->
  mutateScript h n ([newline] ++ trim body ++ [newline])
  = [newline] ++ trim body ++ [newline].
Proof.
  intros Hinc Hex. apply mutateScript_nomatch.
  - by apply marker_trim.
  - by apply nomatch_trim.
Qed.
End Overwrite.

Section OverwriteFile.
Context (h : Host).
Implicit Types s t u v body attrs pre post content : jsstring.

Lemma split_noclose content pre attrs body post :
  ScriptSplit content pre attrs body post -> ~ occursIn (js "</script>") body.
Proof.
  intros [_ _ _ Hb] [j Hj]%occursIn_pos.
  pose proof (startsWith_length _ _ Hj) as Hlen.
  rewrite length_drop in Hlen. change (length (js "</script>")) with 9 in Hlen.
  specialize (Hb j ltac:(lia)).
  rewrite startsWith_app_long in Hb; [congruence|].
  rewrite length_drop. change (length (js "</script>")) with 9. lia.
Qed.

Lemma wrapped_noclose X j :
  ~ occursIn (js "</script>") X ->
  j < length ([newline] ++ X ++ [newline]) ->
  startsWith (js "</script>") (drop j ([newline] ++ X ++ [newline]) ++ js "</script>")
  = false.
Proof.
  intros HX Hj. destruct (startsWith _ _) eqn:E; [exfalso|done].
  rewrite !length_app in Hj. cbn [length] in Hj.
  change ([newline] ++ X ++ [newline]) with ((newline :: X) ++ [newline]) in E.
  rewrite drop_app_le in E by (cbn [length]; lia).
  rewrite <- app_assoc in E. cbn [app] in E.
  apply startsWith_reads in E as [E|E]; [|revert E; not_in_literal].
  destruct j as [|j]; [done|]. cbn [drop] in E.
  by apply HX, (occursIn_at _ _ j).
Qed.

(** After the rewrite the first script block is the rebuilt one. *)
Lemma split_rebuilt content pre attrs body post X :
  ScriptSplit content pre attrs body post ->
  ~ occursIn (js "</script>") (trim X) ->
  ScriptSplit (pre ++ newScript attrs X ++ post) pre attrs
    ([newline] ++ trim X ++ [newline]) post.
Proof.
  intros [Heq Hfirst Ha Hb] HX. split; [|done|done|].
  - rewrite newScript_block. unfold blockOf. assoc.
  - intros j Hj. by apply wrapped_noclose.
Qed.

Lemma noclose_sandwich u A v :
  ~ occursIn (js "</script>") u -> ~ occursIn (js "</script>") v ->
  ~ occursIn (js "</script>") A ->
  ~ occursIn (js "</script>") (u ++ defineLine A ++ v).
Proof.
  intros Hu Hv HA H. rewrite defineLine_ends in H. cbn [app] in H.
  apply occursIn_sep in H as [H|H]; [done| |not_in_literal].
  rewrite <- app_assoc in H. cbn [app] in H.
  apply occursIn_sep in H as [H|H]; [|done|not_in_literal].
  cbn [app] in H.
  apply occursIn_sep in H as [H|H]; [|cbn [app] in H|not_in_literal].
  - by apply includes_iff in H.
  - apply occursIn_sep in H as [H|H]; [done| |not_in_literal].
    by apply includes_iff in H.
Qed.

Lemma newScript_trim attrs s t : trim s = trim t -> newScript attrs s = newScript attrs t.
Proof. intros H. unfold newScript. by rewrite H. Qed.

Lemma patch_script_clean n content pre attrs body post :
  ScriptSplit content pre attrs body post ->
  noPattern (newScript attrs (mutateScript h n body)) = true ->
  patchContent h n content =
    (true, pre ++ newScript attrs (mutateScript h n body) ++ post).
Proof.
  intros Hs Hn. rewrite (patchContent_script _ _ _ _ _ _ _ Hs).
  by rewrite noPattern_getSubstitution.
Qed.

Lemma split_noPattern content pre attrs body post :
  ScriptSplit content pre attrs body post ->
  noPattern (blockOf attrs body) = true ->
  noPattern attrs = true /\ noPattern body = true.
Proof.
  intros _ H. unfold blockOf in H.
  apply noPattern_app_inv in H as [_ H].
  apply noPattern_app_inv in H as [Ha H].
  apply noPattern_app_inv in H as [_ H].
  by apply noPattern_app_inv in H as [Hb _].
Qed.

Lemma scriptSetup_split n content :
  ~ occursIn (js "</script>") n ->
  ScriptSplit (scriptSetup n ++ content) [] (js " setup")
    ([newline] ++ trim (defineLine n) ++ [newline]) (newline :: content).
Proof.
  intros Hn.
  assert (trim (defineLine n) = defineLine n) as Ht.
  { pose proof (trim_defineLine [] n []) as H.
    rewrite app_nil_l, app_nil_r in H. rewrite H.
    unfold trimEnd. simpl. by rewrite app_nil_r. }
  split.
  - rewrite Ht. unfold scriptSetup. assoc.
  - intros j Hj. simpl in Hj. lia.
  - by repeat constructor.
  - intros j Hj. apply wrapped_noclose; [|done]. rewrite Ht.
    pose proof (noclose_sandwich [] n []) as H.
    rewrite app_nil_l, app_nil_r in H. apply H; [| |done].
    + by intros ?%occursIn_nil_inv.
    + by intros ?%occursIn_nil_inv.
Qed.

(** Patching for [A] and then for [B] gives what patching for [B] alone
    gives. *)
Lemma patch_overwrite A B content :
  cleanName A -> noPattern B = true -> cleanFile content ->
  (patchContent h B (patchContent h A content).2).2 = (patchContent h B content).2.
Proof.
  intros (HA1 & HA2 & HA3) HB Hclean.
  destruct (exec scriptRegex content) as [m|] eqn:Hex.
  - destruct (exec_script_inv _ _ Hex) as (pre & attrs & body & post & Hs & ->).
    specialize (Hclean _ Hex). cbn [matched] in Hclean.
    destruct (split_noPattern _ _ _ _ _ Hs Hclean) as [Hpa Hpb].
    pose proof (split_noclose _ _ _ _ _ Hs) as Hnc.
    destruct (mutate_shape h body) as [[Hinc Hno]|(u & v & Hcut & Hq & Hmut)].
    + rewrite !(patch_script_clean _ _ _ _ _ _ Hs);
        rewrite ?mutateScript_nomatch by done;
        try by apply noPattern_newScript, noPattern_trim.
      cbn [snd].
      assert (ScriptSplit (pre ++ newScript attrs body ++ post) pre attrs
                ([newline] ++ trim body ++ [newline]) post) as Hs1.
      { apply (split_rebuilt _ _ _ _ _ _ Hs). by intros ?%occursIn_trim. }
      rewrite (patch_script_clean _ _ _ _ _ _ Hs1);
        rewrite nomatch_wrapped by done.
      * cbn [snd]. by rewrite (newScript_trim attrs _ body) by apply trim_wrapped.
      * rewrite (newScript_trim attrs _ body) by apply trim_wrapped.
        by apply noPattern_newScript, noPattern_trim.
    + destruct (cut_noPattern _ _ _ Hcut Hpb) as [Hpu Hpv].
      assert (forall n, noPattern n = true ->
                noPattern (newScript attrs (u ++ defineLine n ++ v)) = true) as Hpn.
      { intros n Hn. apply noPattern_newScript, noPattern_trim; [done|].
        apply noPattern_app; [done| |by right; intros d b' [= <- _]].
        apply noPattern_app; [by apply noPattern_defineLine|done|].
        left. rewrite defineLine_ends, app_comm_cons, last_snoc. done. }
      rewrite !(patch_script_clean _ _ _ _ _ _ Hs); rewrite ?Hmut by done;
        try by apply Hpn.
      cbn [snd].
      assert (ScriptSplit (pre ++ newScript attrs (u ++ defineLine A ++ v) ++ post)
                pre attrs
                ([newline] ++ trim (u ++ defineLine A ++ v) ++ [newline]) post) as Hs1.
      { apply (split_rebuilt _ _ _ _ _ _ Hs). intros H%occursIn_trim.
        revert H. apply noclose_sandwich; [| |done].
        - intros H. apply Hnc, (cut_occurs _ _ u v); [done|not_in_literal|done|by left].
        - intros H. apply Hnc, (cut_occurs _ _ u v); [done|not_in_literal|done|by right]. }
      assert (newScript attrs
                (mutateScript h B
                   ([newline] ++ trim (u ++ defineLine A ++ v) ++ [newline]))
              = newScript attrs (u ++ defineLine B ++ v)) as Hnew.
      { apply newScript_trim. by apply second_run. }
      rewrite (patch_script_clean _ _ _ _ _ _ Hs1); rewrite Hnew; [done|by apply Hpn].
  - rewrite (patchContent_noscript h A content Hex),
      (patchContent_noscript h B content Hex). cbn [snd].
    pose proof (scriptSetup_split A content HA2) as Hs1.
    assert (newScript (js " setup")
              (mutateScript h B ([newline] ++ trim (defineLine A) ++ [newline]))
            = newScript (js " setup") (defineLine B)) as Hnew.
    { apply newScript_trim.
      pose proof (second_run h A B [] [] quiet_nil HA1 HB) as H.
      by rewrite !app_nil_l, !app_nil_r in H. }
    rewrite (patch_script_clean _ _ _ _ _ _ Hs1); rewrite Hnew.
    + cbn [snd app]. unfold scriptSetup, newScript.
      pose proof (trim_defineLine [] B []) as H.
      rewrite app_nil_l, app_nil_r in H. rewrite H.
      unfold trimEnd. simpl rev. cbn [trimStart rev app]. assoc.
    + apply noPattern_newScript; [done|]. by apply noPattern_trim, noPattern_defineLine.
Qed.
End OverwriteFile.

(** ** The extractor: properties *)

Section Extractor.
Implicit Types route : Node.

Lemma indexOf_prefix p t : indexOf p (p ++ t) = Some 0.
Proof.
  destruct (p ++ t) eqn:E; simpl; rewrite <- ?E, startsWith_app; done.
Qed.

(** Removing the prefix of a path that starts with it. *)
Lemma replace_prefix p t : JsString.replace p [] (p ++ t) = t.
Proof.
  unfold JsString.replace. rewrite indexOf_prefix. cbn [take app getSubstitution].
  by rewrite Nat.add_0_l, drop_app_length.
Qed.

Lemma matchRoute_inv route r :
  matchRoute route = Some r ->
  name r <> [] /\ importPathOfRoute route = Some (viewsPrefix ++ relativePath r).
Proof.
  unfold matchRoute, importPathOfRoute. destruct route; try done.
  destruct (getProperty (js "name") properties) as [nameProp|]; [|done].
  destruct (getProperty (js "component") properties) as [compProp|]; [|done].
  cbn [mbind option_bind].
  destruct (getFirstDescendantByKind SyntaxKind.StringLiteral nameProp)
    as [[]|]; try done.
  destruct (getFirstDescendantByKind SyntaxKind.ArrowFunction compProp)
    as [arrowFn|]; [|done].
  destruct literalText as [|c nm]; [done|]. cbn [mbind option_bind].
  destruct (findImportCall arrowFn) as [importCall|]; [|done].
  cbn [mbind option_bind].
  destruct (importPathOf importCall) as [importPath|]; [|done].
  destruct (startsWith viewsPrefix importPath) eqn:E; [|done].
  intros [= <-]. cbn [name relativePath]. split; [done|].
  apply startsWith_iff in E as [t ->]. by rewrite replace_prefix.
Qed.

Lemma extractRoutes_elem elements r :
  r ∈ extractRoutes elements ->
  exists route, route ∈ elements /\ matchRoute route = Some r.
Proof.
  unfold extractRoutes. intros (route & Hin & Hm)%list_elem_of_omap.
  exists route. split; [|done].
  apply list_elem_of_In, filter_In in Hin as [Hin _]. by apply list_elem_of_In.
Qed.

Lemma matchedRoutes_inr sf routes :
  matchedRoutes sf = inr routes ->
  exists equals e elements,
    getFirstDescendantByKind SyntaxKind.ExportAssignment (root sf)
      = Some (ExportAssignment equals e) /\
    resolveRouteArray sf e = Some elements /\
    routes = extractRoutes elements.
Proof.
  unfold matchedRoutes.
  destruct (getFirstDescendantByKind _ _) as [[]|]; try done.
  destruct (resolveRouteArray sf expression) as [elements|] eqn:E; [|done].
  intros [= <-]. by eexists _, _, _.
Qed.

(** The code's three cases are the three resolutions of the
    specification. *)
Lemma arrayOrAsserted_iff e es : arrayOrAsserted e = Some es <-> isArrayShape e es.
Proof.
  unfold isArrayShape. split.
  - destruct e; try done; simpl.
    + intros [= ->]. by left.
    + destruct e1; try done. intros [= ->]. right. eauto.
  - intros [->|[t ->]]; done.
Qed.

Lemma resolveRouteArray_iff sf e es :
  resolveRouteArray sf e = Some es <-> resolvable sf e es.
Proof.
  unfold resolvable, isArrayShape. split.
  - destruct e; try done; simpl.
    + intros [= ->]. left. by left.
    + destruct e1; try done. intros [= ->]. left. right. eauto.
    + destruct (getDefinitions sf text) as [|[[]|] rest] eqn:E; try done.
      simpl. destruct initializer as [init|]; [|done].
      intros H%arrayOrAsserted_iff. right.
      exists text, name0, type, init, rest. done.
  - intros [[->|[t ->]]|(x & nm & ty & init & rest & -> & Hd & Hi)]; [done|done|].
    simpl. rewrite Hd. simpl. by apply arrayOrAsserted_iff.
Qed.

End Extractor.

(** ** Path segments *)

Section Segments.
Implicit Types seg s before after : jsstring.

Lemma split_first_later s :
  exists seg0 segs,
    split 47 s = seg0 :: segs /\
    firstSegment seg0 s /\
    (forall seg, firstSegment seg s -> seg = seg0) /\
    (forall seg, seg ∈ segs <-> laterSegment seg s).
Proof.
  induction s as [|c s (seg0 & segs & Hsplit & Hfirst & Huniq & Hlater)].
  - exists [], []. simpl. split; [done|]. split; [|split].
    + split; [by intros ?%elem_of_nil|]. exists []. auto.
    + intros seg (_ & after & H & _). symmetry in H.
      by apply app_eq_nil in H as [-> _].
    + intros seg. split; [by intros ?%elem_of_nil|].
      intros (_ & before & after & H & Hl & _). symmetry in H.
      apply app_eq_nil in H as [-> _]. done.
  - cbn [split]. rewrite Hsplit. destruct (N.eqb_spec c 47) as [->|Hc].
    + exists [], (seg0 :: segs). split; [done|]. split; [|split].
      * split; [by intros ?%elem_of_nil|]. exists (47%N :: s). auto.
      * intros seg (Hseg & after & H & _). destruct seg as [|x seg]; [done|].
        injection H as <- _. exfalso. apply Hseg. left.
      * intros seg. rewrite elem_of_cons, Hlater. split.
        -- intros [->|(Hseg & before & after & -> & Hl & Ha)].
           ++ destruct Hfirst as (Hseg & after & -> & Ha).
              split; [done|]. exists [47%N], after. auto.
           ++ split; [done|]. exists (47%N :: before), after.
              split; [done|]. split; [|done]. by destruct before.
        -- intros (Hseg & before & after & H & Hl & Ha).
           destruct before as [|x before]; [done|]. injection H as <- ->.
           destruct before as [|y before].
           ++ left. apply Huniq. split; [done|]. exists after. auto.
           ++ right. split; [done|]. exists (y :: before), after. auto.
    + exists (c :: seg0), segs. split; [done|]. split; [|split].
      * destruct Hfirst as (Hseg & after & -> & Ha). split.
        -- intros [?|?]%elem_of_cons; [congruence|done].
        -- exists after. auto.
      * intros seg (Hseg & after & H & Ha). destruct seg as [|x seg].
        -- simpl in H. subst after. destruct Ha as [?|Ha]; [done|].
           simpl in Ha. congruence.
        -- injection H as <- ->. f_equal. apply Huniq.
           split; [|by exists after]. intros ?. apply Hseg. by right.
      * intros seg. rewrite Hlater. split.
        -- intros (Hseg & before & after & -> & Hl & Ha). split; [done|].
           exists (c :: before), after. split; [done|]. split; [|done].
           by destruct before.
        -- intros (Hseg & before & after & H & Hl & Ha).
           destruct before as [|x before]; [done|]. injection H as <- ->.
           destruct before as [|y before]; [simpl in Hl; congruence|].
           split; [done|]. exists (y :: before), after. auto.
Qed.

(** The elements of [path.split("/")] are the whole segments of the
    path. *)
Lemma split_wholeSegment seg s : seg ∈ split 47 s <-> wholeSegment seg s.
Proof.
  destruct (split_first_later s) as (seg0 & segs & -> & Hfirst & Huniq & Hlater).
  rewrite elem_of_cons, Hlater. split.
  - intros [->|(Hseg & before & after & -> & Hl & Ha)].
    + destruct Hfirst as (Hseg & after & -> & Ha). split; [done|].
      exists [], after. auto.
    + split; [done|]. exists before, after. auto.
  - intros (Hseg & before & after & -> & [->|Hl] & Ha).
    + left. apply Huniq. split; [done|]. exists after. auto.
    + right. split; [done|]. exists before, after. auto.
Qed.

Lemma arrayIncludes_iff x arr : arrayIncludes x arr = true <-> x ∈ arr.
Proof.
  unfold arrayIncludes. rewrite existsb_exists. split.
  - intros (y & Hy & ->%bool_decide_eq_true). by apply list_elem_of_In.
  - intros H. exists x. split; [by apply list_elem_of_In|].
    by apply bool_decide_eq_true.
Qed.

Lemma isExcluded_iff excludeDirs path :
  isExcluded excludeDirs path = true <->
  exists dir, dir ∈ excludeDirs /\ wholeSegment dir path.
Proof.
  unfold isExcluded. rewrite existsb_exists. split.
  - intros (dir & Hin & H). exists dir. split; [by apply list_elem_of_In|].
    by apply split_wholeSegment, arrayIncludes_iff.
  - intros (dir & Hin & H). exists dir. split; [by apply list_elem_of_In|].
    by apply arrayIncludes_iff, split_wholeSegment.
Qed.
End Segments.

(** ** One route against its file *)

Section ProcessRoute.
Context (h : Host) (viewsDir : jsstring) (excludeDirs : list jsstring).
Implicit Types (w : World) (r : RouteItem).

Lemma processRoute_excluded w r :
  isExcluded excludeDirs (relativePath r) = true ->
  processRoute h viewsDir excludeDirs w r
  = emit (ConsoleLog (IgnoredComponent (relativePath r))) w.
Proof. intros H. unfold processRoute. by rewrite H. Qed.

Lemma processRoute_missing w r :
  isExcluded excludeDirs (relativePath r) = false ->
  files w !! vueFilePath h viewsDir (relativePath r) = None ->
  processRoute h viewsDir excludeDirs w r
  = emit (ConsoleWarn (FileNotFound (vueFilePath h viewsDir (relativePath r))))
      (emit (ExistsSync (vueFilePath h viewsDir (relativePath r))) w).
Proof.
  intros H1 H2. unfold processRoute. rewrite H1.
  cbn [emit files].
  by rewrite H2.
Qed.

Lemma processRoute_patched w r content :
  isExcluded excludeDirs (relativePath r) = false ->
  files w !! vueFilePath h viewsDir (relativePath r) = Some content ->
  let path := vueFilePath h viewsDir (relativePath r) in
  let patched := patchContent h (name r) content in
  files (processRoute h viewsDir excludeDirs w r) = <[path := patched.2]> (files w) /\
  trace (processRoute h viewsDir excludeDirs w r)
  = trace w ++ [ExistsSync path; ReadFileSync path; WriteFileSync path patched.2;
                ConsoleLog (if patched.1 then Processed path else ScriptSetupAdded path)].
Proof.
  intros H1 H2. cbv zeta. unfold processRoute. rewrite H1.
  cbn [emit files]. rewrite H2.
  destruct (patchContent h (name r) content) as [[|] newContent];
    cbn [emit writeFileSync files trace fst snd];
    (split; [done|]); by rewrite <- !app_assoc.
Qed.
End ProcessRoute.

(** ** Claims on the patcher *)

(** C5: a route is skipped for exclusion exactly when an excluded name is
    a whole slash-separated segment of its relative path; then no file is
    written, and otherwise the target file, when it exists, is written. *)
Theorem exclusion_is_whole_segment h viewsDir excludeDirs w r :
  let w' := processRoute h viewsDir excludeDirs w r in
  let path := vueFilePath h viewsDir (relativePath r) in
  let onSegment := exists dir, dir ∈ excludeDirs /\ wholeSegment dir (relativePath r) in
  (isExcluded excludeDirs (relativePath r) = true <-> onSegment) /\
  (onSegment ->
     files w' = files w /\
     trace w' = trace w ++ [ConsoleLog (IgnoredComponent (relativePath r))]) /\
  (~ onSegment ->
     forall content, files w !! path = Some content ->
       exists data, files w' !! path = Some data /\ WriteFileSync path data ∈ trace w').
Proof.
  cbv zeta. split; [apply isExcluded_iff|]. split.
  - intros H%isExcluded_iff. by rewrite processRoute_excluded.
  - intros H content Hc.
    assert (isExcluded excludeDirs (relativePath r) = false) as Hex.
    { destruct (isExcluded _ _) eqn:E; [|done]. by apply isExcluded_iff in E. }
    destruct (processRoute_patched h viewsDir excludeDirs w r content Hex Hc) as [Hf Ht].
    exists (patchContent h (name r) content).2. rewrite Hf, Ht. split.
    + apply lookup_insert_eq.
    + apply elem_of_app. right. apply list_elem_of_In. simpl. auto.
Qed.

(** The two paths of the specification: [error/404] is excluded by
    [error], [errorLogs/404] is not. *)
Example exclusion_examples :
  isExcluded [js "error"] (js "error/404") = true /\
  isExcluded [js "error"] (js "errorLogs/404") = false /\
  isExcluded [js "error"] (js "admin/error/index") = true.
Proof. done. Qed.

(** C10: when the content of the first script block contains the text
    [defineOptions] and no match of the call pattern, the script content is
    neither extended nor changed, and the file is still written, with the
    block rebuilt around the trimmed content; unless a substitution pattern
    of the rebuilt block expands, that block then holds no match of the
    call pattern either. *)
Theorem marker_without_call h viewsDir excludeDirs w r content m :
  let path := vueFilePath h viewsDir (relativePath r) in
  let w' := processRoute h viewsDir excludeDirs w r in
  let attrs := nth 0 (groups m) [] in
  let body := nth 1 (groups m) [] in
  let rebuilt :=
    js "<script" ++ attrs ++ js ">" ++ [newline] ++ trim body ++ [newline]
    ++ js "</script>" in
  isExcluded excludeDirs (relativePath r) = false ->
  files w !! path = Some content ->
  exec scriptRegex content = Some m ->
  includes marker body = true ->
  exec defineRegex body = None ->
  mutateScript h (name r) body = body /\
  files w' !! path = Some (JsString.replace (matched m) rebuilt content) /\
  WriteFileSync path (JsString.replace (matched m) rebuilt content) ∈ trace w' /\
  (noPattern rebuilt = true ->
     JsString.replace (matched m) rebuilt content
     = take (index m) content ++ rebuilt
       ++ drop (index m + length (matched m)) content
     /\ exec defineRegex ([newline] ++ trim body ++ [newline]) = None).
Proof.
  intros path w' attrs body rebuilt Hex Hc Hm Hinc Hno.
  destruct (processRoute_patched h viewsDir excludeDirs w r content Hex Hc) as [Hf Ht].
  assert (mutateScript h (name r) body = body) as Hmut
    by by apply mutateScript_nomatch.
  assert ((patchContent h (name r) content).2
          = JsString.replace (matched m) rebuilt content) as Hp.
  { unfold patchContent. rewrite Hm. cbn [snd]. fold attrs body. by rewrite Hmut. }
  split; [done|]. unfold w'. rewrite Hf, Ht, Hp. split; [apply lookup_insert_eq|].
  split.
  - apply elem_of_app. right. apply list_elem_of_In. simpl. auto.
  - intros Hclean. split; [|by apply nomatch_trim].
    destruct (exec_script_inv _ _ Hm) as (pre & attrs' & body' & post & Hs & ->).
    cbn [index matched groups nth] in *.
    rewrite (replace_block _ _ _ _ _ _ Hs).
    rewrite noPattern_getSubstitution by done.
    assert (content = pre ++ blockOf attrs' body' ++ post) as Hcontent.
    { destruct Hs as [-> _ _ _]. unfold blockOf. by rewrite <- !app_assoc. }
    rewrite Hcontent at 1 2. rewrite take_app_length.
    by rewrite drop_app_add, drop_app_length.
Qed.

Lemma marker_without_call_witness :
  let content := js "<script> /* defineOptions */ </script><template/>" in
  let w := Examples.diskWith (js "home.vue") content in
  let r := Examples.route (js "Home") (js "home") in
  let m := {| index := 0;
              matched := js "<script> /* defineOptions */ </script>";
              groups := [[]; js " /* defineOptions */ "] |} in
  let path := vueFilePath Examples.plainHost Examples.views (relativePath r) in
  let w' := processRoute Examples.plainHost Examples.views [] w r in
  let rebuilt := js "<script>" ++ [newline] ++ js "/* defineOptions */" ++ [newline]
                 ++ js "</script>" in
  (isExcluded [] (relativePath r) = false /\
   files w !! path = Some content /\
   exec scriptRegex content = Some m /\
   includes marker (js " /* defineOptions */ ") = true /\
   exec defineRegex (js " /* defineOptions */ ") = None) /\
  files w' !! path = Some (rebuilt ++ js "<template/>") /\
  exec defineRegex (rebuilt ++ js "<template/>") = None.
Proof.
  intros content w r m path w' rebuilt.
  assert (isExcluded [] (relativePath r) = false) as H1 by reflexivity.
  assert (files w !! path = Some content) as H2 by reflexivity.
  assert (exec scriptRegex content = Some m) as H3 by reflexivity.
  assert (includes marker (js " /* defineOptions */ ") = true) as H4 by reflexivity.
  assert (exec defineRegex (js " /* defineOptions */ ") = None) as H5 by reflexivity.
  split; [by repeat split|].
  destruct (marker_without_call Examples.plainHost Examples.views [] w r content m
              H1 H2 H3 H4 H5) as (_ & Hfile & _ & _).
  split; [exact Hfile|reflexivity].
Defined.

(** ** One file, several runs or several routes *)

Section Convergence.
Context (h : Host) (viewsDir : jsstring) (excludeDirs : list jsstring).
Implicit Types (w : World) (r : RouteItem) (content path : jsstring).

(** Patching a file that does not mention [defineOptions]: the first
    script block of the result holds the statement once. *)
Lemma fresh_patch_shape n content :
  cleanName n -> cleanFile content -> ~ occursIn marker content ->
  exists m P Q,
    exec scriptRegex (patchContent h n content).2 = Some m /\
    nth 1 (groups m) [] = P ++ defineLine n ++ Q /\
    ~ occursIn marker P /\ ~ occursIn marker Q.
Proof.
  intros (Hn1 & Hn2 & Hn3) Hclean Hfresh.
  assert (forall X, occursIn marker (newline :: X) -> occursIn marker X) as Hnl.
  { intros X H. apply (occursIn_sep marker [] newline X) in H as [H|H];
      [by apply occursIn_nil_inv in H|done|not_in_literal]. }
  destruct (exec scriptRegex content) as [m|] eqn:Hex.
  - destruct (exec_script_inv _ _ Hex) as (pre & attrs & body & post & Hs & ->).
    specialize (Hclean _ Hex). cbn [matched] in Hclean.
    destruct (split_noPattern _ _ _ _ _ Hs Hclean) as [Hpa Hpb].
    pose proof (split_noclose _ _ _ _ _ Hs) as Hnc.
    assert (~ occursIn marker body) as Hbody.
    { intros H. apply Hfresh. destruct Hs as [-> _ _ _].
      do 4 apply occursIn_app_r. by apply occursIn_app_l. }
    destruct (mutate_shape h body) as [[Hinc _]|(u & v & Hcut & Hq & Hmut)].
    { by apply includes_iff in Hinc. }
    destruct (cut_noPattern _ _ _ Hcut Hpb) as [Hpu Hpv].
    rewrite (patch_script_clean _ _ _ _ _ _ _ Hs); rewrite Hmut by done.
    2:{ apply noPattern_newScript, noPattern_trim; [done|].
        apply noPattern_app; [done| |by right; intros d b' [= <- _]].
        apply noPattern_app; [by apply noPattern_defineLine|done|].
        left. rewrite defineLine_ends, app_comm_cons, last_snoc. done. }
    cbn [snd].
    assert (ScriptSplit (pre ++ newScript attrs (u ++ defineLine n ++ v) ++ post)
              pre attrs
              ([newline] ++ trim (u ++ defineLine n ++ v) ++ [newline]) post) as Hs1.
    { apply (split_rebuilt _ _ _ _ _ _ Hs). intros H%occursIn_trim.
      revert H. apply noclose_sandwich; [| |done].
      - intros H. apply Hnc, (cut_occurs _ _ u v); [done|not_in_literal|done|by left].
      - intros H. apply Hnc, (cut_occurs _ _ u v); [done|not_in_literal|done|by right]. }
    rewrite (exec_script_intro _ _ _ _ _ Hs1).
    eexists _, (newline :: trimStart u), (trimEnd v ++ [newline]).
    split; [done|]. cbn [groups nth]. rewrite trim_defineLine.
    split; [assoc|]. split.
    + intros H%Hnl%occursIn_trimStart.
      apply Hbody, (cut_occurs _ _ u v); [done|not_in_literal|done|by left].
    + intros H. apply occursIn_sep in H as [H|H]; [| |not_in_literal].
      * apply occursIn_trimEnd in H.
        apply Hbody, (cut_occurs _ _ u v); [done|not_in_literal|done|by right].
      * by apply occursIn_nil_inv in H.
  - rewrite patchContent_noscript by done. cbn [snd].
    pose proof (scriptSetup_split n content Hn2) as Hs1.
    rewrite (exec_script_intro _ _ _ _ _ Hs1).
    eexists _, [newline], [newline]. split; [done|]. cbn [groups nth].
    assert (trim (defineLine n) = defineLine n) as ->.
    { pose proof (trim_defineLine [] n []) as H.
      rewrite app_nil_l, app_nil_r in H. rewrite H.
      unfold trimEnd. simpl. by rewrite app_nil_r. }
    split; [done|]. split; by intros ?%includes_iff.
Qed.

Lemma processRoute_other w r path :
  vueFilePath h viewsDir (relativePath r) <> path ->
  files (processRoute h viewsDir excludeDirs w r) !! path = files w !! path.
Proof.
  intros Hp. unfold processRoute.
  destruct (isExcluded excludeDirs (relativePath r)); [done|].
  cbn [emit files].
  destruct (files w !! vueFilePath h viewsDir (relativePath r)); [|done].
  destruct (patchContent h (name r) _) as [[|] newContent];
    cbn [emit writeFileSync files]; by rewrite lookup_insert_ne.
Qed.

(** The text of [path] after a sequence of routes, [cur] being its text
    before: the patch for the last route that targets it. *)
Lemma foldl_processRoute_path routes w path content cur :
  Forall (fun r => cleanName (name r)) routes ->
  cleanFile content ->
  files w !! path = Some cur ->
  cur = content \/ (exists n, cleanName n /\ cur = (patchContent h n content).2) ->
  files (foldl (processRoute h viewsDir excludeDirs) w routes) !! path
  = Some match last (List.filter (targets h viewsDir excludeDirs path) routes) with
         | Some r => (patchContent h (name r) content).2
         | None => cur
         end.
Proof.
  intros Hnames Hclean. revert w cur.
  induction Hnames as [|r routes Hr _ IH]; intros w cur Hw Hcur; [done|].
  cbn [foldl List.filter]. unfold targets at 1.
  destruct (isExcluded excludeDirs (relativePath r)) eqn:Hex; cbn [negb andb].
  { rewrite (IH _ cur); [done| |done]. by rewrite processRoute_excluded. }
  case_bool_decide as Hp.
  - subst path.
    destruct (processRoute_patched h viewsDir excludeDirs w r cur Hex Hw) as [Hf _].
    assert ((patchContent h (name r) cur).2 = (patchContent h (name r) content).2)
      as Hsame.
    { destruct Hcur as [->|(n & Hn & ->)]; [done|].
      destruct Hr as (Hr1 & Hr2 & Hr3). by apply patch_overwrite. }
    rewrite (IH _ (patchContent h (name r) content).2).
    + rewrite last_cons. by destruct (last _).
    + rewrite Hf, Hsame. apply lookup_insert_eq.
    + right. by exists (name r).
  - rewrite (IH _ cur); [done| |done]. by rewrite processRoute_other.
Qed.
End Convergence.

(** ** Claims on runs *)

(** C2, as stated, fails: for a file without script block and the route
    name [f({})], the call pattern matches the statement of the first run
    only up to the [)] inside the name, and the second run leaves the rest
    of the old statement behind the new one. *)
Lemma patch_idempotence_counterexample :
  ~ (forall h viewsDir excludeDirs w r,
       let once := processRoute h viewsDir excludeDirs w r in
       let twice := processRoute h viewsDir excludeDirs once r in
       files twice = files once).
Proof.
  intros H.
  specialize (H Examples.plainHost Examples.views []
                (Examples.diskWith (js "about.vue") (js "<template/>"))
                (Examples.route (js "f({})") (js "about"))).
  apply (f_equal (fun m => m !! js "/app/src/views/about.vue")) in H.
  vm_compute in H. discriminate H.
Qed.

(** C2, amended: for a route whose name has no [}], no [</script>] and no
    substitution pattern ([$$], [$&], [$`], [$']), and a target file whose
    first script block has no substitution pattern, processing the route a
    second time leaves every file as the first time left it. *)
Theorem patch_idempotent h viewsDir excludeDirs w r :
  let path := vueFilePath h viewsDir (relativePath r) in
  let once := processRoute h viewsDir excludeDirs w r in
  let twice := processRoute h viewsDir excludeDirs once r in
  cleanName (name r) ->
  (forall content, files w !! path = Some content -> cleanFile content) ->
  files twice = files once.
Proof.
  intros path once twice Hname Hclean. unfold twice, once.
  destruct (isExcluded excludeDirs (relativePath r)) eqn:Hex.
  { by rewrite !processRoute_excluded. }
  destruct (files w !! path) as [content|] eqn:Hc.
  - destruct (processRoute_patched h viewsDir excludeDirs w r content Hex Hc) as [Hf _].
    fold path in Hf.
    assert (files (processRoute h viewsDir excludeDirs w r) !! path
            = Some (patchContent h (name r) content).2) as Hc1.
    { rewrite Hf. apply lookup_insert_eq. }
    destruct (processRoute_patched h viewsDir excludeDirs _ r _ Hex Hc1) as [Hf2 _].
    rewrite Hf2. fold path. rewrite Hf, insert_insert_eq. f_equal.
    destruct Hname as (H1 & H2 & H3). apply patch_overwrite; [done|done|].
    by apply Hclean.
  - rewrite (processRoute_missing h viewsDir excludeDirs w r Hex Hc).
    by rewrite processRoute_missing.
Qed.

Lemma patch_idempotent_witness :
  let w := Scenario.disk in
  let r := Examples.route (js "UserList") (js "user/list.vue") in
  let path := vueFilePath Scenario.host Examples.views (relativePath r) in
  let once := processRoute Scenario.host Examples.views [] w r in
  let twice := processRoute Scenario.host Examples.views [] once r in
  (cleanName (name r) /\
   forall content, files w !! path = Some content -> cleanFile content) /\
  files twice = files once /\
  files once !! path = Some Examples.listVuePatched.
Proof.
  intros w r path once twice.
  assert (cleanName (name r)) as H1.
  { split; [by repeat constructor|]. split; [|reflexivity].
    apply includes_false. reflexivity. }
  assert (forall content, files w !! path = Some content -> cleanFile content) as H2.
  { intros content Hc m Hm. vm_compute in Hc. injection Hc as <-.
    vm_compute in Hm. injection Hm as <-. reflexivity. }
  split; [by split|]. split; [|reflexivity].
  exact (patch_idempotent Scenario.host Examples.views [] w r H1 H2).
Defined.

(** C1, as stated, fails: the statement is put after the line break that
    follows the import and brings a line break of its own, so an empty
    line separates the two. *)
Lemma scenario_counterexample :
  ~ (forall h w,
       importDeclarationEnds h Scenario.scriptText = [23] ->
       files w !! vueFilePath h (viewsDir Scenario.config) (js "user/list.vue")
       = Some Scenario.listVue ->
       matchedRoutes Scenario.routeFile
       = inr [Examples.route (js "UserList") (js "user/list.vue")] /\
       files (injectDefineOptions h Scenario.config Scenario.routeFile w)
         !! vueFilePath h (viewsDir Scenario.config) (js "user/list.vue")
       = Some Examples.listVueBySpec).
Proof.
  intros H.
  destruct (H Scenario.host Scenario.disk eq_refl eq_refl) as [_ Hfile].
  vm_compute in Hfile. discriminate Hfile.
Qed.

(** C1, amended: the run on the scenario matches the one route [UserList]
    with the relative path [user/list.vue], drops [Bad] without a message,
    and writes the file with the statement after the import and an empty
    line between the two. The parser is the host's: the import declaration
    of the script ends at offset 23, after its semicolon. *)
Theorem scenario_run h w :
  let path := vueFilePath h (viewsDir Scenario.config) (js "user/list.vue") in
  let w' := injectDefineOptions h Scenario.config Scenario.routeFile w in
  importDeclarationEnds h Scenario.scriptText = [23] ->
  files w !! path = Some Scenario.listVue ->
  matchedRoutes Scenario.routeFile
  = inr [Examples.route (js "UserList") (js "user/list.vue")] /\
  files w' = <[path := Examples.listVuePatched]> (files w) /\
  trace w' = trace w ++ [ExistsSync path; ReadFileSync path;
                         WriteFileSync path Examples.listVuePatched;
                         ConsoleLog (Processed path)].
Proof.
  intros path w' Hends Hfile. split; [reflexivity|].
  unfold w', injectDefineOptions.
  change (matchedRoutes Scenario.routeFile)
    with (inr (A := Message) [Examples.route (js "UserList") (js "user/list.vue")]).
  cbn [foldl].
  destruct (processRoute_patched h (viewsDir Scenario.config)
              (excludeDirs Scenario.config) w
              (Examples.route (js "UserList") (js "user/list.vue"))
              Scenario.listVue eq_refl Hfile) as [Hf Ht].
  assert (patchContent h (js "UserList") Scenario.listVue
          = (true, Examples.listVuePatched)) as Hp.
  { unfold patchContent.
    change (exec scriptRegex Scenario.listVue)
      with (Some {| index := 0; matched := Scenario.listVue;
                    groups := [[]; Scenario.scriptText] |}).
    cbn [groups matched nth]. unfold mutateScript.
    change (includes marker Scenario.scriptText) with false. cbv iota.
    rewrite Hends. reflexivity. }
  cbn [name relativePath Examples.route] in Hf, Ht. rewrite Hp in Hf, Ht.
  split; [exact Hf|exact Ht].
Qed.

Lemma scenario_run_witness :
  let path := vueFilePath Scenario.host (viewsDir Scenario.config) (js "user/list.vue") in
  let w' := injectDefineOptions Scenario.host Scenario.config Scenario.routeFile
              Scenario.disk in
  (importDeclarationEnds Scenario.host Scenario.scriptText = [23] /\
   files Scenario.disk !! path = Some Scenario.listVue) /\
  matchedRoutes Scenario.routeFile
  = inr [Examples.route (js "UserList") (js "user/list.vue")] /\
  files w' = <[path := Examples.listVuePatched]> (files Scenario.disk) /\
  trace w' = trace Scenario.disk
             ++ [ExistsSync path; ReadFileSync path;
                 WriteFileSync path Examples.listVuePatched;
                 ConsoleLog (Processed path)].
Proof.
  intros path w'.
  assert (importDeclarationEnds Scenario.host Scenario.scriptText = [23]) as H1
    by reflexivity.
  assert (files Scenario.disk !! path = Some Scenario.listVue) as H2 by reflexivity.
  split; [by split|].
  exact (scenario_run Scenario.host Scenario.disk H1 H2).
Defined.

(** ** Further properties of the patcher's two regexes *)

(** X1: the script regex matches exactly the files in which [<script] is
    followed, somewhere, by [>] and then, somewhere, by [</script>]; the
    text after [<script] need not be the rest of a tag, and an opening tag
    without a closing one is no match. *)
Theorem script_regex_matches_iff content :
  is_Some (exec scriptRegex content) <->
  exists pre attrs body post,
    content = pre ++ js "<script" ++ attrs ++ js ">" ++ body ++ js "</script>" ++ post.
Proof.
  split.
  - intros [m Hm]. destruct (exec_script_inv _ _ Hm) as (pre & attrs & body & post & Hs & _).
    exists pre, attrs, body, post. by destruct Hs.
  - intros (pre & attrs & body & post & ->).
    destruct (exec scriptRegex _) as [m|] eqn:E; [by eexists|exfalso].
    unfold exec in E. rewrite exec_from_None in E. specialize (E (length pre)).
    rewrite drop_app_length, match_script_at in E. unfold script_at in E.
    rewrite startsWith_app in E. rewrite drop_app_length' in E by done.
    destruct (skip_stops (notChar 62) attrs 62%N (body ++ js "</script>" ++ post) eq_refl)
      as (x & z2 & Hsk & Hx).
    change (js ">" ++ body ++ js "</script>" ++ post)
      with (62%N :: body ++ js "</script>" ++ post) in E.
    rewrite Hsk in E. unfold notChar in Hx. apply negb_false_iff in Hx.
    rewrite Hx in E.
    assert (is_Some (indexOf (js "</script>") (z2 ++ body ++ js "</script>" ++ post)))
      as [i Hi].
    { apply occursIn_indexOf, occursIn_app_r. by exists body, post. }
    rewrite Hi in E. discriminate E.
Qed.

(** X2: what the script regex captures is the first block: nothing before
    the match contains [<script], the attributes run to the first [>] and
    the content to the first [</script>] after it. *)
Theorem script_match_is_first_block content m :
  exec scriptRegex content = Some m ->
  exists attrs body,
    groups m = [attrs; body] /\
    matched m = js "<script" ++ attrs ++ js ">" ++ body ++ js "</script>" /\
    content = take (index m) content ++ matched m
              ++ drop (index m + length (matched m)) content /\
    ~ occursIn (js "<script") (take (index m) content) /\
    (62%N ∉ attrs) /\
    ~ occursIn (js "</script>") body.
Proof.
  intros Hm. destruct (exec_script_inv _ _ Hm) as (pre & attrs & body & post & Hs & ->).
  exists attrs, body. cbn [groups matched index].
  pose proof (split_noclose _ _ _ _ _ Hs) as Hnc.
  destruct Hs as [Heq Hfirst Ha Hb].
  assert (content = pre ++ blockOf attrs body ++ post) as Hc.
  { rewrite Heq. unfold blockOf. by rewrite <- !app_assoc. }
  assert (take (length pre) content = pre) as Htake
    by (rewrite Hc; apply take_app_length).
  split; [done|]. split; [done|]. split; [|split; [|split; [|done]]].
  - rewrite Htake. change (js "<script" ++ attrs ++ js ">" ++ body ++ js "</script>")
      with (blockOf attrs body).
    assert (drop (length pre + length (blockOf attrs body)) content = post) as ->.
    { rewrite Hc. by rewrite drop_app_add, drop_app_length. }
    exact Hc.
  - rewrite Htake. intros [j Hj]%occursIn_pos.
    pose proof (startsWith_length _ _ Hj) as Hlen. rewrite length_drop in Hlen.
    change (length (js "<script")) with 7 in Hlen.
    specialize (Hfirst j ltac:(lia)).
    rewrite startsWith_app_long in Hfirst; [congruence|].
    rewrite length_drop. change (length (js "<script")) with 7. lia.
  - intros Hin. rewrite Forall_forall in Ha. by specialize (Ha _ Hin).
Qed.

Lemma script_match_is_first_block_witness :
  let content :=
    js "<template/><script setup>a</script><script>b</script>" in
  let m := {| index := 11; matched := js "<script setup>a</script>";
              groups := [js " setup"; js "a"] |} in
  exec scriptRegex content = Some m /\
  exists attrs body,
    groups m = [attrs; body] /\
    matched m = js "<script" ++ attrs ++ js ">" ++ body ++ js "</script>" /\
    content = take (index m) content ++ matched m
              ++ drop (index m + length (matched m)) content /\
    ~ occursIn (js "<script") (take (index m) content) /\
    (62%N ∉ attrs) /\
    ~ occursIn (js "</script>") body.
Proof.
  intros content m.
  assert (exec scriptRegex content = Some m) as H by reflexivity.
  split; [exact H|]. exact (script_match_is_first_block content m H).
Defined.

(** ** Further properties of the patch *)

Lemma define_core_call ws1 ws2 args ws3 R :
  Forall (fun c => isWhiteSpace c = true) ws1 ->
  Forall (fun c => isWhiteSpace c = true) ws2 ->
  Forall (fun c => notChar 125 c = true) args ->
  Forall (fun c => isWhiteSpace c = true) ws3 ->
  define_core (marker ++ ws1 ++ js "(" ++ ws2 ++ js "{" ++ args ++ js "}"
               ++ ws3 ++ js ")" ++ R) = Some R.
Proof.
  intros H1 H2 Ha H3. unfold define_core.
  rewrite startsWith_app, (drop_app_length' marker) by done.
  change (js "(") with [40%N]. change (js "{") with [123%N].
  change (js "}") with [125%N]. change (js ")") with [41%N]. cbn [app].
  rewrite after_skip_all by done. rewrite after_skip_all by done.
  rewrite after_skip_all by done. by rewrite after_skip_all by done.
Qed.

(** A call in the script, with no [defineOptions] before it, is what the
    replacement regex matches first, with the white space and the
    semicolon behind it. *)
Lemma mutateScript_call h n P call R :
  ~ occursIn marker P -> isCall call -> noPattern n = true ->
  mutateScript h n (P ++ call ++ R) = P ++ defineLine n ++ define_tail R.
Proof.
  intros HP (ws1 & ws2 & args & ws3 & Hcall & H1 & H2 & Ha & H3) Hn.
  pose proof (define_core_call ws1 ws2 args ws3 R H1 H2 Ha H3) as Hcore.
  assert (marker ++ ws1 ++ js "(" ++ ws2 ++ js "{" ++ args ++ js "}"
          ++ ws3 ++ js ")" ++ R = call ++ R) as Heq by (rewrite Hcall; assoc).
  rewrite Heq in Hcore.
  destruct (define_tail_suffix R) as [k Hk].
  assert (call ++ R = (call ++ take k R) ++ define_tail R) as HR.
  { rewrite Hk, <- app_assoc. by rewrite take_drop. }
  rewrite HR in *. unfold mutateScript.
  assert (includes marker (P ++ (call ++ take k R) ++ define_tail R) = true) as ->.
  { apply includes_iff. exists P, (ws1 ++ js "(" ++ ws2 ++ js "{" ++ args ++ js "}"
                                     ++ ws3 ++ js ")" ++ take k R ++ define_tail R).
    rewrite Hcall. assoc. }
  unfold Regex.replace.
  rewrite (exec_define_intro P (call ++ take k R) (define_tail R) R); [| |done|done].
  - cbn [index matched]. rewrite take_app_length, drop_app_add, drop_app_length.
    by rewrite noPattern_getSubstitution by by apply noPattern_defineLine.
  - intros j Hj. unfold define_core.
    destruct (startsWith marker _) eqn:E; [exfalso|done].
    apply marker_before_tail in E as [_ E].
    + by apply HP, (occursIn_at _ _ j).
    + intros Hnil. apply (f_equal length) in Hnil.
      rewrite length_drop in Hnil. simpl in Hnil. lia.
    + by apply (define_core_isTail _ R).
Qed.

(** X3: a call [defineOptions ( { ... } )] in the script, with any white
    space around the parentheses and any argument text without [}], is
    replaced by the new statement when no [defineOptions] stands before
    it, even inside a longer identifier or a comment. The match also
    takes the white space after the [)] and one semicolon, so a line break
    that followed a call without semicolon is lost. *)
Theorem existing_call_is_replaced h n P ws1 ws2 args ws3 R :
  ~ occursIn marker P ->
  Forall (fun c => isWhiteSpace c = true) ws1 ->
  Forall (fun c => isWhiteSpace c = true) ws2 ->
  Forall (fun c => notChar 125 c = true) args ->
  Forall (fun c => isWhiteSpace c = true) ws3 ->
  noPattern n = true ->
  mutateScript h n
    (P ++ marker ++ ws1 ++ js "(" ++ ws2 ++ js "{" ++ args ++ js "}"
     ++ ws3 ++ js ")" ++ R)
  = P ++ defineLine n
    ++ match skip isWhiteSpace R with
       | c :: R' => if N.eqb c 59 then R' else c :: R'
       | [] => []
       end.
Proof.
  intros HP H1 H2 Ha H3 Hn. fold (define_tail R).
  assert (P ++ marker ++ ws1 ++ js "(" ++ ws2 ++ js "{" ++ args ++ js "}"
          ++ ws3 ++ js ")" ++ R
          = P ++ (marker ++ ws1 ++ js "(" ++ ws2 ++ js "{" ++ args ++ js "}"
                  ++ ws3 ++ js ")") ++ R) as -> by assoc.
  apply mutateScript_call; [done| |done]. by exists ws1, ws2, args, ws3.
Qed.

Lemma existing_call_is_replaced_witness :
  let P := js "const x = 1;" ++ [newline] ++ js "my" in
  let args := js "name:'Old',inheritAttrs:false" in
  let R := [newline] ++ js "const y = 2;" in
  (~ occursIn marker P /\
   Forall (fun c => isWhiteSpace c = true) (js " ") /\
   Forall (fun c => isWhiteSpace c = true) [] /\
   Forall (fun c => notChar 125 c = true) args /\
   Forall (fun c => isWhiteSpace c = true) [newline] /\
   noPattern (js "New") = true) /\
  mutateScript Examples.plainHost (js "New")
    (P ++ marker ++ js " " ++ js "(" ++ [] ++ js "{" ++ args ++ js "}"
     ++ [newline] ++ js ")" ++ R)
  = js "const x = 1;" ++ [newline] ++ js "my" ++ defineLine (js "New")
    ++ js "const y = 2;".
Proof.
  intros P args R.
  assert (~ occursIn marker P) as H0 by (apply includes_false; reflexivity).
  assert (Forall (fun c => isWhiteSpace c = true) (js " ")) as H1
    by by repeat constructor.
  assert (Forall (fun c => isWhiteSpace c = true) []) as H2 by constructor.
  assert (Forall (fun c => notChar 125 c = true) args) as H3
    by by repeat constructor.
  assert (Forall (fun c => isWhiteSpace c = true) [newline]) as H4
    by by repeat constructor.
  assert (noPattern (js "New") = true) as H5 by reflexivity.
  split; [by repeat split|].
  rewrite (existing_call_is_replaced Examples.plainHost (js "New") P (js " ") []
             args [newline] R H0 H1 H2 H3 H4 H5).
  reflexivity.
Defined.

(** X4: when the first script block does not mention [defineOptions] and
    neither it nor the name holds a substitution pattern, the file written
    keeps what is before and after the block and the attributes of the
    opening tag; the new content is the statement on a line of its own,
    first in the block when the parser reports no import declaration, and
    otherwise one code unit after the end of the last one (after the end
    of the script when that lies beyond it), trimmed at both ends. *)
Theorem statement_inserted_after_imports h n content m :
  let attrs := nth 0 (groups m) [] in
  let body := nth 1 (groups m) [] in
  exec scriptRegex content = Some m ->
  includes marker body = false ->
  noPattern (matched m) = true ->
  noPattern n = true ->
  (patchContent h n content).2
  = take (index m) content
    ++ js "<script" ++ attrs ++ js ">" ++ [newline]
    ++ match last (importDeclarationEnds h body) with
       | Some e =>
           trimStart (take (S e) body ++ [newline]) ++ defineLine n
           ++ trimEnd (newline :: drop (S e) body)
       | None => defineLine n ++ trimEnd (newline :: body)
       end
    ++ [newline] ++ js "</script>"
    ++ drop (index m + length (matched m)) content.
Proof.
  intros attrs body Hm Hinc Hclean Hn.
  destruct (exec_script_inv _ _ Hm) as (pre & attrs' & body' & post & Hs & ->).
  cbn [groups matched index nth] in *. subst attrs body.
  destruct (split_noPattern _ _ _ _ _ Hs Hclean) as [Hpa Hpb].
  assert (content = pre ++ blockOf attrs' body' ++ post) as Hc.
  { destruct Hs as [-> _ _ _]. unfold blockOf. by rewrite <- !app_assoc. }
  assert (take (length pre) content = pre) as ->
    by (rewrite Hc; apply take_app_length).
  assert (drop (length pre + length (blockOf attrs' body')) content = post) as ->.
  { rewrite Hc. by rewrite drop_app_add, drop_app_length. }
  assert (exists u v,
            cut body' u v /\
            mutateScript h n body' = u ++ defineLine n ++ v /\
            match last (importDeclarationEnds h body') with
            | Some e =>
                trimStart (take (S e) body' ++ [newline]) ++ defineLine n
                ++ trimEnd (newline :: drop (S e) body')
            | None => defineLine n ++ trimEnd (newline :: body')
            end = trimStart u ++ defineLine n ++ trimEnd v)
    as (u & v & Hcut & Hmut & ->).
  { unfold mutateScript. rewrite Hinc.
    destruct (last (importDeclarationEnds h body')) as [e|].
    - exists (take (S e) body' ++ [newline]), (newline :: drop (S e) body').
      split; [|split; [unfold slice_to, slice_from; assoc|done]].
      exists (take (S e) body'), [], (drop (S e) body').
      rewrite app_nil_l, take_drop. auto.
    - exists [], (newline :: body'). split; [|split; [assoc|done]].
      exists [], [], body'. auto. }
  destruct (cut_noPattern _ _ _ Hcut Hpb) as [Hpu Hpv].
  rewrite (patch_script_clean _ _ _ _ _ _ _ Hs); rewrite Hmut.
  - cbn [snd]. unfold newScript. rewrite trim_defineLine. assoc.
  - apply noPattern_newScript, noPattern_trim; [done|].
    apply noPattern_app; [done| |by right; intros d b' [= <- _]].
    apply noPattern_app; [by apply noPattern_defineLine|done|].
    left. rewrite defineLine_ends, app_comm_cons, last_snoc. done.
Qed.

Lemma statement_inserted_after_imports_witness :
  let content := js "<template/><script lang=ts>const a = 1;</script>" in
  let m := {| index := 11;
              matched := js "<script lang=ts>const a = 1;</script>";
              groups := [js " lang=ts"; js "const a = 1;"] |} in
  (exec scriptRegex content = Some m /\
   includes marker (js "const a = 1;") = false /\
   noPattern (matched m) = true /\
   noPattern (js "A") = true) /\
  (patchContent Examples.plainHost (js "A") content).2
  = js "<template/><script lang=ts>" ++ [newline] ++ defineLine (js "A")
    ++ [newline] ++ js "const a = 1;" ++ [newline] ++ js "</script>".
Proof.
  intros content m.
  assert (exec scriptRegex content = Some m) as H1 by reflexivity.
  assert (includes marker (js "const a = 1;") = false) as H2 by reflexivity.
  assert (noPattern (matched m) = true) as H3 by reflexivity.
  assert (noPattern (js "A") = true) as H4 by reflexivity.
  split; [by repeat split|].
  rewrite (statement_inserted_after_imports Examples.plainHost (js "A") content m
             H1 H2 H3 H4).
  reflexivity.
Defined.

(** X5: once a file has been patched for a name without [}], [</script>]
    and substitution pattern, its first script block mentions
    [defineOptions]: every later run takes the replacement branch, never
    the insertion branch, and never adds a second block. *)
Theorem patched_block_has_marker h n content :
  cleanName n -> cleanFile content ->
  exists m,
    exec scriptRegex (patchContent h n content).2 = Some m /\
    includes marker (nth 1 (groups m) []) = true.
Proof.
  intros (Hn1 & Hn2 & Hn3) Hclean.
  destruct (exec scriptRegex content) as [m|] eqn:Hex.
  - destruct (exec_script_inv _ _ Hex) as (pre & attrs & body & post & Hs & ->).
    specialize (Hclean _ Hex). cbn [matched] in Hclean.
    destruct (split_noPattern _ _ _ _ _ Hs Hclean) as [Hpa Hpb].
    pose proof (split_noclose _ _ _ _ _ Hs) as Hnc.
    destruct (mutate_shape h body) as [[Hinc Hno]|(u & v & Hcut & Hq & Hmut)].
    + rewrite (patch_script_clean _ _ _ _ _ _ _ Hs);
        rewrite mutateScript_nomatch by done;
        [|by apply noPattern_newScript, noPattern_trim].
      cbn [snd].
      assert (ScriptSplit (pre ++ newScript attrs body ++ post) pre attrs
                ([newline] ++ trim body ++ [newline]) post) as Hs1.
      { apply (split_rebuilt _ _ _ _ _ _ Hs). by intros ?%occursIn_trim. }
      rewrite (exec_script_intro _ _ _ _ _ Hs1). eexists. split; [done|].
      cbn [groups nth]. by apply marker_trim.
    + destruct (cut_noPattern _ _ _ Hcut Hpb) as [Hpu Hpv].
      rewrite (patch_script_clean _ _ _ _ _ _ _ Hs); rewrite Hmut by done.
      2:{ apply noPattern_newScript, noPattern_trim; [done|].
          apply noPattern_app; [done| |by right; intros d b' [= <- _]].
          apply noPattern_app; [by apply noPattern_defineLine|done|].
          left. rewrite defineLine_ends, app_comm_cons, last_snoc. done. }
      cbn [snd].
      assert (ScriptSplit (pre ++ newScript attrs (u ++ defineLine n ++ v) ++ post)
                pre attrs
                ([newline] ++ trim (u ++ defineLine n ++ v) ++ [newline]) post) as Hs1.
      { apply (split_rebuilt _ _ _ _ _ _ Hs). intros H%occursIn_trim.
        revert H. apply noclose_sandwich; [| |done].
        - intros H. apply Hnc, (cut_occurs _ _ u v); [done|not_in_literal|done|by left].
        - intros H. apply Hnc, (cut_occurs _ _ u v); [done|not_in_literal|done|by right]. }
      rewrite (exec_script_intro _ _ _ _ _ Hs1). eexists. split; [done|].
      cbn [groups nth]. rewrite trim_defineLine.
      assert ([newline] ++ (trimStart u ++ defineLine n ++ trimEnd v) ++ [newline]
              = (newline :: trimStart u) ++ defineLine n ++ (trimEnd v ++ [newline]))
        as -> by assoc.
      apply includes_defineLine.
  - rewrite patchContent_noscript by done. cbn [snd].
    pose proof (scriptSetup_split n content Hn2) as Hs1.
    rewrite (exec_script_intro _ _ _ _ _ Hs1). eexists. split; [done|].
    cbn [groups nth].
    assert (trim (defineLine n) = defineLine n) as ->.
    { pose proof (trim_defineLine [] n []) as H.
      rewrite app_nil_l, app_nil_r in H. rewrite H.
      unfold trimEnd. simpl. by rewrite app_nil_r. }
    apply (includes_defineLine [newline] n [newline]).
Qed.

Lemma patched_block_has_marker_witness :
  let content := js "<script>const a = 1;</script>" in
  (cleanName (js "A") /\ cleanFile content) /\
  exists m,
    exec scriptRegex (patchContent Examples.plainHost (js "A") content).2 = Some m /\
    includes marker (nth 1 (groups m) []) = true.
Proof.
  intros content.
  assert (cleanName (js "A")) as H1.
  { split; [by repeat constructor|]. split; [|reflexivity].
    apply includes_false. reflexivity. }
  assert (cleanFile content) as H2.
  { intros m Hm. vm_compute in Hm. injection Hm as <-. reflexivity. }
  split; [by split|].
  exact (patched_block_has_marker Examples.plainHost (js "A") content H1 H2).
Defined.

Lemma getSubstitution_plain_app m bf af x t :
  36%N ∉ x ->
  getSubstitution m bf af (x ++ t) = x ++ getSubstitution m bf af t.
Proof.
  induction x as [|c x IH]; [done|]. intros Hx.
  apply not_elem_of_cons in Hx as [Hc Hx]. cbn [app getSubstitution].
  rewrite (IH Hx). destruct (N.eqb_spec c 36) as [->|]; [done|done].
Qed.

Lemma plain_no_dollar x :
  Forall (fun c => isPlain c = true) x -> 36%N ∉ x.
Proof.
  intros H Hin. rewrite Forall_forall in H. by specialize (H _ Hin).
Qed.

Lemma plain_noPattern x :
  Forall (fun c => isPlain c = true) x -> noPattern x = true.
Proof.
  induction 1 as [|c x Hc _ IH]; [done|]. cbn [noPattern]. rewrite IH, andb_true_r.
  destruct (N.eqb_spec c 36) as [->|]; [done|done].
Qed.

Lemma plain_no_brace x :
  Forall (fun c => isPlain c = true) x -> Forall (fun c => notChar 125 c = true) x.
Proof.
  intros H. eapply Forall_impl; [exact H|]. intros c Hc. unfold isPlain in Hc.
  by apply andb_true_iff in Hc as [_ ?].
Qed.

Lemma getSubstitution_defineLine_dollars m bf af a b :
  Forall (fun c => isPlain c = true) a ->
  Forall (fun c => isPlain c = true) b ->
  getSubstitution m bf af (defineLine (a ++ js "$$" ++ b))
  = defineLine (a ++ js "$" ++ b).
Proof.
  intros Ha Hb. unfold defineLine.
  assert (js "defineOptions({ name: " ++ [dquote] ++ (a ++ js "$$" ++ b)
          ++ [dquote] ++ js " });"
          = (js "defineOptions({ name: " ++ [dquote] ++ a)
            ++ 36%N :: 36%N :: b ++ ([dquote] ++ js " });")) as -> by assoc.
  rewrite getSubstitution_plain_app.
  2:{ rewrite app_assoc.
      intros [H|H]%elem_of_app; [revert H; not_in_literal|].
      by apply (plain_no_dollar a Ha). }
  change (getSubstitution m bf af (36%N :: 36%N :: b ++ [dquote] ++ js " });"))
    with (36%N :: getSubstitution m bf af (b ++ [dquote] ++ js " });")).
  rewrite getSubstitution_plain_app by by apply plain_no_dollar.
  change (getSubstitution m bf af ([dquote] ++ js " });"))
    with ([dquote] ++ js " });").
  assoc.
Qed.

(** X6: the replacement branch hands the statement to [String.replace] as
    replacement text, so the name is not written as it is: for a file
    without [<script] and a name with [$$] between plain texts, the first
    run writes the name unchanged and the second run rewrites it with a
    single [$]. *)
Theorem dollar_pair_is_halved_by_second_run h a b content :
  let n := a ++ js "$$" ++ b in
  let n' := a ++ js "$" ++ b in
  Forall (fun c => isPlain c = true) a ->
  Forall (fun c => isPlain c = true) b ->
  ~ occursIn (js "</script>") a -> ~ occursIn (js "</script>") b ->
  ~ occursIn (js "<script") content ->
  (patchContent h n content).2 = scriptSetup n ++ content /\
  (patchContent h n (scriptSetup n ++ content)).2 = scriptSetup n' ++ content.
Proof.
  intros n n' Ha Hb Hca Hcb Hno.
  rewrite (patchContent_noscript h n content) by by apply exec_script_None.
  split; [done|].
  assert (~ occursIn (js "</script>") n) as Hcn.
  { unfold n. intros H. change (js "$$" ++ b) with (36%N :: 36%N :: b) in H.
    apply occursIn_sep in H as [H|H]; [done| |not_in_literal].
    apply (occursIn_sep _ [] 36%N b) in H as [H|H]; [|done|not_in_literal].
    by apply occursIn_nil_inv in H. }
  assert (Forall (fun c => notChar 125 c = true) n) as Hbn.
  { unfold n. apply Forall_app. split; [by apply plain_no_brace|].
    apply Forall_app. split; [by repeat constructor|by apply plain_no_brace]. }
  assert (noPattern n' = true) as Hpn'.
  { unfold n'. apply noPattern_app; [by apply plain_noPattern| |].
    - change (js "$" ++ b) with (36%N :: b). cbn [noPattern].
      change (N.eqb 36 36) with true. cbv iota.
      rewrite (plain_noPattern b Hb), andb_true_r.
      destruct Hb as [|c b Hc _]; [done|]. unfold isPlain in Hc.
      by apply andb_true_iff in Hc as [-> _].
    - left. intros Hl%last_Some_elem_of. by apply (plain_no_dollar a Ha). }
  pose proof (scriptSetup_split n content Hcn) as Hs.
  assert (trim (defineLine n) = defineLine n) as Ht.
  { pose proof (trim_defineLine [] n []) as H.
    rewrite app_nil_l, app_nil_r in H. rewrite H.
    unfold trimEnd. simpl. by rewrite app_nil_r. }
  rewrite Ht in Hs.
  assert (mutateScript h n ([newline] ++ defineLine n ++ [newline])
          = [newline] ++ defineLine n' ++ [newline]) as Hmut.
  { unfold mutateScript. rewrite includes_defineLine. unfold Regex.replace.
    rewrite (exec_define_intro [newline] (defineLine n) [newline] (59%N :: [newline]));
      [|by intros [|j] Hj; [|simpl in Hj; lia]
       |by apply define_core_defineLine|done].
    cbn [index matched]. rewrite take_app_length, drop_app_add, drop_app_length.
    unfold n, n'. by rewrite getSubstitution_defineLine_dollars. }
  rewrite (patchContent_script _ _ _ _ _ _ _ Hs). rewrite Hmut. cbn [snd].
  assert (trim ([newline] ++ defineLine n' ++ [newline]) = defineLine n') as Ht'.
  { rewrite trim_defineLine.
    change (trimStart [newline]) with (@nil N).
    change (trimEnd [newline]) with (@nil N). by rewrite app_nil_r. }
  rewrite noPattern_getSubstitution.
  - unfold newScript, scriptSetup. rewrite Ht'. assoc.
  - apply noPattern_newScript; [done|]. rewrite Ht'. by apply noPattern_defineLine.
Qed.

Lemma dollar_pair_is_halved_by_second_run_witness :
  let content := js "<template/>" in
  (Forall (fun c => isPlain c = true) (js "Cost") /\
   Forall (fun c => isPlain c = true) (js "Page") /\
   ~ occursIn (js "</script>") (js "Cost") /\
   ~ occursIn (js "</script>") (js "Page") /\
   ~ occursIn (js "<script") content) /\
  (patchContent Examples.plainHost (js "Cost$$Page") content).2
  = scriptSetup (js "Cost$$Page") ++ content /\
  (patchContent Examples.plainHost (js "Cost$$Page")
     (scriptSetup (js "Cost$$Page") ++ content)).2
  = scriptSetup (js "Cost$Page") ++ content.
Proof.
  intros content.
  assert (Forall (fun c => isPlain c = true) (js "Cost")) as H1
    by by repeat constructor.
  assert (Forall (fun c => isPlain c = true) (js "Page")) as H2
    by by repeat constructor.
  assert (~ occursIn (js "</script>") (js "Cost")) as H3
    by (apply includes_false; reflexivity).
  assert (~ occursIn (js "</script>") (js "Page")) as H4
    by (apply includes_false; reflexivity).
  assert (~ occursIn (js "<script") content) as H5
    by (apply includes_false; reflexivity).
  split; [by repeat split|].
  exact (dollar_pair_is_halved_by_second_run Examples.plainHost (js "Cost") (js "Page")
           content H1 H2 H3 H4 H5).
Defined.

(** ** Further properties of the run *)

Section Run.
Context (h : Host) (viewsDir : jsstring) (excludeDirs : list jsstring).
Implicit Types (w : World) (r : RouteItem) (routes : list RouteItem).

Lemma processRoute_dom w r :
  dom (files (processRoute h viewsDir excludeDirs w r)) = dom (files w).
Proof.
  unfold processRoute.
  destruct (isExcluded excludeDirs (relativePath r)); [done|].
  cbn [emit files].
  destruct (files w !! vueFilePath h viewsDir (relativePath r)) as [content|] eqn:E;
    [|done].
  assert (vueFilePath h viewsDir (relativePath r) ∈ dom (files w)) as Hin
    by (apply elem_of_dom; eauto).
  destruct (patchContent h (name r) content) as [[|] newContent];
    cbn [emit writeFileSync files]; rewrite dom_insert_L;
    by apply subseteq_union_1_L, singleton_subseteq_l.
Qed.

Lemma foldl_processRoute_dom routes w :
  dom (files (foldl (processRoute h viewsDir excludeDirs) w routes)) = dom (files w).
Proof.
  revert w. induction routes as [|r routes IH]; intros w; [done|].
  cbn [foldl]. by rewrite IH, processRoute_dom.
Qed.

Lemma foldl_processRoute_untargeted routes w path :
  Forall (fun r => targets h viewsDir excludeDirs path r = false) routes ->
  files (foldl (processRoute h viewsDir excludeDirs) w routes) !! path
  = files w !! path.
Proof.
  intros H. revert w. induction H as [|r routes Hr _ IH]; intros w; [done|].
  cbn [foldl]. rewrite IH. unfold targets in Hr.
  destruct (isExcluded excludeDirs (relativePath r)) eqn:Hex.
  - by rewrite processRoute_excluded.
  - cbn [negb andb] in Hr. apply bool_decide_eq_false in Hr.
    by apply processRoute_other.
Qed.

End Run.

(** X7: the run neither creates nor deletes a file: whatever the route
    file and the options are, the paths on the disk are the same after the
    run; a component file that is missing stays missing. *)
Theorem run_keeps_file_set h config sf w :
  dom (files (injectDefineOptions h config sf w)) = dom (files w).
Proof.
  unfold injectDefineOptions. destruct (matchedRoutes sf) as [err|[|r routes]];
    [done|done|]. apply foldl_processRoute_dom.
Qed.

(** X8: the run leaves every file alone that is not the component file
    of a matched route outside the excluded directories. *)
Theorem run_touches_only_targets h config sf w path :
  (forall routes r,
      matchedRoutes sf = inr routes -> r ∈ routes ->
      targets h (viewsDir config) (excludeDirs config) path r = false) ->
  files (injectDefineOptions h config sf w) !! path = files w !! path.
Proof.
  intros H. unfold injectDefineOptions.
  destruct (matchedRoutes sf) as [err|[|r routes]] eqn:E; [done|done|].
  apply foldl_processRoute_untargeted. apply Forall_forall. intros r' Hr'.
  by apply (H (r :: routes)).
Qed.

Lemma run_touches_only_targets_witness :
  let h := Scenario.host in
  let w := {| files := {[ Scenario.listVuePath := Scenario.listVue;
                          js "/app/src/views/other.vue" := js "<template/>" ]};
              trace := [] |} in
  let path := js "/app/src/views/other.vue" in
  (forall routes r,
      matchedRoutes Scenario.routeFile = inr routes -> r ∈ routes ->
      targets h (viewsDir Scenario.config) (excludeDirs Scenario.config) path r = false) /\
  files (injectDefineOptions h Scenario.config Scenario.routeFile w) !! path
  = files w !! path.
Proof.
  intros h w path.
  assert (forall routes r,
             matchedRoutes Scenario.routeFile = inr routes -> r ∈ routes ->
             targets h (viewsDir Scenario.config) (excludeDirs Scenario.config) path r
             = false) as H.
  { intros routes r Hm Hr. injection Hm as <-.
    apply list_elem_of_singleton in Hr as ->. reflexivity. }
  split; [exact H|].
  exact (run_touches_only_targets h Scenario.config Scenario.routeFile w path H).
Defined.

(** X9: running the tool a second time with the same route file and
    options leaves every file as the first run left it, when the names of
    the matched routes have no [}], no [</script>] and no substitution
    pattern and no first script block on the disk has such a pattern. *)
Theorem run_idempotent h config sf w :
  (forall routes, matchedRoutes sf = inr routes ->
                  Forall (fun r => cleanName (name r)) routes) ->
  (forall path content, files w !! path = Some content -> cleanFile content) ->
  files (injectDefineOptions h config sf (injectDefineOptions h config sf w))
  = files (injectDefineOptions h config sf w).
Proof.
  intros Hnames Hclean. unfold injectDefineOptions.
  destruct (matchedRoutes sf) as [err|[|r0 routes0]] eqn:E; [done|done|].
  specialize (Hnames _ eq_refl). set (routes := r0 :: routes0) in *.
  apply map_eq. intros path.
  destruct (files w !! path) as [content|] eqn:Hc.
  - pose proof (foldl_processRoute_path h (viewsDir config) (excludeDirs config)
                  routes w path content content Hnames (Hclean _ _ Hc) Hc
                  (or_introl eq_refl)) as H1.
    rewrite H1.
    rewrite (foldl_processRoute_path h (viewsDir config) (excludeDirs config)
               routes _ path content _ Hnames (Hclean _ _ Hc) H1).
    + by destruct (last _).
    + destruct (last _) as [r|] eqn:Hlast; [right|by left].
      exists (name r). split; [|done].
      apply last_Some_elem_of, list_elem_of_In, filter_In in Hlast as [Hin _].
      rewrite Forall_forall in Hnames. by apply Hnames, list_elem_of_In.
  - assert (forall w', dom (files w') = dom (files w) -> files w' !! path = None)
      as Hnone.
    { intros w' Hd. apply not_elem_of_dom. rewrite Hd. by apply not_elem_of_dom. }
    rewrite !Hnone; [done| |].
    + apply foldl_processRoute_dom.
    + by rewrite !foldl_processRoute_dom.
Qed.

Lemma run_idempotent_witness :
  let h := Scenario.host in
  let w := Scenario.disk in
  ((forall routes, matchedRoutes Scenario.routeFile = inr routes ->
                   Forall (fun r => cleanName (name r)) routes) /\
   (forall path content, files w !! path = Some content -> cleanFile content)) /\
  files (injectDefineOptions h Scenario.config Scenario.routeFile
           (injectDefineOptions h Scenario.config Scenario.routeFile w))
  = files (injectDefineOptions h Scenario.config Scenario.routeFile w).
Proof.
  intros h w.
  assert (forall routes, matchedRoutes Scenario.routeFile = inr routes ->
                         Forall (fun r => cleanName (name r)) routes) as H1.
  { intros routes Hm. injection Hm as <-. constructor; [|constructor].
    split; [by repeat constructor|].
    split; [apply includes_false; reflexivity|reflexivity]. }
  assert (forall path content, files w !! path = Some content -> cleanFile content)
    as H2.
  { intros path content Hc. unfold w, Scenario.disk in Hc. cbn [files] in Hc.
    apply lookup_singleton_Some in Hc as [_ <-].
    intros m Hm. vm_compute in Hm. injection Hm as <-. reflexivity. }
  split; [by split|].
  exact (run_idempotent h Scenario.config Scenario.routeFile w H1 H2).
Defined.

(** ** Further properties of the paths *)

(** X12: an excluded name with a slash in it excludes nothing: the names
    are compared with single segments of the relative path, never with a
    nested directory. *)
Theorem nested_exclude_never_matches excludeDirs relativePath :
  Forall (fun dir => 47%N ∈ dir) excludeDirs ->
  isExcluded excludeDirs relativePath = false.
Proof.
  intros H. destruct (isExcluded excludeDirs relativePath) eqn:E; [exfalso|done].
  apply isExcluded_iff in E as (dir & Hin & Hseg & _).
  rewrite Forall_forall in H. by apply Hseg, H.
Qed.

Lemma nested_exclude_never_matches_witness :
  Forall (fun dir => 47%N ∈ dir) [js "admin/error"] /\
  isExcluded [js "admin/error"] (js "admin/error/index") = false.
Proof.
  assert (Forall (fun dir => 47%N ∈ dir) [js "admin/error"]) as H.
  { repeat constructor. }
  split; [exact H|].
  exact (nested_exclude_never_matches [js "admin/error"] (js "admin/error/index") H).
Defined.

Lemma endsWith_app p s : endsWith s (p ++ s) = true.
Proof. unfold endsWith. rewrite rev_app_distr. apply startsWith_app. Qed.

(** X13: the file handed to [path.join] always ends in [.vue], and it is
    the relative path itself when that already does; so a route that
    imports [x] and one that imports [x.vue] have the same component file,
    and no path gets the extension twice. *)
Theorem target_has_vue_extension h viewsDir relativePath :
  (exists file,
      vueFilePath h viewsDir relativePath = path_join h viewsDir file /\
      endsWith (js ".vue") file = true /\
      (file = relativePath \/
       endsWith (js ".vue") relativePath = false /\ file = relativePath ++ js ".vue")) /\
  (endsWith (js ".vue") relativePath = false ->
   vueFilePath h viewsDir (relativePath ++ js ".vue")
   = vueFilePath h viewsDir relativePath).
Proof.
  unfold vueFilePath. split.
  - destruct (endsWith (js ".vue") relativePath) eqn:E.
    + exists relativePath. auto.
    + exists (relativePath ++ js ".vue"). rewrite endsWith_app. auto.
  - intros ->. by rewrite endsWith_app.
Qed.

Lemma target_has_vue_extension_witness :
  endsWith (js ".vue") (js "user/list") = false /\
  vueFilePath Examples.plainHost (js "/app/src/views") (js "user/list" ++ js ".vue")
  = vueFilePath Examples.plainHost (js "/app/src/views") (js "user/list").
Proof.
  assert (endsWith (js ".vue") (js "user/list") = false) as H by reflexivity.
  split; [exact H|].
  exact (proj2 (target_has_vue_extension Examples.plainHost
                  (js "/app/src/views") (js "user/list")) H).
Defined.

(** ** Further properties of the extractor *)

Lemma getFirstDescendantByKind_None k n :
  getFirstDescendantByKind k n = None <->
  forall d, d ∈ getDescendants n -> getKind d <> k.
Proof.
  unfold getFirstDescendantByKind, getDescendantsOfKind.
  induction (getDescendants n) as [|x l IH]; cbn [List.filter].
  - split; [by intros _ d ?%elem_of_nil|done].
  - unfold isKind at 1. case_bool_decide as Hk.
    + split; [done|]. intros H. exfalso. apply (H x); [left|done].
    + rewrite IH. split.
      * intros H d [->|Hd]%elem_of_cons; [done|by apply H].
      * intros H d Hd. apply H. by right.
Qed.

Lemma getFirstDescendantByKind_kind k n d :
  getFirstDescendantByKind k n = Some d -> getKind d = k.
Proof.
  unfold getFirstDescendantByKind, getDescendantsOfKind.
  induction (getDescendants n) as [|x l IH]; cbn [List.filter]; [done|].
  unfold isKind at 1. case_bool_decide as Hk; [|done].
  by intros [= <-].
Qed.

(** X14: the error of the run tells its cause: "no export default" is
    reported exactly when no node of the file is an export assignment, and
    "not an array expression" exactly when the expression of the first
    export assignment is none of the three resolvable forms. *)
Theorem error_message_tells_cause sf :
  (matchedRoutes sf = inl NoExportDefault <->
   forall n, n ∈ getDescendants (root sf) ->
             getKind n <> SyntaxKind.ExportAssignment) /\
  (matchedRoutes sf = inl NotAnArrayExpression <->
   exists equals e,
     getFirstDescendantByKind SyntaxKind.ExportAssignment (root sf)
     = Some (ExportAssignment equals e) /\
     forall es, ~ resolvable sf e es).
Proof.
  unfold matchedRoutes.
  destruct (getFirstDescendantByKind SyntaxKind.ExportAssignment (root sf))
    as [d|] eqn:E.
  - pose proof (getFirstDescendantByKind_kind _ _ _ E) as Hk.
    destruct d; try discriminate Hk.
    assert (~ forall n, n ∈ getDescendants (root sf) ->
                        getKind n <> SyntaxKind.ExportAssignment) as Hsome.
    { intros H%getFirstDescendantByKind_None. congruence. }
    destruct (resolveRouteArray sf d) as [es|] eqn:Hr.
    + split; split; try done.
      intros (equals & e & [= _ <-] & Hno). by apply resolveRouteArray_iff, Hno in Hr.
    + split; split; try done. intros _. exists isExportEquals, d. split; [done|].
      intros es Hres%resolveRouteArray_iff. congruence.
  - split; split; try done.
    + intros _. by apply getFirstDescendantByKind_None.
    + by intros (equals & e & [=] & _).
Qed.

(** ** UTF-8: facts *)

Section Utf8Facts.
Import Utf8.
Local Open Scope N_scope.

Lemma bytesOf_two b0 b1 :
  inRange 194 223 b0 = true -> isContinuation b1 = true ->
  let cp := (b0 - 192) * 64 + (b1 - 128) in
  isHighSurrogate cp = false /\ isLowSurrogate cp = false /\ bytesOf cp = [b0; b1].
Proof.
  intros H0 H1 cp. unbool.
  assert (128 <= cp < 2048) as Hcp by (unfold cp; lia).
  unfold isHighSurrogate, isLowSurrogate, inRange, bytesOf.
  rewrite (proj2 (N.leb_gt 55296 cp)) by lia.
  rewrite (proj2 (N.leb_gt 56320 cp)) by lia.
  rewrite (proj2 (N.ltb_ge cp 128)) by lia.
  rewrite (proj2 (N.ltb_lt cp 2048)) by lia.
  repeat split. f_equal; [|f_equal]; unfold cp; divlia.
Qed.

Lemma bytesOf_three b0 b1 b2 :
  inRange 224 239 b0 = true ->
  inRange (if N.eqb b0 224 then 160 else 128) (if N.eqb b0 237 then 159 else 191) b1
    = true ->
  isContinuation b2 = true ->
  let cp := (b0 - 224) * 4096 + (b1 - 128) * 64 + (b2 - 128) in
  isHighSurrogate cp = false /\ isLowSurrogate cp = false /\
  bytesOf cp = [b0; b1; b2].
Proof.
  intros H0 H1 H2 cp.
  assert (2048 <= cp < 65536 /\ (cp < 55296 \/ 57343 < cp)) as [Hcp Hs].
  { unfold cp. destruct (N.eqb b0 224) eqn:E1; destruct (N.eqb b0 237) eqn:E2;
      cbv iota in H1; unbool; lia. }
  assert (128 <= b1 < 192 /\ 128 <= b2 < 192 /\ 224 <= b0) as (Hb1 & Hb2 & Hb0).
  { destruct (N.eqb b0 224); destruct (N.eqb b0 237); cbv iota in H1; unbool; lia. }
  clear H0 H1 H2.
  unfold isHighSurrogate, isLowSurrogate, inRange, bytesOf.
  rewrite (proj2 (N.ltb_ge cp 128)) by lia.
  rewrite (proj2 (N.ltb_ge cp 2048)) by lia.
  rewrite (proj2 (N.ltb_lt cp 65536)) by lia.
  repeat split.
  - apply andb_false_iff. destruct Hs; [left; apply N.leb_gt|right; apply N.leb_gt]; lia.
  - apply andb_false_iff. destruct Hs; [left; apply N.leb_gt|right; apply N.leb_gt]; lia.
  - f_equal; [|f_equal; [|f_equal]]; unfold cp; divlia.
Qed.

Lemma bytesOf_four b0 b1 b2 b3 :
  inRange 240 244 b0 = true ->
  inRange (if N.eqb b0 240 then 144 else 128) (if N.eqb b0 244 then 143 else 191) b1
    = true ->
  isContinuation b2 = true -> isContinuation b3 = true ->
  let cp := (b0 - 240) * 262144 + (b1 - 128) * 4096 + (b2 - 128) * 64 + (b3 - 128) in
  exists hi lo,
    unitsOf cp = [hi; lo] /\
    isHighSurrogate hi = true /\ isLowSurrogate lo = true /\
    bytesOf (65536 + (hi - 55296) * 1024 + (lo - 56320)) = [b0; b1; b2; b3].
Proof.
  intros H0 H1 H2 H3 cp.
  assert (65536 <= cp < 1114112) as Hcp.
  { unfold cp. destruct (N.eqb b0 240) eqn:E1; destruct (N.eqb b0 244) eqn:E2;
      cbv iota in H1; unbool; lia. }
  assert (128 <= b1 < 192 /\ 128 <= b2 < 192 /\ 128 <= b3 < 192 /\ 240 <= b0)
    as (Hb1 & Hb2 & Hb3 & Hb0).
  { destruct (N.eqb b0 240); destruct (N.eqb b0 244); cbv iota in H1; unbool; lia. }
  clear H0 H1 H2 H3.
  exists (55296 + (cp - 65536) / 1024), (56320 + (cp - 65536) mod 1024).
  assert ((cp - 65536) / 1024 < 1024) as Hq by divlia.
  assert ((cp - 65536) mod 1024 < 1024) as Hr by divlia.
  split; [|split; [|split]].
  - unfold unitsOf. by rewrite (proj2 (N.ltb_ge cp 65536)) by lia.
  - unfold isHighSurrogate, inRange. apply andb_true_iff.
    split; apply N.leb_le; clearbody cp; divlia.
  - unfold isLowSurrogate, inRange. apply andb_true_iff.
    split; apply N.leb_le; clearbody cp; divlia.
  - assert (65536 + (55296 + (cp - 65536) / 1024 - 55296) * 1024
            + (56320 + (cp - 65536) mod 1024 - 56320) = cp) as -> by divlia.
    unfold bytesOf.
    rewrite (proj2 (N.ltb_ge cp 128)) by lia.
    rewrite (proj2 (N.ltb_ge cp 2048)) by lia.
    rewrite (proj2 (N.ltb_ge cp 65536)) by lia.
    f_equal; [|f_equal; [|f_equal; [|f_equal]]]; unfold cp; divlia.
Qed.

Lemma encode_unit c s :
  isHighSurrogate c = false -> isLowSurrogate c = false ->
  encode (c :: s) = bytesOf c ++ encode s.
Proof. intros H1 H2. cbn [encode]. by rewrite H1, H2. Qed.

Lemma encode_pair hi lo s :
  isHighSurrogate hi = true -> isLowSurrogate lo = true ->
  encode (hi :: lo :: s)
  = bytesOf (65536 + (hi - 55296) * 1024 + (lo - 56320)) ++ encode s.
Proof. intros H1 H2. cbn [encode]. by rewrite H1, H2. Qed.

Lemma encode_ascii c s : c < 128 -> encode (c :: s) = c :: encode s.
Proof.
  intros H. rewrite encode_unit.
  - unfold bytesOf. by rewrite (proj2 (N.ltb_lt c 128)).
  - unfold isHighSurrogate, inRange. apply andb_false_iff. left. apply N.leb_gt. lia.
  - unfold isLowSurrogate, inRange. apply andb_false_iff. left. apply N.leb_gt. lia.
Qed.

(** A well-formed file is read and written back byte for byte. *)
Lemma encode_decode bs : valid bs = true -> encode (decode bs) = bs.
Proof.
  remember (length bs) as n eqn:Hn. revert bs Hn.
  induction n as [n IH] using lt_wf_ind. intros bs Hn Hv.
  destruct bs as [|b0 r0]; [done|].
  cbn [valid decode] in *.
  destruct (N.ltb b0 128) eqn:E0.
  { rewrite encode_ascii by by apply N.ltb_lt.
    f_equal. apply (IH (length r0)); [|done|done]. subst n. cbn [length]. lia. }
  destruct (inRange 194 223 b0) eqn:E2.
  { destruct r0 as [|b1 r1]; [done|]. apply andb_true_iff in Hv as [H1 Hv].
    rewrite H1. destruct (bytesOf_two b0 b1 E2 H1) as (Hh & Hl & Hb).
    rewrite encode_unit, Hb by done. cbn [app]. do 2 f_equal.
    apply (IH (length r1)); [|done|done]. subst n. cbn [length]. lia. }
  destruct (inRange 224 239 b0) eqn:E3.
  { destruct r0 as [|b1 [|b2 r2]]; [done|done|].
    apply andb_true_iff in Hv as [Hv Hr]. apply andb_true_iff in Hv as [H1 H2].
    cbv zeta. rewrite H1, H2.
    destruct (bytesOf_three b0 b1 b2 E3 H1 H2) as (Hh & Hl & Hb).
    rewrite encode_unit, Hb by done. cbn [app]. do 3 f_equal.
    apply (IH (length r2)); [|done|done]. subst n. cbn [length]. lia. }
  destruct (inRange 240 244 b0) eqn:E4; [|done].
  destruct r0 as [|b1 [|b2 [|b3 r3]]]; [done|done|done|].
  apply andb_true_iff in Hv as [Hv Hr]. apply andb_true_iff in Hv as [Hv H3].
  apply andb_true_iff in Hv as [H1 H2].
  cbv zeta. rewrite H1, H2, H3.
  destruct (bytesOf_four b0 b1 b2 b3 E4 H1 H2 H3) as (hi & lo & Hu & Hh & Hl & Hb).
  rewrite Hu. cbn [app]. rewrite encode_pair, Hb by done. cbn [app]. do 4 f_equal.
  apply (IH (length r3)); [|done|done]. subst n. cbn [length]. lia.
Qed.

(** [encode] goes through a concatenation unless the place separates a
    surrogate pair. *)
Lemma encode_app_head a b :
  (forall c, head b = Some c -> isLowSurrogate c = false) ->
  encode (a ++ b) = encode a ++ encode b.
Proof.
  intros Hb. remember (length a) as n eqn:Hn. revert a Hn.
  induction n as [n IH] using lt_wf_ind. intros a Hn.
  destruct a as [|c a]; [done|].
  assert (encode (a ++ b) = encode a ++ encode b) as IH1.
  { apply (IH (length a)); [|done]. subst n. cbn [length]. lia. }
  cbn [app encode]. destruct (isHighSurrogate c).
  - destruct a as [|d a].
    + cbn [app encode]. destruct b as [|d b]; [done|].
      rewrite (Hb d) by done. done.
    + cbn [app]. destruct (isLowSurrogate d).
      * rewrite <- app_assoc. f_equal.
        apply (IH (length a)); [|done]. subst n. cbn [length]. lia.
      * rewrite <- app_assoc. f_equal. apply IH1.
  - destruct (isLowSurrogate c); rewrite <- app_assoc; f_equal; apply IH1.
Qed.

Lemma encode_app_last a c b :
  isHighSurrogate c = false ->
  encode ((a ++ [c]) ++ b) = encode (a ++ [c]) ++ encode b.
Proof.
  intros Hc. remember (length a) as n eqn:Hn. revert a Hn.
  induction n as [n IH] using lt_wf_ind. intros a Hn.
  destruct a as [|x a].
  - cbn [app encode]. rewrite Hc.
    destruct (isLowSurrogate c); by rewrite app_nil_r.
  - assert (encode ((a ++ [c]) ++ b) = encode (a ++ [c]) ++ encode b) as IH1.
    { apply (IH (length a)); [|done]. subst n. cbn [length]. lia. }
    cbn [app encode]. destruct (isHighSurrogate x).
    + destruct a as [|d a].
      * cbn [app]. destruct (isLowSurrogate c) eqn:El.
        -- cbn [encode]. by rewrite app_nil_r.
        -- rewrite <- (app_assoc (bytesOf _)). f_equal. apply IH1.
      * cbn [app]. destruct (isLowSurrogate d).
        -- rewrite <- (app_assoc (bytesOf _)). f_equal.
           apply (IH (length a)); [|done]. subst n. cbn [length]. lia.
        -- rewrite <- (app_assoc (bytesOf _)). f_equal. apply IH1.
    + destruct (isLowSurrogate x); rewrite <- (app_assoc (bytesOf _)); f_equal; apply IH1.
Qed.

Lemma decode_one b0 r : b0 < 128 -> decode (b0 :: r) = b0 :: decode r.
Proof. intros H. cbn [decode]. by rewrite (proj2 (N.ltb_lt b0 128)). Qed.

Lemma decode_two b0 b1 r :
  inRange 194 223 b0 = true -> isContinuation b1 = true ->
  decode (b0 :: b1 :: r) = (b0 - 192) * 64 + (b1 - 128) :: decode r.
Proof.
  intros H0 H1.
  assert (N.ltb b0 128 = false) as Hlt by (apply N.ltb_ge; unbool; lia).
  remember (b1 :: r) as r0 eqn:E. cbn [decode]. rewrite Hlt, H0. subst r0.
  cbv iota beta. by rewrite H1.
Qed.

Lemma decode_three b0 b1 b2 r :
  inRange 224 239 b0 = true ->
  inRange (if N.eqb b0 224 then 160 else 128) (if N.eqb b0 237 then 159 else 191) b1
    = true ->
  isContinuation b2 = true ->
  decode (b0 :: b1 :: b2 :: r)
  = (b0 - 224) * 4096 + (b1 - 128) * 64 + (b2 - 128) :: decode r.
Proof.
  intros H0 H1 H2.
  assert (N.ltb b0 128 = false) as Hlt by (apply N.ltb_ge; unbool; lia).
  assert (inRange 194 223 b0 = false) as Hno.
  { unfold inRange. apply andb_false_iff. right. apply N.leb_gt. unbool. lia. }
  remember (b1 :: b2 :: r) as r0 eqn:E. cbn [decode]. rewrite Hlt, Hno, H0. subst r0.
  cbv iota beta zeta. by rewrite H1, H2.
Qed.

Lemma decode_four b0 b1 b2 b3 r :
  inRange 240 244 b0 = true ->
  inRange (if N.eqb b0 240 then 144 else 128) (if N.eqb b0 244 then 143 else 191) b1
    = true ->
  isContinuation b2 = true -> isContinuation b3 = true ->
  decode (b0 :: b1 :: b2 :: b3 :: r)
  = unitsOf ((b0 - 240) * 262144 + (b1 - 128) * 4096 + (b2 - 128) * 64 + (b3 - 128))
    ++ decode r.
Proof.
  intros H0 H1 H2 H3.
  assert (N.ltb b0 128 = false) as Hlt by (apply N.ltb_ge; unbool; lia).
  assert (inRange 194 223 b0 = false) as Hno2.
  { unfold inRange. apply andb_false_iff. right. apply N.leb_gt. unbool. lia. }
  assert (inRange 224 239 b0 = false) as Hno3.
  { unfold inRange. apply andb_false_iff. right. apply N.leb_gt. unbool. lia. }
  remember (b1 :: b2 :: b3 :: r) as r0 eqn:E. cbn [decode].
  rewrite Hlt, Hno2, Hno3, H0. subst r0.
  cbv iota beta zeta. by rewrite H1, H2, H3.
Qed.

Lemma decode_bytesOf c bs :
  isHighSurrogate c = false -> isLowSurrogate c = false -> c < 65536 ->
  decode (bytesOf c ++ bs) = c :: decode bs.
Proof.
  intros Hh Hl Hc. unfold bytesOf.
  assert (c < 55296 \/ 57343 < c) as Hs.
  { unbool. destruct Hh as [H|H], Hl as [H'|H']; unbool; lia. }
  clear Hh Hl.
  destruct (N.ltb c 128) eqn:E1.
  { cbn [app]. apply decode_one. by apply N.ltb_lt. }
  destruct (N.ltb c 2048) eqn:E2.
  { cbn [app]. unbool. rewrite decode_two.
    - f_equal. divlia.
    - unfold inRange. apply andb_true_iff. split; apply N.leb_le; divlia.
    - unfold isContinuation, inRange. apply andb_true_iff.
      split; apply N.leb_le; divlia. }
  rewrite (proj2 (N.ltb_lt c 65536)) by done.
  cbn [app]. unbool. rewrite decode_three.
  - f_equal. divlia.
  - unfold inRange. apply andb_true_iff. split; apply N.leb_le; divlia.
  - unfold inRange. apply andb_true_iff. split; apply N.leb_le.
    + destruct (N.eqb_spec (224 + c / 4096) 224); divlia.
    + destruct (N.eqb_spec (224 + c / 4096) 237); [|divlia].
      destruct Hs; divlia.
  - unfold isContinuation, inRange. apply andb_true_iff.
    split; apply N.leb_le; divlia.
Qed.

Lemma decode_bytesOf_pair hi lo bs :
  isHighSurrogate hi = true -> isLowSurrogate lo = true ->
  decode (bytesOf (65536 + (hi - 55296) * 1024 + (lo - 56320)) ++ bs)
  = hi :: lo :: decode bs.
Proof.
  intros Hh Hl. unbool.
  set (cp := 65536 + (hi - 55296) * 1024 + (lo - 56320)).
  assert (65536 <= cp < 1114112) as Hcp by (unfold cp; lia).
  unfold bytesOf.
  rewrite (proj2 (N.ltb_ge cp 128)) by lia.
  rewrite (proj2 (N.ltb_ge cp 2048)) by lia.
  rewrite (proj2 (N.ltb_ge cp 65536)) by lia.
  cbn [app]. rewrite decode_four.
  - assert ((240 + cp / 262144 - 240) * 262144 + (128 + (cp / 4096) mod 64 - 128) * 4096
            + (128 + (cp / 64) mod 64 - 128) * 64 + (128 + cp mod 64 - 128) = cp) as ->
      by (clearbody cp; divlia).
    unfold unitsOf. rewrite (proj2 (N.ltb_ge cp 65536)) by lia. cbn [app].
    f_equal; [|f_equal]; unfold cp; divlia.
  - unfold inRange. apply andb_true_iff. split; apply N.leb_le; clearbody cp; divlia.
  - unfold inRange. apply andb_true_iff. split; apply N.leb_le; clearbody cp.
    + destruct (N.eqb_spec (240 + cp / 262144) 240); divlia.
    + destruct (N.eqb_spec (240 + cp / 262144) 244); divlia.
  - unfold isContinuation, inRange. apply andb_true_iff.
    split; apply N.leb_le; clearbody cp; divlia.
  - unfold isContinuation, inRange. apply andb_true_iff.
    split; apply N.leb_le; clearbody cp; divlia.
Qed.

(** A string without unpaired surrogates is written and read back as it
    is. *)
Lemma decode_encode s : paired s = true -> decode (encode s) = s.
Proof.
  remember (length s) as n eqn:Hn. revert s Hn.
  induction n as [n IH] using lt_wf_ind. intros s Hn Hp.
  destruct s as [|c s]; [done|]. cbn [paired encode] in *.
  destruct (isHighSurrogate c) eqn:Hh.
  - destruct s as [|d s]; [done|]. apply andb_true_iff in Hp as [Hl Hp].
    rewrite Hl, decode_bytesOf_pair by done. do 2 f_equal.
    apply (IH (length s)); [|done|done]. subst n. cbn [length]. lia.
  - apply andb_true_iff in Hp as [Hc Hp]. apply andb_true_iff in Hc as [Hl Hc].
    apply negb_true_iff in Hl. rewrite Hl.
    rewrite decode_bytesOf by (try done; by apply N.ltb_lt). f_equal.
    apply (IH (length s)); [|done|done]. subst n. cbn [length]. lia.
Qed.

(** A text of ASCII is written as it is. *)
Lemma encode_all_ascii s : Forall (fun c => c < 128) s -> encode s = s.
Proof.
  induction 1 as [|c s Hc _ IH]; [done|]. by rewrite encode_ascii, IH.
Qed.
End Utf8Facts.

(** ** The run on the disk: facts *)

Section DiskFacts.
Context (h : Host) (viewsDir : jsstring) (excludeDirs : list jsstring).
Implicit Types (d : Disk.Machine) (r : RouteItem).

Lemma disk_processRoute_excluded d r :
  isExcluded excludeDirs (relativePath r) = true ->
  Disk.processRoute h viewsDir excludeDirs d r
  = (Disk.emit (ConsoleLog (IgnoredComponent (relativePath r))) d, Disk.Returned).
Proof. intros H. unfold Disk.processRoute. by rewrite H. Qed.

Lemma disk_processRoute_missing d r :
  isExcluded excludeDirs (relativePath r) = false ->
  Disk.entries d !! vueFilePath h viewsDir (relativePath r) = None ->
  Disk.processRoute h viewsDir excludeDirs d r
  = (Disk.emit (ConsoleWarn (FileNotFound (vueFilePath h viewsDir (relativePath r))))
       (Disk.emit (ExistsSync (vueFilePath h viewsDir (relativePath r))) d), Disk.Returned).
Proof.
  intros H1 H2. unfold Disk.processRoute, Disk.existsSync. rewrite H1.
  cbn [Disk.emit Disk.entries]. rewrite H2.
  rewrite bool_decide_eq_false_2; [done|]. by intros [? ?].
Qed.

(** A file that can be read and written is decoded, patched as a text and
    written back encoded. *)
Lemma disk_processRoute_file d r bytes :
  isExcluded excludeDirs (relativePath r) = false ->
  Disk.entries d !! vueFilePath h viewsDir (relativePath r) = Some (Disk.File bytes true true) ->
  let path := vueFilePath h viewsDir (relativePath r) in
  let patched := patchContent h (name r) (Utf8.decode bytes) in
  Disk.processRoute h viewsDir excludeDirs d r
  = ({| Disk.entries := <[path := Disk.File (Utf8.encode patched.2) true true]> (Disk.entries d);
        Disk.events := Disk.events d
                  ++ [ExistsSync path; ReadFileSync path; WriteFileSync path patched.2;
                      ConsoleLog (if patched.1 then Processed path
                                  else ScriptSetupAdded path)] |}, Disk.Returned).
Proof.
  intros H1 H2 path patched.
  unfold Disk.processRoute, Disk.existsSync, Disk.readFileSync, Disk.writeFileSync.
  rewrite H1. cbn [Disk.emit Disk.entries Disk.events]. fold path. fold path in H2.
  rewrite H2, bool_decide_eq_true_2 by by eexists.
  fold patched. unfold Disk.emit. cbn [Disk.entries Disk.events].
  by rewrite <- !app_assoc.
Qed.

(** An entry that cannot be read, or cannot be written, makes the callback
    throw before it reports anything on the console. *)
Lemma disk_processRoute_throws d r e :
  isExcluded excludeDirs (relativePath r) = false ->
  Disk.entries d !! vueFilePath h viewsDir (relativePath r) = Some e ->
  e = Disk.Directory \/ (exists bytes readable writable,
                      e = Disk.File bytes readable writable /\ readable && writable = false) ->
  exists added code,
    Disk.processRoute h viewsDir excludeDirs d r
    = ({| Disk.entries := Disk.entries d; Disk.events := Disk.events d ++ added |},
       Disk.Thrown code (vueFilePath h viewsDir (relativePath r))) /\
    List.filter isConsole added = [].
Proof.
  intros H1 H2 He.
  unfold Disk.processRoute, Disk.existsSync, Disk.readFileSync, Disk.writeFileSync.
  rewrite H1. cbn [Disk.emit Disk.entries Disk.events].
  rewrite H2, bool_decide_eq_true_2 by by eexists.
  destruct He as [->|(bytes & [|] & [|] & -> & Hrw)]; try done;
    cbn [Disk.emit Disk.entries Disk.events]; rewrite ?H2;
    unfold Disk.emit; cbn [Disk.entries Disk.events]; rewrite <- ?app_assoc; cbn [app];
    by eexists _, _.
Qed.

(** Every call of the callback appends to the Disk.events; it reports once on
    the console when it returns and not at all when it throws. *)
Lemma disk_processRoute_messages d r :
  exists added,
    Disk.events (Disk.processRoute h viewsDir excludeDirs d r).1 = Disk.events d ++ added /\
    length (List.filter isConsole added)
    = match (Disk.processRoute h viewsDir excludeDirs d r).2 with
      | Disk.Returned => 1
      | Disk.Thrown _ _ => 0
      end.
Proof.
  destruct (isExcluded excludeDirs (relativePath r)) eqn:Hex.
  { rewrite disk_processRoute_excluded by done. by eexists. }
  destruct (Disk.entries d !! vueFilePath h viewsDir (relativePath r)) as [e|] eqn:He.
  - destruct e as [bytes [|] [|]|].
    + rewrite (disk_processRoute_file d r bytes) by done. cbn [fst snd Disk.events].
      by eexists.
    + destruct (disk_processRoute_throws d r _ Hex He) as (added & code & -> & Hc).
      { right. by eexists _, _, _. }
      exists added. cbn [fst snd Disk.events]. by rewrite Hc.
    + destruct (disk_processRoute_throws d r _ Hex He) as (added & code & -> & Hc).
      { right. by eexists _, _, _. }
      exists added. cbn [fst snd Disk.events]. by rewrite Hc.
    + destruct (disk_processRoute_throws d r _ Hex He) as (added & code & -> & Hc).
      { right. by eexists _, _, _. }
      exists added. cbn [fst snd Disk.events]. by rewrite Hc.
    + destruct (disk_processRoute_throws d r _ Hex He) as (added & code & -> & Hc).
      { by left. }
      exists added. cbn [fst snd Disk.events]. by rewrite Hc.
  - rewrite disk_processRoute_missing by done. cbn [fst snd Disk.emit Disk.events].
    eexists. by rewrite <- app_assoc.
Qed.

Lemma disk_forEach_messages routes d :
  let run := Disk.forEach (Disk.processRoute h viewsDir excludeDirs) d routes in
  exists added,
    Disk.events run.1 = Disk.events d ++ added /\
    match run.2 with
    | Disk.Returned => length (List.filter isConsole added) = length routes
    | Disk.Thrown code path =>
        exists done r rest d1,
          routes = done ++ r :: rest /\
          Disk.forEach (Disk.processRoute h viewsDir excludeDirs) d done
          = (d1, Disk.Returned) /\
          (Disk.processRoute h viewsDir excludeDirs d1 r).2 = Disk.Thrown code path /\
          length (List.filter isConsole added) = length done
    end.
Proof.
  cbv zeta. revert d. induction routes as [|r routes IH]; intros d.
  - exists []. by rewrite app_nil_r.
  - cbn [Disk.forEach].
    destruct (disk_processRoute_messages d r) as (added1 & H1 & Hc1).
    destruct (Disk.processRoute h viewsDir excludeDirs d r) as [d1 [|code path]] eqn:E.
    + cbn [fst snd] in *. destruct (IH d1) as (added2 & H2 & Hc2).
      exists (added1 ++ added2). rewrite H2, H1, app_assoc. split; [done|].
      rewrite List.filter_app, length_app, Hc1.
      destruct (Disk.forEach _ d1 routes).2.
      * cbn [length]. lia.
      * destruct Hc2 as (done & r' & rest & d2 & -> & Hdone & Hthrow & Hc2).
        exists (r :: done), r', rest, d2. split; [done|]. split.
        { cbn [Disk.forEach]. by rewrite E. }
        split; [done|]. cbn [length]. lia.
    + cbn [fst snd] in *. exists added1. split; [done|].
      exists [], r, routes, d. split; [done|]. split; [done|].
      split; [by rewrite E|]. by rewrite Hc1.
Qed.

(** The run over the text is the run on the disk, for a disk of files
    that can be read and written, as long as the texts are read back as
    they are written. *)
Lemma disk_processRoute_ofText w r :
  textual w ->
  Disk.processRoute h viewsDir excludeDirs (Disk.ofText w) r
  = (Disk.ofText (processRoute h viewsDir excludeDirs w r), Disk.Returned).
Proof.
  intros Hw.
  destruct (isExcluded excludeDirs (relativePath r)) eqn:Hex.
  { by rewrite disk_processRoute_excluded, processRoute_excluded. }
  destruct (files w !! vueFilePath h viewsDir (relativePath r)) as [text|] eqn:Hc.
  - assert (Disk.entries (Disk.ofText w) !! vueFilePath h viewsDir (relativePath r)
            = Some (Disk.File (Utf8.encode text) true true)) as He.
    { unfold Disk.ofText. cbn [Disk.entries]. by rewrite lookup_fmap, Hc. }
    rewrite (disk_processRoute_file _ r _ Hex He). rewrite (Hw _ _ Hc).
    destruct (processRoute_patched h viewsDir excludeDirs w r text Hex Hc) as [Hf Ht].
    unfold Disk.ofText. rewrite Hf, Ht. cbn [Disk.entries Disk.events].
    by rewrite fmap_insert.
  - assert (Disk.entries (Disk.ofText w) !! vueFilePath h viewsDir (relativePath r) = None)
      as He.
    { unfold Disk.ofText. cbn [Disk.entries]. by rewrite lookup_fmap, Hc. }
    by rewrite disk_processRoute_missing, processRoute_missing.
Qed.

Lemma disk_forEach_ofText routes w :
  (forall k, textual (foldl (processRoute h viewsDir excludeDirs) w (take k routes))) ->
  Disk.forEach (Disk.processRoute h viewsDir excludeDirs) (Disk.ofText w) routes
  = (Disk.ofText (foldl (processRoute h viewsDir excludeDirs) w routes), Disk.Returned).
Proof.
  revert w. induction routes as [|r routes IH]; intros w Hw; [done|].
  cbn [Disk.forEach foldl]. rewrite disk_processRoute_ofText by apply (Hw 0).
  apply IH. intros k. apply (Hw (S k)).
Qed.
End DiskFacts.

Lemma disk_run_ofText h config sf w :
  (forall routes k,
      matchedRoutes sf = inr routes ->
      textual (foldl (processRoute h (viewsDir config) (excludeDirs config)) w
                 (take k routes))) ->
  Disk.injectDefineOptions h config sf (Disk.ofText w)
  = (Disk.ofText (injectDefineOptions h config sf w), Disk.Returned).
Proof.
  intros Hw. unfold Disk.injectDefineOptions, injectDefineOptions.
  destruct (matchedRoutes sf) as [err|[|r routes]]; [done|done|].
  apply disk_forEach_ofText. intros k. by apply Hw.
Qed.

(** The scenario of the specification on the disk. *)
Example scenario_on_disk :
  Disk.injectDefineOptions Scenario.host Scenario.config Scenario.routeFile
    (Disk.ofText Scenario.disk)
  = ({| Disk.entries :=
          {[ Scenario.listVuePath := Disk.File Examples.listVuePatched true true ]};
        Disk.events :=
          [ExistsSync Scenario.listVuePath; ReadFileSync Scenario.listVuePath;
           WriteFileSync Scenario.listVuePath Examples.listVuePatched;
           ConsoleLog (Processed Scenario.listVuePath)] |}, Disk.Returned).
Proof. reflexivity. Qed.

(** ** The bytes around the block *)

Section Bytes.
Context (h : Host).

Lemma getSubstitution_step m bf af x y t :
  getSubstitution m bf af (x :: y :: t)
  = if N.eqb x 36 then
      if N.eqb y 36 then 36%N :: getSubstitution m bf af t
      else if N.eqb y 38 then m ++ getSubstitution m bf af t
      else if N.eqb y 96 then bf ++ getSubstitution m bf af t
      else if N.eqb y 39 then af ++ getSubstitution m bf af t
      else x :: getSubstitution m bf af (y :: t)
    else x :: getSubstitution m bf af (y :: t).
Proof. reflexivity. Qed.

(** The end of a replacement text is copied when it holds no dollar sign
    and does not start with the second code unit of a pattern. *)
Lemma getSubstitution_app_plain m bf af t c l :
  isSubstitutionChar c = false -> 36%N ∉ l ->
  getSubstitution m bf af (t ++ c :: l) = getSubstitution m bf af t ++ c :: l.
Proof.
  intros Hc Hl.
  assert (getSubstitution m bf af (c :: l) = c :: l) as Hcl.
  { assert (36%N ∉ c :: l) as Hcl.
    { apply not_elem_of_cons. split; [|done]. intros <-. done. }
    pose proof (getSubstitution_plain_app m bf af (c :: l) [] Hcl) as H.
    by rewrite !app_nil_r in H. }
  remember (length t) as n eqn:Hn. revert t Hn.
  induction n as [n IH] using lt_wf_ind. intros t Hn.
  destruct t as [|x t]; [done|].
  assert (getSubstitution m bf af (t ++ c :: l)
          = getSubstitution m bf af t ++ c :: l) as IH1.
  { apply (IH (length t)); [|done]. subst n. cbn [length]. lia. }
  destruct t as [|y t].
  - unfold isSubstitutionChar in Hc.
    apply orb_false_iff in Hc as [Hc H4]. apply orb_false_iff in Hc as [Hc H3].
    apply orb_false_iff in Hc as [H1 H2].
    assert (getSubstitution m bf af (x :: c :: l)
            = x :: getSubstitution m bf af (c :: l)) as Hx.
    { cbn [getSubstitution]. rewrite H1, H2, H3, H4. by destruct (N.eqb x 36). }
    cbn [app]. rewrite Hx, Hcl. cbn [getSubstitution]. by destruct (N.eqb x 36).
  - assert (getSubstitution m bf af (t ++ c :: l)
            = getSubstitution m bf af t ++ c :: l) as IH2.
    { apply (IH (length t)); [|done]. subst n. cbn [length]. lia. }
    cbn [app]. cbn [app] in IH1. rewrite !getSubstitution_step.
    destruct (N.eqb x 36); [|by rewrite IH1].
    destruct (N.eqb y 36); [by rewrite IH2|].
    destruct (N.eqb y 38); [by rewrite IH2, <- app_assoc|].
    destruct (N.eqb y 96); [by rewrite IH2, <- app_assoc|].
    destruct (N.eqb y 39); [by rewrite IH2, <- app_assoc|].
    by rewrite IH1.
Qed.

(** The text written in place of the block starts with [<] and ends with
    [>], whatever the patterns of the replacement text expand to. *)
Lemma replacement_ends m bf af attrs body :
  exists G,
    getSubstitution m bf af (newScript attrs body) = 60%N :: G ++ [62%N].
Proof.
  unfold newScript.
  assert (js "<script" ++ attrs ++ js ">" ++ [newline] ++ trim body
          ++ [newline] ++ js "</script>"
          = (js "<script" ++ attrs ++ js ">" ++ [newline] ++ trim body)
            ++ newline :: js "</script>") as -> by by rewrite <- !app_assoc.
  rewrite getSubstitution_app_plain; [|done|by not_in_literal].
  change (js "<script") with (60%N :: js "script"). cbn [app getSubstitution].
  change (60 =? 36)%N with false. cbv iota.
  eexists (_ ++ newline :: js "</script"). rewrite <- app_assoc. cbn [app].
  do 2 f_equal. 
Qed.

Lemma encode_around pre G post :
  Utf8.encode (pre ++ (60%N :: G ++ [62%N]) ++ post)
  = Utf8.encode pre ++ Utf8.encode (60%N :: G ++ [62%N]) ++ Utf8.encode post.
Proof.
  rewrite encode_app_head by (by intros c [= <-]). f_equal.
  apply (encode_app_last (60%N :: G) 62%N post). reflexivity.
Qed.

Lemma blockOf_ends attrs body :
  exists G, blockOf attrs body = 60%N :: G ++ [62%N].
Proof.
  exists (js "script" ++ attrs ++ [62%N] ++ body ++ js "</script").
  unfold blockOf. by rewrite <- !app_assoc.
Qed.

(** The bytes of the block put in front of a file without script block. *)
Lemma encode_scriptSetup n :
  Utf8.encode (scriptSetup n)
  = js "<script setup>" ++ [newline] ++ js "defineOptions({ name: " ++ [dquote]
    ++ Utf8.encode n ++ [dquote] ++ js " });" ++ [newline] ++ js "</script>"
    ++ [newline].
Proof.
  unfold scriptSetup, defineLine.
  pose (A := js "<script setup>" ++ [newline] ++ js "defineOptions({ name: ").
  pose (B := dquote :: js " });" ++ [newline] ++ js "</script>" ++ [newline]).
  assert (js "<script setup>" ++ [newline]
          ++ (js "defineOptions({ name: " ++ [dquote] ++ n ++ [dquote] ++ js " });")
          ++ [newline] ++ js "</script>" ++ [newline]
          = (A ++ [dquote]) ++ n ++ B) as ->.
  { unfold A, B. by rewrite <- !app_assoc. }
  rewrite (encode_app_last A dquote (n ++ B)) by reflexivity.
  rewrite (encode_app_head n B) by (by intros c [= <-]).
  assert (Utf8.encode (A ++ [dquote]) = A ++ [dquote]) as -> by reflexivity.
  assert (Utf8.encode B = B) as -> by reflexivity.
  unfold A, B. by rewrite <- !app_assoc.
Qed.

Lemma encode_scriptSetup_app n content :
  Utf8.encode (scriptSetup n ++ content)
  = Utf8.encode (scriptSetup n) ++ Utf8.encode content.
Proof.
  unfold scriptSetup.
  assert (js "<script setup>" ++ [newline] ++ defineLine n ++ [newline]
          ++ js "</script>" ++ [newline]
          = (js "<script setup>" ++ [newline] ++ defineLine n ++ [newline]
             ++ js "</script>") ++ [newline]) as -> by by rewrite <- !app_assoc.
  by apply encode_app_last.
Qed.
End Bytes.

(** ** Claims on the bytes of the component file *)

(** C4, as stated, fails for a file that is not UTF-8: the byte [e9]
    before and after the script block is read as U+FFFD and written back
    as the three bytes [ef bf bd]. *)
Lemma patch_bytes_counterexample :
  ~ (forall h viewsDir excludeDirs d r before block after m,
       let path := vueFilePath h viewsDir (relativePath r) in
       let d' := (Disk.processRoute h viewsDir excludeDirs d r).1 in
       isExcluded excludeDirs (relativePath r) = false ->
       Disk.entries d !! path = Some (Disk.File (before ++ block ++ after) true true) ->
       exec scriptRegex (Utf8.decode (before ++ block ++ after)) = Some m ->
       index m = length (Utf8.decode before) ->
       matched m = Utf8.decode block ->
       exists block',
         Disk.entries d' !! path
         = Some (Disk.File (before ++ block' ++ after) true true)).
Proof.
  intros H.
  destruct (H Examples.plainHost Examples.views []
              {| Disk.entries :=
                   {[ js "/app/src/views/a.vue"
                      := Disk.File ([233%N] ++ js "<script>x</script>" ++ [233%N])
                           true true ]};
                 Disk.events := [] |}
              (Examples.route (js "A") (js "a"))
              [233%N] (js "<script>x</script>") [233%N]
              {| index := 1; matched := js "<script>x</script>";
                 groups := [[]; js "x"] |})
    as [block' Hb]; [reflexivity|reflexivity|reflexivity|reflexivity|reflexivity|].
  vm_compute in Hb. discriminate Hb.
Qed.

(** C4, amended: for a component file that is well-formed UTF-8 and can be
    read and written, the bytes before the first script block and the
    bytes after it are the same in the file written, and every other path
    of the disk is left alone; when the file has no script block, its
    bytes follow the new block unchanged. *)
Theorem patch_preserves_bytes_outside h viewsDir excludeDirs d r bytes :
  let path := vueFilePath h viewsDir (relativePath r) in
  let content := Utf8.decode bytes in
  let run := Disk.processRoute h viewsDir excludeDirs d r in
  isExcluded excludeDirs (relativePath r) = false ->
  Disk.entries d !! path = Some (Disk.File bytes true true) ->
  Utf8.valid bytes = true ->
  run.2 = Disk.Returned /\
  (forall other, other <> path ->
                 Disk.entries run.1 !! other = Disk.entries d !! other) /\
  match exec scriptRegex content with
  | Some m =>
      let before := Utf8.encode (take (index m) content) in
      let after := Utf8.encode (drop (index m + length (matched m)) content) in
      bytes = before ++ Utf8.encode (matched m) ++ after /\
      exists block,
        Disk.entries run.1 !! path
        = Some (Disk.File (before ++ block ++ after) true true)
  | None =>
      Disk.entries run.1 !! path
      = Some (Disk.File (Utf8.encode (scriptSetup (name r)) ++ bytes) true true)
  end.
Proof.
  intros path content run Hex He Hv. unfold run.
  rewrite (disk_processRoute_file h viewsDir excludeDirs d r bytes Hex He).
  cbn [fst snd Disk.entries]. fold path. split; [done|]. split.
  { intros other Ho. by rewrite lookup_insert_ne. }
  rewrite lookup_insert_eq. fold content.
  pose proof (encode_decode bytes Hv) as Hround. fold content in Hround.
  destruct (exec scriptRegex content) as [m|] eqn:E.
  - destruct (exec_script_inv _ _ E) as (pre & attrs & body & post & Hs & ->).
    cbn [index matched].
    assert (content = pre ++ blockOf attrs body ++ post) as Hcontent.
    { destruct Hs as [-> _ _ _]. unfold blockOf. by rewrite <- !app_assoc. }
    assert (take (length pre) content = pre) as ->
      by (rewrite Hcontent; apply take_app_length).
    assert (drop (length pre + length (blockOf attrs body)) content = post) as ->.
    { rewrite Hcontent. by rewrite drop_app_add, drop_app_length. }
    destruct (blockOf_ends attrs body) as [B HB].
    split.
    + rewrite <- Hround, Hcontent, HB. apply encode_around.
    + rewrite (patchContent_script _ _ _ _ _ _ _ Hs). cbn [snd].
      destruct (replacement_ends (blockOf attrs body) pre post attrs
                  (mutateScript h (name r) body)) as [G ->].
      rewrite encode_around. eauto.
  - rewrite patchContent_noscript by done. cbn [snd].
    by rewrite encode_scriptSetup_app, Hround.
Qed.

Lemma patch_preserves_bytes_outside_witness :
  let before := [195; 169]%N ++ js "<template/>" ++ [newline] in
  let after := [newline] ++ js "<style/>" ++ [226; 130; 172]%N in
  let bytes := before ++ js "<script lang=ts>let a</script>" ++ after in
  let r := Examples.route (js "Home") (js "home") in
  let path := vueFilePath Examples.plainHost Examples.views (relativePath r) in
  let d := {| Disk.entries := {[ path := Disk.File bytes true true ]};
              Disk.events := [] |} in
  let run := Disk.processRoute Examples.plainHost Examples.views [] d r in
  (isExcluded [] (relativePath r) = false /\
   Disk.entries d !! path = Some (Disk.File bytes true true) /\
   Utf8.valid bytes = true) /\
  (run.2 = Disk.Returned /\
   (forall other, other <> path ->
                  Disk.entries run.1 !! other = Disk.entries d !! other) /\
   match exec scriptRegex (Utf8.decode bytes) with
   | Some m =>
       let before := Utf8.encode (take (index m) (Utf8.decode bytes)) in
       let after :=
         Utf8.encode (drop (index m + length (matched m)) (Utf8.decode bytes)) in
       bytes = before ++ Utf8.encode (matched m) ++ after /\
       exists block,
         Disk.entries run.1 !! path
         = Some (Disk.File (before ++ block ++ after) true true)
   | None =>
       Disk.entries run.1 !! path
       = Some (Disk.File (Utf8.encode (scriptSetup (name r)) ++ bytes) true true)
   end) /\
  Disk.entries run.1 !! path
  = Some (Disk.File
            (before
             ++ (js "<script lang=ts>" ++ [newline]
                 ++ js "defineOptions({ name: " ++ [dquote] ++ js "Home" ++ [dquote]
                 ++ js " });" ++ [newline] ++ js "let a" ++ [newline] ++ js "</script>")
             ++ after) true true).
Proof.
  intros before after bytes r path d run.
  assert (isExcluded [] (relativePath r) = false) as H1 by reflexivity.
  assert (Disk.entries d !! path = Some (Disk.File bytes true true)) as H2
    by reflexivity.
  assert (Utf8.valid bytes = true) as H3 by reflexivity.
  split; [by repeat split|]. split; [|reflexivity].
  exact (patch_preserves_bytes_outside Examples.plainHost Examples.views [] d r
           bytes H1 H2 H3).
Defined.

(** C8, as stated, fails for a file that is not UTF-8: the byte [e9] of
    the content is written back as [ef bf bd] behind the new block. *)
Lemma script_setup_counterexample :
  ~ (forall h viewsDir excludeDirs d r bytes,
       let path := vueFilePath h viewsDir (relativePath r) in
       let d' := (Disk.processRoute h viewsDir excludeDirs d r).1 in
       isExcluded excludeDirs (relativePath r) = false ->
       Disk.entries d !! path = Some (Disk.File bytes true true) ->
       ~ occursIn (js "<script") (Utf8.decode bytes) ->
       exists block,
         Disk.entries d' !! path = Some (Disk.File (block ++ bytes) true true)).
Proof.
  intros H.
  destruct (H Examples.plainHost Examples.views []
              {| Disk.entries :=
                   {[ js "/app/src/views/a.vue"
                      := Disk.File (js "<p>caf" ++ [233%N] ++ js "</p>") true true ]};
                 Disk.events := [] |}
              (Examples.route (js "A") (js "a"))
              (js "<p>caf" ++ [233%N] ++ js "</p>"))
    as [block Hb]; [reflexivity|reflexivity|by apply includes_false|].
  apply (f_equal (fun e => match e with
                           | Some (Disk.File bs _ _) => nth 4 (rev bs) 0%N
                           | _ => 0%N
                           end)) in Hb.
  rewrite rev_app_distr in Hb. vm_compute in Hb. discriminate Hb.
Qed.

(** C8, amended: a component file that can be read and written and whose
    text has no opening script tag is written as the line [<script setup>],
    the line [defineOptions({ name: "<name>" });] with the name in UTF-8 (a
    surrogate without its partner as U+FFFD), the line [</script>], and
    then its content decoded and encoded again, which is the content
    itself when the file is well-formed UTF-8. *)
Theorem script_setup_synthesis h viewsDir excludeDirs d r bytes :
  let path := vueFilePath h viewsDir (relativePath r) in
  let content := Utf8.decode bytes in
  let newContent :=
    js "<script setup>" ++ [newline] ++ js "defineOptions({ name: " ++ [dquote]
    ++ name r ++ [dquote] ++ js " });" ++ [newline] ++ js "</script>"
    ++ [newline] ++ content in
  let newBytes :=
    js "<script setup>" ++ [newline] ++ js "defineOptions({ name: " ++ [dquote]
    ++ Utf8.encode (name r) ++ [dquote] ++ js " });" ++ [newline] ++ js "</script>"
    ++ [newline] ++ Utf8.encode content in
  isExcluded excludeDirs (relativePath r) = false ->
  Disk.entries d !! path = Some (Disk.File bytes true true) ->
  ~ occursIn (js "<script") content ->
  Disk.processRoute h viewsDir excludeDirs d r
  = ({| Disk.entries := <[path := Disk.File newBytes true true]> (Disk.entries d);
        Disk.events :=
          Disk.events d
          ++ [ExistsSync path; ReadFileSync path; WriteFileSync path newContent;
              ConsoleLog (ScriptSetupAdded path)] |}, Disk.Returned) /\
  (Utf8.valid bytes = true -> Utf8.encode content = bytes).
Proof.
  intros path content newContent newBytes Hex He Hno.
  split; [|apply encode_decode].
  rewrite (disk_processRoute_file h viewsDir excludeDirs d r bytes Hex He).
  fold path content.
  rewrite (patchContent_noscript h (name r) content) by by apply exec_script_None.
  cbn [fst snd].
  assert (scriptSetup (name r) ++ content = newContent) as ->.
  { unfold scriptSetup, defineLine, newContent. by rewrite <- !app_assoc. }
  assert (Utf8.encode newContent = newBytes) as ->; [|done].
  assert (newContent = scriptSetup (name r) ++ content) as ->.
  { unfold scriptSetup, defineLine, newContent. by rewrite <- !app_assoc. }
  rewrite encode_scriptSetup_app, encode_scriptSetup.
  unfold newBytes. by rewrite <- !app_assoc.
Qed.

Lemma script_setup_synthesis_witness :
  let bytes := js "<template>caf" ++ [195; 169]%N ++ js "</template>" in
  let r := Examples.route (js "Caf" ++ [233%N]) (js "about") in
  let path := vueFilePath Examples.plainHost Examples.views (relativePath r) in
  let d := {| Disk.entries := {[ path := Disk.File bytes true true ]};
              Disk.events := [] |} in
  let newBytes :=
    js "<script setup>" ++ [newline] ++ js "defineOptions({ name: " ++ [dquote]
    ++ js "Caf" ++ [195; 169]%N ++ [dquote] ++ js " });" ++ [newline]
    ++ js "</script>" ++ [newline] ++ bytes in
  (isExcluded [] (relativePath r) = false /\
   Disk.entries d !! path = Some (Disk.File bytes true true) /\
   ~ occursIn (js "<script") (Utf8.decode bytes)) /\
  Disk.entries (Disk.processRoute Examples.plainHost Examples.views [] d r).1 !! path
  = Some (Disk.File newBytes true true) /\
  (Utf8.valid bytes = true -> Utf8.encode (Utf8.decode bytes) = bytes).
Proof.
  intros bytes r path d newBytes.
  assert (isExcluded [] (relativePath r) = false) as H1 by reflexivity.
  assert (Disk.entries d !! path = Some (Disk.File bytes true true)) as H2
    by reflexivity.
  assert (~ occursIn (js "<script") (Utf8.decode bytes)) as H3
    by (apply includes_false; reflexivity).
  split; [by repeat split|].
  destruct (script_setup_synthesis Examples.plainHost Examples.views [] d r bytes
              H1 H2 H3) as [Hrun Hv].
  split; [|exact Hv]. rewrite Hrun. reflexivity.
Defined.

(** ** The extractor and its specification *)

Section Describes.
Implicit Types route : Node.

Lemma find_firstWhere {A : Type} (f : A -> bool) (l : list A) (d : A) :
  List.find f l = Some d <-> firstWhere (fun x => f x = true) l d.
Proof.
  unfold firstWhere. induction l as [|x l IH]; cbn [List.find].
  - split; [done|]. by intros ([|? ?] & after & ? & _).
  - destruct (f x) eqn:E.
    + split.
      * intros [= ->]. exists [], l. by repeat split.
      * intros ([|y before] & after & Hl & Hd & Hb).
        -- by injection Hl as ->.
        -- injection Hl as -> _. apply Forall_cons in Hb as [Hy _]. done.
    + rewrite IH. split.
      * intros (before & after & -> & Hd & Hb). exists (x :: before), after.
        repeat split; [done|]. constructor; [by rewrite E|done].
      * intros ([|y before] & after & Hl & Hd & Hb).
        -- injection Hl as -> _. by rewrite E in Hd.
        -- injection Hl as -> ->. apply Forall_cons in Hb as [_ Hb].
           by exists before, after.
Qed.

Lemma head_filter_find {A : Type} (f : A -> bool) (l : list A) :
  head (List.filter f l) = List.find f l.
Proof.
  induction l as [|x l IH]; [done|]. cbn [List.filter List.find].
  by destruct (f x).
Qed.

Lemma firstWhere_iff {A : Type} (P Q : A -> Prop) (l : list A) (d : A) :
  (forall x, P x <-> Q x) -> firstWhere P l d <-> firstWhere Q l d.
Proof.
  intros H. unfold firstWhere. split.
  - intros (b & a & -> & Hd & Hb). exists b, a. repeat split; [by apply H|].
    eapply Forall_impl; [exact Hb|]. intros x Hx HQ. by apply Hx, H.
  - intros (b & a & -> & Hd & Hb). exists b, a. repeat split; [by apply H|].
    eapply Forall_impl; [exact Hb|]. intros x Hx HQ. by apply Hx, H.
Qed.

Lemma firstWhere_unique {A : Type} (P : A -> Prop) (l : list A) (d d' : A) :
  firstWhere P l d -> firstWhere P l d' -> d = d'.
Proof.
  intros (b & a & -> & Hd & Hb) (b' & a' & Hl & Hd' & Hb').
  revert b' Hl Hb'. induction b as [|x b IH]; intros [|x' b'] Hl Hb'.
  - by injection Hl.
  - injection Hl as <- _. by apply Forall_cons in Hb' as [? _].
  - injection Hl as -> _. by apply Forall_cons in Hb as [? _].
  - injection Hl as <- Hl. apply Forall_cons in Hb as [_ Hb].
    apply Forall_cons in Hb' as [_ Hb']. by apply (IH Hb b').
Qed.

Lemma getProperty_memberNamed x props member :
  getProperty x props = Some member <-> memberNamed x props member.
Proof.
  unfold getProperty, memberNamed. rewrite find_firstWhere.
  apply firstWhere_iff. intros m. destruct (getName m) as [y|]; [|done].
  rewrite bool_decide_eq_true. split; congruence.
Qed.

Lemma getFirstDescendantByKind_firstOfKind k n d :
  getFirstDescendantByKind k n = Some d <-> firstOfKind k n d.
Proof.
  unfold getFirstDescendantByKind, getDescendantsOfKind, firstOfKind.
  rewrite head_filter_find, find_firstWhere.
  apply firstWhere_iff. intros x. unfold isKind. by rewrite bool_decide_eq_true.
Qed.

Lemma findImportCall_firstWhere arrowFn call :
  findImportCall arrowFn = Some call
  <-> firstWhere isImportCall (getDescendants arrowFn) call.
Proof.
  unfold findImportCall, getDescendantsOfKind.
  assert (forall (f g : Node -> bool) l,
             List.find f (List.filter g l) = List.find (fun x => g x && f x) l) as Hfg.
  { intros f g l. induction l as [|x l IH]; [done|]. cbn [List.filter List.find].
    destruct (g x); [|done]. cbn [List.find andb]. by destruct (f x). }
  rewrite Hfg, find_firstWhere. apply firstWhere_iff. intros x.
  unfold isKind, isImportCall. split.
  - intros [Hk Ht]%andb_true_iff. destruct x; try done.
    apply bool_decide_eq_true in Ht. by eexists _, _, _.
  - intros (callee & targs & args & -> & Ht). apply andb_true_iff.
    split; [by apply bool_decide_eq_true|by apply bool_decide_eq_true].
Qed.

(** The loop body accepts exactly the elements that stand for a route. *)
Lemma matchRoute_describes route r : matchRoute route = Some r <-> describes route r.
Proof.
  unfold describes, imports. split.
  - unfold matchRoute. destruct route; try done.
    destruct (getProperty (js "name") properties) as [nameProp|] eqn:Hn; [|done].
    destruct (getProperty (js "component") properties) as [compProp|] eqn:Hc; [|done].
    destruct (getFirstDescendantByKind SyntaxKind.StringLiteral nameProp)
      as [[]|] eqn:Hs; try done.
    destruct (getFirstDescendantByKind SyntaxKind.ArrowFunction compProp)
      as [arrowFn|] eqn:Ha; [|done].
    destruct literalText as [|c nm]; [done|].
    destruct (findImportCall arrowFn) as [importCall|] eqn:Hi; [|done].
    destruct importCall as [| | | | | | | | | |callee targs [|[] rest]| |]; try done.
    cbn [importPathOf].
    destruct (startsWith viewsPrefix literalText) eqn:E; [|done].
    intros [= <-]. cbn [name relativePath].
    apply startsWith_iff in E as [t ->]. rewrite replace_prefix.
    exists properties, nameProp, compProp, arrowFn.
    split; [done|]. split; [by apply getProperty_memberNamed|].
    split; [by apply getProperty_memberNamed|].
    split; [by apply getFirstDescendantByKind_firstOfKind|].
    split; [done|]. split; [by apply getFirstDescendantByKind_firstOfKind|].
    exists callee, targs, rest. by apply findImportCall_firstWhere.
  - intros (props & nameProp & compProp & arrowFn & -> & Hn & Hc & Hs & Hnm & Ha
            & callee & targs & rest & Hi).
    unfold matchRoute.
    rewrite (proj2 (getProperty_memberNamed _ _ _) Hn).
    rewrite (proj2 (getProperty_memberNamed _ _ _) Hc).
    rewrite (proj2 (getFirstDescendantByKind_firstOfKind _ _ _) Hs).
    rewrite (proj2 (getFirstDescendantByKind_firstOfKind _ _ _) Ha).
    destruct r as [nm rel]. cbn [name relativePath] in *.
    destruct nm as [|c nm]; [done|].
    rewrite (proj2 (findImportCall_firstWhere _ _) Hi). cbn [importPathOf].
    by rewrite startsWith_app, replace_prefix.
Qed.

(** An element stands for one route at most. *)
Lemma describes_unique route r r' : describes route r -> describes route r' -> r = r'.
Proof. intros H H'. apply matchRoute_describes in H, H'. congruence. Qed.


End Describes.

(** ** Claims on the extractor *)

(** C3, as stated, fails: a descriptor that imports [@/views/] itself is
    emitted with an empty [relativePath], and one that imports
    [@/views/@/views/a] with a [relativePath] that starts with the prefix. *)
Lemma relativePath_invariant_counterexample :
  ~ (forall sf routes,
       matchedRoutes sf = inr routes ->
       Forall (fun r => startsWith viewsPrefix (relativePath r) = false
                        /\ relativePath r <> []) routes).
Proof.
  intros H.
  specialize (H Examples.prefixOnlyRouteFile
                [Examples.route (js "Home") [];
                 Examples.route (js "Twice") (js "@/views/a")] eq_refl).
  apply Forall_cons in H as [[_ H] _]. by apply H.
Qed.

(** C3, amended: the routes the extractor emits come from the array the
    route file exports; each of them has a non-empty name and is the route
    of an element of that array, its descriptor, whose import path is
    [@/views/] followed by the [relativePath]: one leading [@/views/] is
    removed and no more. So the [relativePath] is empty exactly when the
    import path is [@/views/] itself, and it starts with [@/views/]
    exactly when the import path starts with it twice. *)
Theorem relativePath_is_stripped_import_path sf routes :
  matchedRoutes sf = inr routes ->
  exists equals e elements,
    getFirstDescendantByKind SyntaxKind.ExportAssignment (root sf)
      = Some (ExportAssignment equals e) /\
    resolvable sf e elements /\
    routes = extractRoutes elements /\
    Forall (fun r =>
              exists route importPath,
                route ∈ elements /\
                matchRoute route = Some r /\
                describes route r /\
                importPathOfRoute route = Some importPath /\
                importPath = viewsPrefix ++ relativePath r /\
                name r <> [] /\
                (relativePath r = [] <-> importPath = viewsPrefix) /\
                (startsWith viewsPrefix (relativePath r) = true
                 <-> startsWith (viewsPrefix ++ viewsPrefix) importPath = true))
           routes.
Proof.
  intros (equals & e & elements & He & Hr & ->)%matchedRoutes_inr.
  exists equals, e, elements. split; [done|].
  split; [by apply resolveRouteArray_iff|]. split; [done|].
  apply Forall_forall. intros r Hin.
  destruct (extractRoutes_elem _ _ Hin) as (route & Hroute & Hm).
  destruct (matchRoute_inv _ _ Hm) as [Hn Hp].
  exists route, (viewsPrefix ++ relativePath r).
  split; [done|]. split; [done|]. split; [by apply matchRoute_describes|].
  repeat split; try done.
  - intros ->. by rewrite app_nil_r.
  - intros H. apply (f_equal (drop (length viewsPrefix))) in H.
    rewrite drop_app_length in H. by rewrite H.
Qed.

Lemma relativePath_is_stripped_import_path_witness :
  let r1 := Examples.route (js "Home") [] in
  let r2 := Examples.route (js "Twice") (js "@/views/a") in
  matchedRoutes Examples.prefixOnlyRouteFile = inr [r1; r2] /\
  exists equals e elements,
    getFirstDescendantByKind SyntaxKind.ExportAssignment
      (root Examples.prefixOnlyRouteFile) = Some (ExportAssignment equals e) /\
    resolvable Examples.prefixOnlyRouteFile e elements /\
    [r1; r2] = extractRoutes elements /\
    Forall (fun r =>
              exists route importPath,
                route ∈ elements /\
                matchRoute route = Some r /\
                describes route r /\
                importPathOfRoute route = Some importPath /\
                importPath = viewsPrefix ++ relativePath r /\
                name r <> [] /\
                (relativePath r = [] <-> importPath = viewsPrefix) /\
                (startsWith viewsPrefix (relativePath r) = true
                 <-> startsWith (viewsPrefix ++ viewsPrefix) importPath = true))
           [r1; r2].
Proof.
  intros r1 r2.
  assert (matchedRoutes Examples.prefixOnlyRouteFile = inr [r1; r2]) as H
    by reflexivity.
  split; [exact H|].
  exact (relativePath_is_stripped_import_path Examples.prefixOnlyRouteFile [r1; r2] H).
Defined.



(** The descriptors the loop accepts beside the plain one: an arrow
    function with a block body, an import inside another call, and a name
    that a method returns; the last is no descriptor in the words of the
    specification. *)
Example extraction_examples :
  extractRoutes
    [Examples.blockBodied (js "Block") (js "@/views/block");
     Identifier (js "legacy");
     Examples.wrappedImport (js "Wrapped") (js "@/views/wrapped.vue");
     Examples.methodNamed (js "Method") (js "@/views/method");
     Examples.descriptor (js "Layout") (js "@/layouts/main.vue")]
  = [Examples.route (js "Block") (js "block");
     Examples.route (js "Wrapped") (js "wrapped.vue");
     Examples.route (js "Method") (js "method")]
  /\ wellFormed (Examples.blockBodied (js "Block") (js "@/views/block"))
       (js "Block") (js "block")
  /\ wellFormed (Examples.wrappedImport (js "Wrapped") (js "@/views/wrapped.vue"))
       (js "Wrapped") (js "wrapped.vue")
  /\ forall nm path,
       ~ wellFormed (Examples.methodNamed (js "Method") (js "@/views/method")) nm path.
Proof.
  split; [reflexivity|]. split; [|split].
  - eexists _, _, _. split; [reflexivity|].
    split; [by apply getProperty_memberNamed|].
    split; [by apply getProperty_memberNamed|].
    exists ImportKeyword, [], []. by apply findImportCall_firstWhere.
  - eexists _, _, _. split; [reflexivity|].
    split; [by apply getProperty_memberNamed|].
    split; [by apply getProperty_memberNamed|].
    exists ImportKeyword, [], []. by apply findImportCall_firstWhere.
  - intros nm path (props & params & body & [= <-] & Hn & _).
    by apply getProperty_memberNamed in Hn.
Qed.

(** C7, as stated, fails: a route file whose export is [export = [...]]
    has no default export, and yet its array is read and the component
    file is written. *)
Lemma export_equals_counterexample :
  ~ (forall h config sf d,
       (forall e, ExportAssignment false e ∉ getDescendants (root sf)) ->
       exists msg,
         Disk.injectDefineOptions h config sf d
         = (Disk.emit (ConsoleError msg) d, Disk.Returned)).
Proof.
  intros H.
  destruct (H Examples.plainHost Scenario.config
              (Examples.exportEquals
                 (ArrayLiteralExpression
                    [Examples.descriptor (js "Home") (js "@/views/home")]))
              {| Disk.entries :=
                   {[ js "/app/src/views/home.vue"
                      := Disk.File (js "<template/>") true true ]};
                 Disk.events := [] |}) as [msg Hm].
  - intros e He. apply list_elem_of_In in He. vm_compute in He.
    repeat (destruct He as [He|He]; [discriminate He|]). done.
  - apply (f_equal (fun run => length (Disk.events run.1))) in Hm.
    vm_compute in Hm. discriminate Hm.
Qed.

(** C7, amended: when the route file has no export assignment, neither
    [export default] nor [export =], or the expression of its first export
    assignment is none of the three resolvable forms, the run reports one
    error and returns: the disk is unchanged and nothing but the error is
    added to the events, so no component file is tested, read or written. *)
Theorem structural_failure_aborts h config sf w d :
  (forall n, n ∈ getDescendants (root sf) ->
             getKind n <> SyntaxKind.ExportAssignment)
  \/ (exists equals e,
        getFirstDescendantByKind SyntaxKind.ExportAssignment (root sf)
          = Some (ExportAssignment equals e)
        /\ forall es, ~ resolvable sf e es) ->
  exists msg,
    matchedRoutes sf = inl msg /\
    Disk.injectDefineOptions h config sf d
    = ({| Disk.entries := Disk.entries d;
          Disk.events := Disk.events d ++ [ConsoleError msg] |}, Disk.Returned) /\
    files (injectDefineOptions h config sf w) = files w /\
    trace (injectDefineOptions h config sf w) = trace w ++ [ConsoleError msg].
Proof.
  intros H.
  assert (exists msg, matchedRoutes sf = inl msg) as [msg Hm].
  { unfold matchedRoutes. destruct H as [H|(equals & e & -> & H)].
    - apply getFirstDescendantByKind_None in H. rewrite H. by eexists.
    - destruct (resolveRouteArray sf e) as [es|] eqn:E; [|by eexists].
      by apply resolveRouteArray_iff, H in E. }
  exists msg. unfold injectDefineOptions, Disk.injectDefineOptions. by rewrite Hm.
Qed.

Lemma structural_failure_aborts_witness :
  let sf := Examples.numberRouteFile in
  let w := Scenario.disk in
  let d := {| Disk.entries :=
                {[ Scenario.listVuePath := Disk.File Scenario.listVue true true ]};
              Disk.events := [] |} in
  ((forall n, n ∈ getDescendants (root sf) ->
              getKind n <> SyntaxKind.ExportAssignment)
   \/ (exists equals e,
         getFirstDescendantByKind SyntaxKind.ExportAssignment (root sf)
           = Some (ExportAssignment equals e)
         /\ forall es, ~ resolvable sf e es)) /\
  exists msg,
    matchedRoutes sf = inl msg /\
    Disk.injectDefineOptions Examples.plainHost Scenario.config sf d
    = ({| Disk.entries := Disk.entries d;
          Disk.events := Disk.events d ++ [ConsoleError msg] |}, Disk.Returned) /\
    files (injectDefineOptions Examples.plainHost Scenario.config sf w) = files w /\
    trace (injectDefineOptions Examples.plainHost Scenario.config sf w)
    = trace w ++ [ConsoleError msg].
Proof.
  intros sf w d.
  assert ((forall n, n ∈ getDescendants (root sf) ->
                     getKind n <> SyntaxKind.ExportAssignment)
          \/ (exists equals e,
                getFirstDescendantByKind SyntaxKind.ExportAssignment (root sf)
                  = Some (ExportAssignment equals e)
                /\ forall es, ~ resolvable sf e es)) as H.
  { right. exists false, (Other 9 (js "42") []). split; [reflexivity|].
    intros es Hres%resolveRouteArray_iff. discriminate Hres. }
  split; [exact H|].
  exact (structural_failure_aborts Examples.plainHost Scenario.config sf w d H).
Defined.

(** X11: when the exported array resolves and none of its elements stands
    for a route, the empty array included, the run ends with the one
    warning that nothing matched, and no file is tested, read or
    written. *)
Theorem only_mismatches_warns h config sf w d equals e elements :
  getFirstDescendantByKind SyntaxKind.ExportAssignment (root sf)
  = Some (ExportAssignment equals e) ->
  resolvable sf e elements ->
  (forall route r, route ∈ elements -> ~ describes route r) ->
  Disk.injectDefineOptions h config sf d
  = ({| Disk.entries := Disk.entries d;
        Disk.events := Disk.events d ++ [ConsoleWarn NoMatchedRoute] |},
     Disk.Returned) /\
  files (injectDefineOptions h config sf w) = files w /\
  trace (injectDefineOptions h config sf w) = trace w ++ [ConsoleWarn NoMatchedRoute].
Proof.
  intros He Hres%resolveRouteArray_iff Hnone.
  assert (extractRoutes elements = []) as Hempty.
  { destruct (extractRoutes elements) as [|r routes] eqn:E; [done|].
    destruct (extractRoutes_elem elements r) as (route & Hin & Hm).
    { rewrite E. by left. }
    by apply matchRoute_describes, Hnone in Hm. }
  unfold injectDefineOptions, Disk.injectDefineOptions, matchedRoutes.
  by rewrite He, Hres, Hempty.
Qed.

Lemma only_mismatches_warns_witness :
  let elements :=
    [Examples.descriptor (js "Layout") (js "@/layouts/main.vue");
     Identifier (js "legacyRoute");
     Examples.namelessDescriptor] in
  let e := AsExpression (ArrayLiteralExpression elements)
             (Other 183 (js "RouteRecordRaw[]") []) in
  let sf := Examples.exporting e in
  let w := Scenario.disk in
  let d := {| Disk.entries :=
                {[ Scenario.listVuePath := Disk.File Scenario.listVue true true ]};
              Disk.events := [] |} in
  (getFirstDescendantByKind SyntaxKind.ExportAssignment (root sf)
   = Some (ExportAssignment false e) /\
   resolvable sf e elements /\
   (forall route r, route ∈ elements -> ~ describes route r)) /\
  Disk.injectDefineOptions Examples.plainHost Scenario.config sf d
  = ({| Disk.entries := Disk.entries d;
        Disk.events := Disk.events d ++ [ConsoleWarn NoMatchedRoute] |},
     Disk.Returned) /\
  files (injectDefineOptions Examples.plainHost Scenario.config sf w) = files w /\
  trace (injectDefineOptions Examples.plainHost Scenario.config sf w)
  = trace w ++ [ConsoleWarn NoMatchedRoute].
Proof.
  intros elements e sf w d.
  assert (getFirstDescendantByKind SyntaxKind.ExportAssignment (root sf)
          = Some (ExportAssignment false e)) as H1 by reflexivity.
  assert (resolvable sf e elements) as H2.
  { left. right. by eexists. }
  assert (forall route r, route ∈ elements -> ~ describes route r) as H3.
  { intros route r Hin Hd%matchRoute_describes.
    apply list_elem_of_In in Hin.
    destruct Hin as [<-|[<-|[<-|[]]]]; discriminate Hd. }
  split; [by repeat split|].
  exact (only_mismatches_warns Examples.plainHost Scenario.config sf w d false e
           elements H1 H2 H3).
Defined.

(** ** One statement in the file *)

Section OneStatement.
Context (h : Host).







End OneStatement.




(** ** Claims on the whole run on the disk *)

(** X10: the run only appends to its events. When it returns, it has
    reported once on the console for every matched route (skipped,
    missing, processed or given a new block), or once when it stops before
    the loop; when a call of [fs] throws, it has reported once for each
    route before the one that failed, and for no other. *)
Theorem one_console_message_per_route h config sf d :
  let callback := Disk.processRoute h (viewsDir config) (excludeDirs config) in
  let run := Disk.injectDefineOptions h config sf d in
  exists added,
    Disk.events run.1 = Disk.events d ++ added /\
    match run.2 with
    | Disk.Returned =>
        length (List.filter isConsole added)
        = match matchedRoutes sf with
          | inr (r :: routes) => length (r :: routes)
          | _ => 1
          end
    | Disk.Thrown code path =>
        exists done r rest d1,
          matchedRoutes sf = inr (done ++ r :: rest) /\
          Disk.forEach callback d done = (d1, Disk.Returned) /\
          (callback d1 r).2 = Disk.Thrown code path /\
          length (List.filter isConsole added) = length done
    end.
Proof.
  cbv zeta. unfold Disk.injectDefineOptions.
  destruct (matchedRoutes sf) as [err|[|r routes]]; [by eexists|by eexists|].
  destruct (disk_forEach_messages h (viewsDir config) (excludeDirs config)
              (r :: routes) d) as (added & H1 & H2).
  exists added. split; [done|].
  destruct (Disk.forEach _ d (r :: routes)).2; [done|].
  destruct H2 as (done & r' & rest & d1 & -> & H2). by exists done, r', rest, d1.
Qed.

(** A directory in the place of the first component file: the run throws
    on reading it, reports nothing, and never gets to the second route. *)
Example directory_ends_run :
  let sf :=
    Examples.exporting
      (ArrayLiteralExpression
         [Examples.descriptor (js "A") (js "@/views/a");
          Examples.descriptor (js "B") (js "@/views/b")]) in
  let d := {| Disk.entries :=
                {[ js "/app/src/views/a.vue" := Disk.Directory;
                   js "/app/src/views/b.vue" := Disk.File (js "<template/>") true true ]};
              Disk.events := [] |} in
  Disk.injectDefineOptions Examples.plainHost Scenario.config sf d
  = ({| Disk.entries := Disk.entries d;
        Disk.events := [ExistsSync (js "/app/src/views/a.vue");
                        ReadFileSync (js "/app/src/views/a.vue")] |},
     Disk.Thrown Disk.EISDIR (js "/app/src/views/a.vue")).
Proof. reflexivity. Qed.

(** ** Failures of the file system *)

Lemma disk_forEach_app {A : Type} (f : Disk.Machine -> A -> Disk.Machine * Disk.Completion)
    d l1 l2 :
  Disk.forEach f d (l1 ++ l2)
  = match Disk.forEach f d l1 with
    | (d1, Disk.Returned) => Disk.forEach f d1 l2
    | thrown => thrown
    end.
Proof.
  revert d. induction l1 as [|x l1 IH]; intros d; [done|].
  cbn [app Disk.forEach]. destruct (f d x) as [d' [|code path]]; [apply IH|done].
Qed.

(** X15: a component file that is a directory, or that the process may
    not read or may not write, ends the run: the call of [fs] throws, the
    routes behind it are not processed, nothing is reported for the
    failing route, and the disk is as the routes before it left it. *)
Theorem failing_target_ends_run h config sf d d1 done r rest e :
  let path := vueFilePath h (viewsDir config) (relativePath r) in
  matchedRoutes sf = inr (done ++ r :: rest) ->
  Disk.forEach (Disk.processRoute h (viewsDir config) (excludeDirs config)) d done
  = (d1, Disk.Returned) ->
  isExcluded (excludeDirs config) (relativePath r) = false ->
  Disk.entries d1 !! path = Some e ->
  e = Disk.Directory
  \/ (exists bytes readable writable,
        e = Disk.File bytes readable writable /\ readable && writable = false) ->
  exists added code,
    Disk.injectDefineOptions h config sf d
    = ({| Disk.entries := Disk.entries d1; Disk.events := Disk.events d1 ++ added |},
       Disk.Thrown code path) /\
    List.filter isConsole added = [].
Proof.
  intros path Hm Hdone Hex He Hbad.
  destruct (disk_processRoute_throws h (viewsDir config) (excludeDirs config) d1 r e
              Hex He Hbad) as (added & code & Hrun & Hc).
  exists added, code. split; [|done].
  unfold Disk.injectDefineOptions. rewrite Hm.
  assert (Disk.forEach (Disk.processRoute h (viewsDir config) (excludeDirs config)) d
            (done ++ r :: rest)
          = ({| Disk.entries := Disk.entries d1;
                Disk.events := Disk.events d1 ++ added |}, Disk.Thrown code path)) as Hall.
  { rewrite disk_forEach_app, Hdone. cbn [Disk.forEach]. by rewrite Hrun. }
  destruct (done ++ r :: rest) as [|r0 l] eqn:E; [by destruct done|done].
Qed.

Lemma failing_target_ends_run_witness :
  let sf :=
    Examples.exporting
      (ArrayLiteralExpression
         [Examples.descriptor (js "A") (js "@/views/a");
          Examples.descriptor (js "B") (js "@/views/b");
          Examples.descriptor (js "C") (js "@/views/c")]) in
  let d := {| Disk.entries :=
                {[ js "/app/src/views/b.vue" := Disk.File (js "<template/>") true false;
                   js "/app/src/views/c.vue" := Disk.File (js "<template/>") true true ]};
              Disk.events := [] |} in
  let d1 := {| Disk.entries := Disk.entries d;
               Disk.events := [ExistsSync (js "/app/src/views/a.vue");
                               ConsoleWarn (FileNotFound (js "/app/src/views/a.vue"))] |} in
  let done := [Examples.route (js "A") (js "a")] in
  let r := Examples.route (js "B") (js "b") in
  let rest := [Examples.route (js "C") (js "c")] in
  let path := js "/app/src/views/b.vue" in
  (matchedRoutes sf = inr (done ++ r :: rest) /\
   Disk.forEach (Disk.processRoute Examples.plainHost (viewsDir Scenario.config)
                   (excludeDirs Scenario.config)) d done = (d1, Disk.Returned) /\
   isExcluded (excludeDirs Scenario.config) (relativePath r) = false /\
   Disk.entries d1 !! path = Some (Disk.File (js "<template/>") true false)) /\
  exists added code,
    Disk.injectDefineOptions Examples.plainHost Scenario.config sf d
    = ({| Disk.entries := Disk.entries d1; Disk.events := Disk.events d1 ++ added |},
       Disk.Thrown code path) /\
    List.filter isConsole added = [].
Proof.
  intros sf d d1 done r rest path.
  assert (matchedRoutes sf = inr (done ++ r :: rest)) as H1 by reflexivity.
  assert (Disk.forEach (Disk.processRoute Examples.plainHost (viewsDir Scenario.config)
                          (excludeDirs Scenario.config)) d done = (d1, Disk.Returned))
    as H2 by reflexivity.
  assert (isExcluded (excludeDirs Scenario.config) (relativePath r) = false) as H3
    by reflexivity.
  assert (Disk.entries d1 !! path = Some (Disk.File (js "<template/>") true false)) as H4
    by reflexivity.
  split; [by repeat split|].
  apply (failing_target_ends_run Examples.plainHost Scenario.config sf d d1 done r rest
           (Disk.File (js "<template/>") true false) H1 H2 H3 H4).
  right. by eexists _, _, _.
Defined.
